(** * Melody generation service: constrained generation loop, music-theory
    helpers, demo generator and accompaniment arranger.

    A shallow embedding of [backend/services/melody_service.py].

    Conventions.
    - Python [int] is [Z]; Python [float] is an exact rational [Q]: the
      rounding of binary64 (and of the float32 seed array), infinities and
      NaN are not modelled.  Properties about times are stated up to [==]
      on [Q].
    - A Python [dict] with string keys is a [gmap string _]; [str.lower] acts
      on ASCII letters.
    - A call that can raise returns a [result]; [try ... except Exception]
      is [try_except], and every exception of [exn] derives from
      [Exception].  A [while] loop is run on fuel: [OutOfFuel] is the outcome
      of a computation that does not return.
    - The predictive model, the MIDI library and the pseudo-random generator
      are parameters; the answers of the model and of the generator are
      functions of the call number. *)

From Stdlib Require Import ZArith QArith Qround Qabs Lia Lqa Ascii String List Sorted.
From stdpp Require Import base option list gmap strings.

Local Open Scope Z_scope.

(* ===================================================================== *)
(** * Outcomes of Python calls                                            *)
(* ===================================================================== *)

Inductive exn : Type :=
  | AssertionError
  | ZeroDivisionError
  | ValueError
  | IndexError
  | KeyError (key : string)
  | ImportError
  | RuntimeError (msg : string).

Inductive result (A : Type) : Type :=
  | Ok (a : A)
  | Raise (e : exn)
  | OutOfFuel.

Arguments Ok {A} a.
Arguments Raise {A} e.
Arguments OutOfFuel {A}.

Definition result_bind {A B : Type} (f : A -> result B) (r : result A) : result B :=
  match r with
  | Ok a => f a
  | Raise e => Raise e
  | OutOfFuel => OutOfFuel
  end.

#[export] Instance result_ret : MRet result := fun A a => Ok a.
#[export] Instance result_mbind : MBind result := fun A B f r => result_bind f r.

(** [try: body except Exception: handler]. *)
Definition try_except {A : Type} (body : result A) (handler : exn -> result A) : result A :=
  match body with
  | Ok a => Ok a
  | Raise e => handler e
  | OutOfFuel => OutOfFuel
  end.

(* ===================================================================== *)
(** * Python built-ins used by the service                                *)
(* ===================================================================== *)

(** [x in l] on a list of ints. *)
Definition py_in (x : Z) (l : list Z) : bool := existsb (Z.eqb x) l.

(** [min(l)]: the first smallest element; [ValueError] on an empty list. *)
Fixpoint py_min_from (m : Z) (l : list Z) : Z :=
  match l with
  | [] => m
  | x :: l' => py_min_from (if x <? m then x else m) l'
  end.

Definition py_min (l : list Z) : result Z :=
  match l with
  | [] => Raise ValueError
  | x :: l' => Ok (py_min_from x l')
  end.

(** [l.index(x)]: position of the first occurrence; [ValueError] if absent. *)
Fixpoint py_index (x : Z) (l : list Z) : result nat :=
  match l with
  | [] => Raise ValueError
  | y :: l' => if y =? x then Ok O else n ← py_index x l'; Ok (S n)
  end.

(** [l[i]] for [0 <= i]; [IndexError] when out of range. *)
Definition py_getitem {A : Type} (l : list A) (i : nat) : result A :=
  match l !! i with
  | Some a => Ok a
  | None => Raise IndexError
  end.

(** [s.lower()] on ASCII letters. *)
Definition ascii_lower (c : ascii) : ascii :=
  let n := nat_of_ascii c in
  if (65 <=? n)%nat && (n <=? 90)%nat then ascii_of_nat (n + 32) else c.

Fixpoint py_lower (s : string) : string :=
  match s with
  | EmptyString => EmptyString
  | String c s' => String (ascii_lower c) (py_lower s')
  end.

(** [d.get(k, default)]. *)
Definition dict_get {V : Type} (d : gmap string V) (k : string) (default : V) : V :=
  match d !! k with
  | Some v => v
  | None => default
  end.

(** [d[k]]: [KeyError] when the key is absent. *)
Definition dict_getitem {V : Type} (d : gmap string V) (k : string) : result V :=
  match d !! k with
  | Some v => Ok v
  | None => Raise (KeyError k)
  end.

(** Python values stored in note dictionaries. *)
Inductive pyval : Type :=
  | PyInt (z : Z)
  | PyFloat (q : Q).

(** Numeric value of an [int] or [float] in float arithmetic. *)
Definition py_float (v : pyval) : Q :=
  match v with
  | PyInt z => inject_Z z
  | PyFloat q => q
  end.

(** [int(v)]: truncation toward zero. *)
Definition py_int (v : pyval) : Z :=
  match v with
  | PyInt z => z
  | PyFloat q => Z.quot (Qnum q) (Zpos (Qden q))
  end.

Definition Qltb (a b : Q) : bool := negb (Qle_bool b a).

(** [max(a, b)] on floats: the first argument wins ties. *)
Definition py_maxQ (a b : Q) : Q := if Qltb a b then b else a.

(** [a / b] on floats: [ZeroDivisionError] when [b] is zero. *)
Definition py_truediv (a b : Q) : result Q :=
  if Qeq_bool b 0 then Raise ZeroDivisionError else Ok (a / b)%Q.

(** [round(x)]: nearest integer, ties to the even one. *)
Definition py_round (x : Q) : Z :=
  let f := Qfloor x in
  match (x - inject_Z f ?= 1 # 2)%Q with
  | Lt => f
  | Gt => f + 1
  | Eq => if Z.even f then f else f + 1
  end.

(** [round(x, 3)]. *)
Definition py_round3 (x : Q) : Q := (inject_Z (py_round (x * 1000)) / 1000)%Q.

(** [x % m] on floats for [m > 0]. *)
Definition py_fmod (x m : Q) : Q := (x - inject_Z (Qfloor (x / m)) * m)%Q.

(** [range(n)]. *)
Definition py_range (n : Z) : list nat := seq 0 (Z.to_nat n).

(** [for a in l: s = body(a, s)], stopping at the first exception. *)
Fixpoint for_each {S A : Type} (body : A -> S -> result S) (l : list A) (s : S) : result S :=
  match l with
  | [] => Ok s
  | a :: l' => s' ← body a s; for_each body l' s'
  end.

(* ===================================================================== *)
(** * MusicTheory                                                         *)
(* ===================================================================== *)

Module MusicTheory.

Definition major : list Z := [0; 2; 4; 5; 7; 9; 11].
Definition minor : list Z := [0; 2; 3; 5; 7; 8; 10].
Definition pentatonic : list Z := [0; 2; 4; 7; 9].
Definition blues : list Z := [0; 3; 5; 6; 7; 10].

Definition SCALES : gmap string (list Z) :=
  <["major" := major]> (<["minor" := minor]>
  (<["pentatonic" := pentatonic]> (<["blues" := blues]> ∅))).

Definition GENRE_SCALE_MAP : gmap string string :=
  <["pop" := "major"]> (<["rock" := "pentatonic"]>
  (<["jazz" := "blues"]> (<["classical" := "major"]> ∅)))%string.

Definition get_scale_for_genre (genre : string) : result (list Z) :=
  let scale_name := dict_get GENRE_SCALE_MAP (py_lower genre) "major"%string in
  dict_getitem SCALES scale_name.

Definition constrain_to_scale (pitch : Z) (scale : list Z) : result Z :=
  if (pitch <? 0) || (pitch >? 127) then Ok 60
  else
    let note := pitch mod 12 in
    let octave := pitch / 12 in
    if py_in note scale then Ok pitch
    else
      let distances := map (fun s => Z.abs (note - s)) scale in
      min_distance ← py_min distances;
      idx ← py_index min_distance distances;
      nearest_note ← py_getitem scale idx;
      if (nearest_note >? note) && (note <? 6)
      then Ok (octave * 12 + nearest_note)
      else Ok (octave * 12 + nearest_note).

Definition quantize_duration (value : Q) (grid : Q) : result Q :=
  if Qle_bool value 0.05 then Ok 0%Q
  else
    n ← py_truediv value grid;
    let quantized := (inject_Z (py_round n) * grid)%Q in
    if Qeq_bool quantized 0 && Qltb 0.05 value then Ok grid
    else Ok quantized.

End MusicTheory.


(* ===================================================================== *)
(** * The predictive model and [predict_next_note]                        *)
(* ===================================================================== *)

(** One row of the model's input: normalised (pitch, step, duration). *)
Definition NormalizedNote : Type := Q * Q * Q.

(** A loaded model together with its pitch sampler.  [m k notes temperature]
    is the outcome of the [k]-th inference of a request on the window
    [notes]: the sampled pitch and the two regression outputs, or the
    exception the call raises. *)
Definition Model : Type := nat -> list NormalizedNote -> Q -> result (Z * Q * Q).

Definition predict_next_note (k : nat) (notes : list NormalizedNote)
    (model : Model) (temperature : Q) : result (Z * Q * Q) :=
  if Qltb 0 temperature then
    '(pitch, step, duration) ← model k notes temperature;
    let step := py_maxQ 0 step in
    let duration := py_maxQ 0 duration in
    Ok (pitch, step, duration)
  else Raise AssertionError.

(* ===================================================================== *)
(** * SeedGenerator                                                       *)
(* ===================================================================== *)

Module SeedGenerator.

Definition GENRE_START_PITCH : gmap string Z :=
  <["pop" := 60]> (<["rock" := 57]> (<["jazz" := 63]> (<["classical" := 64]> ∅))).

Definition seed_row (start_pitch : Z) (vocab_size max_step max_duration : Q)
    (i : nat) : result NormalizedNote :=
  if (i <? 15)%nat then Ok (0, 0, 0)%Q
  else
    let offset := (i - 15)%nat in
    let pitch := start_pitch + Z.of_nat offset mod 5 in
    let step := 0.5%Q in
    let duration := 0.4%Q in
    a ← py_truediv (inject_Z pitch) vocab_size;
    b ← py_truediv step max_step;
    c ← py_truediv duration max_duration;
    Ok (a, b, c).

Definition generate_smart_seed (genre : string) (seq_length : Z)
    (vocab_size max_step max_duration : Q) : result (list NormalizedNote) :=
  let start_pitch := dict_get GENRE_START_PITCH (py_lower genre) 60 in
  for_each
    (fun i seed =>
       row ← seed_row start_pitch vocab_size max_step max_duration i;
       Ok (seed ++ [row]))
    (py_range seq_length) [].

End SeedGenerator.

(* ===================================================================== *)
(** * MelodyServiceV2: the constrained generation loop                    *)
(* ===================================================================== *)

(** A note as the service returns it: a dictionary. *)
Abbreviation NoteDict := (gmap string pyval).

(** The fields of a service instance. *)
Record MelodyServiceV2 : Type := {
  model : option Model;
  max_step : Q;
  max_duration : Q;
  vocab_size : Q;
}.

Definition SEQ_LENGTH : Z := 25.

(** The variables the generation loop updates. *)
Record LoopState : Type := {
  input_notes : list NormalizedNote;
  prev_start : Q;
  temperature : Q;
  generated_notes : list NoteDict;
}.

Definition tempo_scale (tempo : Z) : Q := (120 / inject_Z (Z.max tempo 1))%Q.

Definition note_data (pitch : Z) (start end_ scaled_step scaled_duration : Q) : NoteDict :=
  <["pitch" := PyInt pitch]> (<["start" := PyFloat start]>
  (<["end" := PyFloat end_]> (<["step" := PyFloat scaled_step]>
  (<["duration" := PyFloat scaled_duration]> ∅)))).

Section GenerationLoop.

Variable self : MelodyServiceV2.
Variable the_model : Model.
Variable scale : list Z.
Variable tempo : Z.

(** One iteration of [for i in range(total_notes)]. *)
Definition loop_body (i : nat) (st : LoopState) : result LoopState :=
  (* 1. Predict *)
  '(pitch, step, duration) ←
     predict_next_note i (input_notes st) the_model (temperature st);
  (* 2. Key constraint *)
  pitch ← MusicTheory.constrain_to_scale pitch scale;
  (* 3. Rhythmic quantization *)
  step ← MusicTheory.quantize_duration step 0.125;
  duration ← MusicTheory.quantize_duration duration 0.125;
  (* 4. Minimum value protection *)
  let step := py_maxQ 0.125 step in
  let duration := py_maxQ 0.125 duration in
  (* 5. Apply tempo scaling *)
  let scaled_step := (step * tempo_scale tempo)%Q in
  let scaled_duration := (duration * tempo_scale tempo)%Q in
  (* 6. Build note object *)
  let start := (prev_start st + scaled_step)%Q in
  let end_ := (start + scaled_duration)%Q in
  let generated := generated_notes st ++ [note_data pitch start end_ scaled_step scaled_duration] in
  (* 7. Update input sequence *)
  a ← py_truediv (inject_Z pitch) (vocab_size self);
  b ← py_truediv step (max_step self);
  c ← py_truediv duration (max_duration self);
  let input := tail (input_notes st) ++ [(a, b, c)] in
  (* 8. Dynamic temperature adjustment *)
  let temp :=
    if (0 <? i)%nat && (i mod 16 =? 0)%nat
    then (if Qltb 1 (temperature st) then 0.9 else 1.2)%Q
    else temperature st in
  Ok {| input_notes := input; prev_start := start;
        temperature := temp; generated_notes := generated |}.

Definition loop_init (seed : list NormalizedNote) (temp : Q) : LoopState :=
  {| input_notes := seed; prev_start := 0; temperature := temp; generated_notes := [] |}.

(** The loop variables after the first [k] iterations. *)
Definition loop_state (seed : list NormalizedNote) (temp : Q) (k : nat) : result LoopState :=
  for_each loop_body (seq 0 k) (loop_init seed temp).

End GenerationLoop.

Definition generate_with_constraints (self : MelodyServiceV2) (the_model : Model)
    (total_notes : Z) (seed : list NormalizedNote) (tempo : Z) (genre : string)
    (temp : Q) : result (list NoteDict) :=
  scale ← MusicTheory.get_scale_for_genre genre;
  st ← for_each (loop_body self the_model scale tempo) (py_range total_notes)
         (loop_init seed temp);
  Ok (generated_notes st).

(* ===================================================================== *)
(** * The process-wide pseudo-random generator ([np.random])              *)
(* ===================================================================== *)

(** The generator as the stream of its raw draws: the [c]-th draw read as
    an integer, or as a fraction of the unit interval. *)
Record Rng : Type := {
  rand_int : nat -> Z;
  rand_unit : nat -> Q;
}.

(** [np.random.randint(lo, hi)] at draw [c]. *)
Definition randint (g : Rng) (c : nat) (lo hi : Z) : Z :=
  lo + rand_int g c mod (hi - lo).

(** [np.random.uniform(lo, hi)] at draw [c]. *)
Definition uniform (g : Rng) (c : nat) (lo hi : Q) : Q :=
  (lo + (hi - lo) * rand_unit g c)%Q.

(** [np.random.choice(l)] at draw [c], for a non-empty [l]. *)
Definition choice (g : Rng) (c : nat) (l : list Z) : Z :=
  nth (Z.to_nat (rand_int g c mod Z.of_nat (length l))) l 0.

(* ===================================================================== *)
(** * MelodyServiceV2: the demo generator                                 *)
(* ===================================================================== *)

Record DemoConfig : Type := {
  cfg_scale : list Z;
  rhythm_pattern : list Q;
  duration_pattern : list Q;
}.

Definition pop_config : DemoConfig :=
  {| cfg_scale := [60; 62; 64; 65; 67; 69; 71; 72];
     rhythm_pattern := [0.5; 0.5; 1.0; 0.5; 0.5; 1.0; 0.25; 0.25]%Q;
     duration_pattern := [0.4; 0.4; 0.8; 0.4; 0.4; 0.8; 0.2; 0.2]%Q |}.

Definition jazz_config : DemoConfig :=
  {| cfg_scale := [60; 63; 65; 66; 67; 70; 72];
     rhythm_pattern := [0.33; 0.67; 0.5; 0.5; 1.0; 0.33; 0.67]%Q;
     duration_pattern := [0.3; 0.6; 0.4; 0.4; 0.9; 0.3; 0.6]%Q |}.

Definition classical_config : DemoConfig :=
  {| cfg_scale := [60; 62; 64; 65; 67; 69; 71; 72; 74; 76];
     rhythm_pattern := [1.0; 1.0; 0.5; 0.5; 1.0; 1.0; 2.0]%Q;
     duration_pattern := [0.9; 0.9; 0.45; 0.45; 0.9; 0.9; 1.8]%Q |}.

Definition rock_config : DemoConfig :=
  {| cfg_scale := [60; 63; 65; 67; 70; 72];
     rhythm_pattern := [0.25; 0.25; 0.5; 0.25; 0.25; 0.5; 1.0]%Q;
     duration_pattern := [0.2; 0.2; 0.4; 0.2; 0.2; 0.4; 0.8]%Q |}.

Definition genre_configs : gmap string DemoConfig :=
  <["pop" := pop_config]> (<["jazz" := jazz_config]>
  (<["classical" := classical_config]> (<["rock" := rock_config]> ∅))).

Definition demo_note (pitch : Z) (step duration current_time : Q) : NoteDict :=
  <["pitch" := PyInt pitch]> (<["step" := PyFloat (py_round3 step)]>
  (<["duration" := PyFloat (py_round3 duration)]>
  (<["start_time" := PyFloat (py_round3 current_time)]> ∅))).

(** The variables of the demo loop; [dm_draws] counts the draws taken from
    the generator so far. *)
Record DemoState : Type := {
  dm_notes : list NoteDict;
  current_time : Q;
  prev_pitch : Z;
  dm_draws : nat;
}.

Definition demo_body (g : Rng) (config : DemoConfig) (i : nat) (st : DemoState) : DemoState :=
  let scale := cfg_scale config in
  let rhythm := rhythm_pattern config in
  let durations := duration_pattern config in
  let c := dm_draws st in
  (* Choose pitch *)
  let pitch_choices := filter (fun p => Z.abs (p - prev_pitch st) <= 5) scale in
  let pitch_choices := match pitch_choices with [] => scale | _ => pitch_choices end in
  let pitch := choice g c pitch_choices in
  (* Choose rhythm *)
  let step := nth (i mod length rhythm) rhythm 0%Q in
  let duration := nth (i mod length durations) durations 0%Q in
  (* Add random variation *)
  let step := (step * uniform g (c + 1) 0.9 1.1)%Q in
  let duration := (duration * uniform g (c + 2) 0.9 1.1)%Q in
  {| dm_notes := dm_notes st ++ [demo_note pitch step duration (current_time st)];
     current_time := (current_time st + step)%Q;
     prev_pitch := pitch;
     dm_draws := (c + 3)%nat |}.

(** [_generate_demo_melody(num_notes, tempo, genre)], started with the
    generator at draw [c0]; returns the loop's final variables. *)
Definition demo_loop (g : Rng) (c0 : nat) (num_notes : Z) (tempo : Z) (genre : string)
    : DemoState :=
  let config := dict_get genre_configs (py_lower genre) pop_config in
  let scale := cfg_scale config in
  fold_left (fun st i => demo_body g config i st) (py_range num_notes)
    {| dm_notes := []; current_time := 0;
       prev_pitch := nth (length scale / 2) scale 0; dm_draws := c0 |}.

Definition generate_demo_melody (g : Rng) (c0 : nat) (num_notes : Z) (tempo : Z)
    (genre : string) : list NoteDict :=
  dm_notes (demo_loop g c0 num_notes tempo genre).

(* ===================================================================== *)
(** * EnhancedMidiGenerator                                               *)
(* ===================================================================== *)

Module PrettyMidi.

(** [pretty_midi.Note]. *)
Record Note : Type := {
  velocity : Z;
  pitch : Z;
  start : Q;
  end_ : Q;
}.

(** [pretty_midi.Instrument]. *)
Record Instrument : Type := {
  program : Z;
  is_drum : bool;
  name : string;
  notes : list Note;
}.

(** [pretty_midi.PrettyMIDI]. *)
Record PrettyMIDI : Type := {
  initial_tempo : Z;
  instruments : list Instrument;
}.

End PrettyMidi.

(** What the generator needs from outside the service: the import of the
    MIDI library ([import pretty_midi, base64, io]), the construction of an
    empty score ([pretty_midi.PrettyMIDI(initial_tempo=tempo)]), each given
    by the exception it raises, if any; and the serialisation of a score to
    base64 text ([pm.write] and [base64.b64encode]). *)
Record MidiEnv : Type := {
  import_error : option exn;
  score_error : Z -> option exn;
  write_base64 : PrettyMidi.PrettyMIDI -> result string;
}.

(** A call into the library that returns nothing of interest. *)
Definition library_call (error : option exn) : result unit :=
  match error with
  | None => Ok tt
  | Some e => Raise e
  end.

(** [while cond(s): s = body(s)] on fuel. *)
Fixpoint while_loop {S : Type} (fuel : nat) (cond : S -> bool) (body : S -> result S)
    (s : S) : result S :=
  if cond s then
    match fuel with
    | O => OutOfFuel
    | Datatypes.S fuel' => s' ← body s; while_loop fuel' cond body s'
    end
  else Ok s.

(** [for a in l: ...] whose body may [break] ([None]). *)
Fixpoint for_break {S A : Type} (body : A -> S -> option S) (l : list A) (s : S) : S :=
  match l with
  | [] => s
  | a :: l' =>
      match body a s with
      | Some s' => for_break body l' s'
      | None => s
      end
  end.

Module EnhancedMidiGenerator.

Import PrettyMidi.

Definition INSTRUMENT_MAP : gmap string Z :=
  <["rock" := 29]> (<["jazz" := 66]> (<["classical" := 40]> (<["pop" := 0]> ∅))).

Definition CHORD_PROGRESSION : list Z := [36; 43; 45; 41].

(** *** Track 1: melody *)

Record MelodyState : Type := {
  melody_notes : list Note;
  total_duration : Q;
  draws : nat;
}.

Definition melody_body (g : Rng) (seconds_per_beat : Q) (note : NoteDict)
    (st : MelodyState) : result MelodyState :=
  start ← dict_getitem note "start";
  end_ ← dict_getitem note "end";
  let start := py_float start in
  let end_ := py_float end_ in
  let base_velocity := 100 in
  let humanize := randint g (draws st) (-5) 6 in
  beats ← py_truediv start seconds_per_beat;
  let beat_pos := py_fmod beats 4 in
  let accent :=
    if Qltb (Qabs (beat_pos - 0)) 0.1 then 15
    else if Qltb (Qabs (beat_pos - 2)) 0.1 then 10
    else 0 in
  let final_velocity := Z.min 127 (Z.max 0 (base_velocity + humanize + accent)) in
  p ← dict_getitem note "pitch";
  let midi_note :=
    {| velocity := final_velocity; pitch := py_int p; start := start; end_ := end_ |} in
  Ok {| melody_notes := melody_notes st ++ [midi_note];
        total_duration := py_maxQ (total_duration st) end_;
        draws := Datatypes.S (draws st) |}.

(** *** Track 2: bass *)

Record BarState : Type := {
  bar_time : Q;
  bar_index : Z;
  bar_notes : list Note;
  bar_draws : nat;
}.

Definition bar_cond (total_duration : Q) (st : BarState) : bool :=
  Qltb (bar_time st) total_duration.

Definition bass_body (seconds_per_beat total_duration : Q) (st : BarState)
    : result BarState :=
  let current_time := bar_time st in
  let seconds_per_bar := (seconds_per_beat * 4)%Q in
  root_pitch ← py_getitem CHORD_PROGRESSION (Z.to_nat (bar_index st mod 4));
  let bass_note1 :=
    {| velocity := 90; pitch := root_pitch; start := current_time;
       end_ := (current_time + seconds_per_beat * 2)%Q |} in
  let third :=
    if Qltb (current_time + seconds_per_beat * 2) total_duration then
      [ {| velocity := 85; pitch := root_pitch;
           start := (current_time + seconds_per_beat * 2)%Q;
           end_ := (current_time + seconds_per_beat * 4)%Q |} ]
    else [] in
  Ok {| bar_time := (current_time + seconds_per_bar)%Q;
        bar_index := bar_index st + 1;
        bar_notes := bar_notes st ++ [bass_note1] ++ third;
        bar_draws := bar_draws st |}.

(** *** Track 3: drums *)

Definition hit (vel p : Z) (t len : Q) : Note :=
  {| velocity := vel; pitch := p; start := t; end_ := (t + len)%Q |}.

Definition fill_bar (g : Rng) (seconds_per_beat : Q) (current_time : Q) (c : nat)
    : list Note * nat :=
  let hats :=
    map (fun i : nat =>
           let hat_time := (current_time + inject_Z (Z.of_nat i) * (seconds_per_beat / 2))%Q in
           hit (randint g (c + i) 60 90) 42 hat_time 0.1)
        (seq 0 6) in
  let fill_start := (current_time + seconds_per_beat * 3)%Q in
  (hats ++
   [ hit 100 36 current_time 0.1;
     hit 95 38 (current_time + seconds_per_beat) 0.1;
     hit 90 36 (current_time + seconds_per_beat * 2) 0.1;
     hit 110 38 fill_start 0.1;
     hit 100 50 (fill_start + seconds_per_beat * 0.25) 0.1;
     hit 110 47 (fill_start + seconds_per_beat * 0.5) 0.1;
     hit 120 43 (fill_start + seconds_per_beat * 0.75) 0.1 ],
   (c + 6)%nat).

Definition groove_hat (g : Rng) (seconds_per_beat total_duration current_time : Q)
    (i : nat) (st : list Note * nat) : option (list Note * nat) :=
  let hat_time := (current_time + inject_Z (Z.of_nat i) * (seconds_per_beat / 2))%Q in
  if Qle_bool total_duration hat_time then None
  else
    let base_vel := if (i mod 2 =? 0)%nat then 85 else 60 in
    let vel := base_vel + randint g (snd st) (-10) 10 in
    Some (fst st ++ [hit (Z.max 1 (Z.min 127 vel)) 42 hat_time 0.1], Datatypes.S (snd st)).

Definition groove_kick (seconds_per_beat total_duration current_time : Q)
    (kt : Q) (st : list Note * nat) : option (list Note * nat) :=
  let k_time := (current_time + kt * seconds_per_beat)%Q in
  if Qle_bool total_duration k_time then None
  else
    let vel := if Qeq_bool (py_fmod kt 1) 0 then 100 else 90 in
    Some (fst st ++ [hit vel 36 k_time 0.1], snd st).

Definition groove_snare (g : Rng) (seconds_per_beat total_duration current_time : Q)
    (s_t : Q) (st : list Note * nat) : option (list Note * nat) :=
  let s_time := (current_time + s_t * seconds_per_beat)%Q in
  if Qle_bool total_duration s_time then None
  else Some (fst st ++ [hit (95 + randint g (snd st) (-5) 5) 38 s_time 0.1],
             Datatypes.S (snd st)).

Definition groove_bar (g : Rng) (seconds_per_beat total_duration current_time : Q)
    (index : Z) (c : nat) : list Note * nat :=
  let st := for_break (groove_hat g seconds_per_beat total_duration current_time)
              (seq 0 8) ([], c) in
  let st := for_break (groove_kick seconds_per_beat total_duration current_time)
              [0; 2; 2.5]%Q st in
  let st := for_break (groove_snare g seconds_per_beat total_duration current_time)
              [1; 3]%Q st in
  if index mod 2 =? 1 then
    let ghost_time := (current_time + 3.75 * seconds_per_beat)%Q in
    if Qltb ghost_time total_duration
    then (fst st ++ [hit 50 38 ghost_time 0.05], snd st)
    else st
  else st.

Definition drum_body (g : Rng) (seconds_per_beat total_duration : Q) (st : BarState)
    : result BarState :=
  let current_time := bar_time st in
  let seconds_per_bar := (seconds_per_beat * 4)%Q in
  let is_fill_bar := (bar_index st + 1) mod 4 =? 0 in
  let '(hits, c) :=
    if is_fill_bar then fill_bar g seconds_per_beat current_time (bar_draws st)
    else groove_bar g seconds_per_beat total_duration current_time (bar_index st)
           (bar_draws st) in
  Ok {| bar_time := (current_time + seconds_per_bar)%Q;
        bar_index := bar_index st + 1;
        bar_notes := bar_notes st ++ hits;
        bar_draws := c |}.

(** Bars a cursor advancing by [seconds_per_bar] from 0 takes to reach
    [total_duration]: the fuel of the two [while] loops. *)
Definition bars_until (total_duration seconds_per_bar : Q) : nat :=
  Z.to_nat (Qceiling (total_duration / seconds_per_bar)).

(** The body of the [try] block up to the serialisation: the score. *)
Definition compose (env : MidiEnv) (g : Rng) (c0 : nat) (notes : list NoteDict)
    (tempo : Z) (genre : string) : result PrettyMIDI :=
  _ ← library_call (import_error env);
  _ ← library_call (score_error env tempo);
  let time_scale := (120 / inject_Z (Z.max tempo 1))%Q in
  let base_seconds_per_beat := 0.5%Q in
  let seconds_per_beat := (base_seconds_per_beat * time_scale)%Q in
  (* Track 1: Melody *)
  let program := dict_get INSTRUMENT_MAP (py_lower genre) 0 in
  mel ← for_each (melody_body g seconds_per_beat) notes
          {| melody_notes := []; total_duration := 0; draws := c0 |};
  let melody_inst :=
    {| program := program; is_drum := false; name := "Melody";
       notes := melody_notes mel |} in
  let total := total_duration mel in
  (* Track 2: Bass *)
  let seconds_per_bar := (seconds_per_beat * 4)%Q in
  let fuel := bars_until total seconds_per_bar in
  bass ← while_loop fuel (bar_cond total) (bass_body seconds_per_beat total)
           {| bar_time := 0; bar_index := 0; bar_notes := []; bar_draws := draws mel |};
  let bass_inst :=
    {| program := 33; is_drum := false; name := "Bass"; notes := bar_notes bass |} in
  (* Track 3: Drums *)
  drums ← while_loop fuel (bar_cond total) (drum_body g seconds_per_beat total)
            {| bar_time := 0; bar_index := 0; bar_notes := []; bar_draws := draws mel |};
  let drum_inst :=
    {| program := 0; is_drum := true; name := "Drums"; notes := bar_notes drums |} in
  Ok {| initial_tempo := tempo; instruments := [melody_inst; bass_inst; drum_inst] |}.

Definition notes_to_midi_base64 (env : MidiEnv) (g : Rng) (c0 : nat)
    (notes : list NoteDict) (tempo : Z) (genre : string) : result string :=
  try_except
    (pm ← compose env g c0 notes tempo genre;
     write_base64 env pm)
    (fun e => Ok EmptyString).

End EnhancedMidiGenerator.

(* ===================================================================== *)
(** * MelodyServiceV2: [generate_melody]                                  *)
(* ===================================================================== *)

Definition create_audio (env : MidiEnv) (g : Rng) (c0 : nat) (notes : list NoteDict)
    (tempo : Z) (genre : string) : result string :=
  try_except
    (midi_base64 ← EnhancedMidiGenerator.notes_to_midi_base64 env g c0 notes tempo genre;
     if String.eqb midi_base64 EmptyString then Ok EmptyString
     else Ok ("data:audio/midi;base64," ++ midi_base64)%string)
    (fun e => Ok EmptyString).

(** The dictionary [generate_melody] returns. *)
Record Response : Type := {
  audio_url : string;
  resp_notes : list NoteDict;
  resp_tempo : Z;
  resp_genre : string;
  resp_bars : Z;
}.

Definition generate_melody (self : MelodyServiceV2) (env : MidiEnv) (g : Rng)
    (tempo : Z) (genre : string) (bars : Z) (temp : Q) : result Response :=
  (* Estimate number of notes *)
  let num_notes := py_int (PyFloat (inject_Z (bars * 4) * 1.5)) in
  (* 1. Generate intelligent seed *)
  seed ← SeedGenerator.generate_smart_seed genre SEQ_LENGTH
           (vocab_size self) (max_step self) (max_duration self);
  (* 2. Generate notes *)
  '(notes, c) ←
     match model self with
     | Some m =>
         try_except
           (notes ← generate_with_constraints self m num_notes seed tempo genre temp;
            Ok (notes, O))
           (fun e =>
              let st := demo_loop g 0 num_notes tempo genre in
              Ok (dm_notes st, dm_draws st))
     | None =>
         let st := demo_loop g 0 num_notes tempo genre in
         Ok (dm_notes st, dm_draws st)
     end;
  (* 3. Generate MIDI audio *)
  url ← create_audio env g c notes tempo genre;
  Ok {| audio_url := url; resp_notes := notes; resp_tempo := tempo;
        resp_genre := genre; resp_bars := bars |}.

Definition default_service (m : option Model) : MelodyServiceV2 :=
  {| model := m; max_step := 1; max_duration := 1; vocab_size := 128 |}.

Definition stub_model : Model := fun _ _ _ => Ok (64, 0.5%Q, 0.4%Q).

Definition rng0 : Rng := {| rand_int := fun c => Z.of_nat c; rand_unit := fun _ => 0.5%Q |}.

Definition env0 : MidiEnv :=
  {| import_error := None; score_error := fun _ => None;
     write_base64 := fun _ => Ok "TVRoZA"%string |}.

(* ===================================================================== *)
(** * Predicates used in the statements                                   *)
(* ===================================================================== *)

(** The scale member [constrain_to_scale] picks for an out-of-scale
    pitch class: the lines computing [nearest_note]. *)
Definition nearest_note (note : Z) (scale : list Z) : result Z :=
  let distances := map (fun s => Z.abs (note - s)) scale in
  min_distance ← py_min distances;
  idx ← py_index min_distance distances;
  py_getitem scale idx.

(** Checks of [constrain_to_scale] at one pitch, as booleans. *)
Definition snaps_into_scale (scale : list Z) (p : Z) : bool :=
  match MusicTheory.constrain_to_scale p scale with
  | Ok r =>
      py_in (r mod 12) scale && (0 <=? r) && (r <=? 127) &&
      match MusicTheory.constrain_to_scale r scale with
      | Ok r' => r' =? r
      | _ => false
      end
  | _ => false
  end.

Definition top_octave_ok (scale : list Z) (p : Z) : bool :=
  py_in (p mod 12) scale ||
  match nearest_note (p mod 12) scale with
  | Ok n => py_in n scale && (n <=? 7) && (p / 12 * 12 + n <=? 127)
  | _ => false
  end.

(** A float-valued entry of a note dictionary. *)
Definition float_field (key : string) (n : NoteDict) (q : Q) : Prop :=
  n !! key = Some (PyFloat q).

(** The note ends no earlier than it starts. *)
Definition ends_after_start (n : NoteDict) : Prop :=
  exists s e, float_field "start" n s /\ float_field "end" n e /\ (s <= e)%Q.

(** [a] starts no later than [b]. *)
Definition starts_before (a b : NoteDict) : Prop :=
  exists sa sb, float_field "start" a sa /\ float_field "start" b sb /\ (sa <= sb)%Q.

(** Same pitch, and every time of [n2] is half that of [n1]. *)
Definition halved_note (n1 n2 : NoteDict) : Prop :=
  n1 !! "pitch" = n2 !! "pitch" /\
  forall key : string, key ∈ ["start"; "end"; "step"; "duration"]%string ->
    exists q1 q2, float_field key n1 q1 /\ float_field key n2 q2 /\ (q2 == q1 / 2)%Q.

Definition halved_notes (r1 r2 : result (list NoteDict)) : Prop :=
  match r1, r2 with
  | Ok l1, Ok l2 => Forall2 halved_note l1 l2
  | Raise e1, Raise e2 => e1 = e2
  | OutOfFuel, OutOfFuel => True
  | _, _ => False
  end.

(** The window passed to the model at call [k] of a run, and what
    [predict_next_note] answers there. *)
Definition window_fed (self : MelodyServiceV2) (m : Model) (seed : list NormalizedNote)
    (tempo : Z) (genre : string) (temp : Q) (k : nat) : result (list NormalizedNote) :=
  scale ← MusicTheory.get_scale_for_genre genre;
  st ← loop_state self m scale tempo seed temp k;
  Ok (input_notes st).

Definition prediction_at (self : MelodyServiceV2) (m : Model) (seed : list NormalizedNote)
    (tempo : Z) (genre : string) (temp : Q) (k : nat) : result (Z * Q * Q) :=
  scale ← MusicTheory.get_scale_for_genre genre;
  st ← loop_state self m scale tempo seed temp k;
  predict_next_note k (input_notes st) m (temperature st).

(** The tempo-scaling property at one tempo: two runs whose calls to
    [predict_next_note] return the same, one at [tempo] and one at twice
    that, feed the same windows to the model, and the second emits every
    note with halved times. *)
Definition doubling_tempo_halves_times (self : MelodyServiceV2) (m1 m2 : Model)
    (total_notes : Z) (seed : list NormalizedNote) (tempo : Z) (genre : string)
    (temp : Q) : Prop :=
  (forall k : nat, (k < Z.to_nat total_notes)%nat ->
     prediction_at self m1 seed tempo genre temp k =
     prediction_at self m2 seed (2 * tempo) genre temp k) ->
  (forall k : nat, (k <= Z.to_nat total_notes)%nat ->
     window_fed self m1 seed tempo genre temp k =
     window_fed self m2 seed (2 * tempo) genre temp k) /\
  halved_notes
    (generate_with_constraints self m1 total_notes seed tempo genre temp)
    (generate_with_constraints self m2 total_notes seed (2 * tempo) genre temp).

(** The normalisation constants are usable as divisors. *)
Definition normalisable (self : MelodyServiceV2) : Prop :=
  ~ (vocab_size self == 0)%Q /\ ~ (max_step self == 0)%Q /\ ~ (max_duration self == 0)%Q.

(** The model answers every call. *)
Definition always_predicts (m : Model) : Prop :=
  forall k notes temp, exists out, m k notes temp = Ok out.

(** The seed window of the "pop" genre under the default constants. *)
Definition pop_seed : list NormalizedNote :=
  match SeedGenerator.generate_smart_seed "pop" SEQ_LENGTH 128 1 1 with
  | Ok seed => seed
  | _ => []
  end.

(** Two loop states of runs at a tempo and at twice that tempo: the same
    window and temperature, the cursor and the notes' times halved. *)
Record halved_state (st1 st2 : LoopState) : Prop := {
  hs_input : input_notes st1 = input_notes st2;
  hs_temperature : temperature st1 = temperature st2;
  hs_cursor : (prev_start st2 == prev_start st1 / 2)%Q;
  hs_notes : Forall2 halved_note (generated_notes st1) (generated_notes st2);
}.

Definition halved_states (r1 r2 : result LoopState) : Prop :=
  match r1, r2 with
  | Ok st1, Ok st2 => halved_state st1 st2
  | Raise e1, Raise e2 => e1 = e2
  | OutOfFuel, OutOfFuel => True
  | _, _ => False
  end.

(** A note of the demo generator's shape: the four keys pitch, step,
    duration and start_time. *)
Definition is_demo_note (n : NoteDict) : Prop :=
  exists p s d t, n = demo_note p s d t.

(** A model that answers twice and then fails. *)
Definition failing_model : Model :=
  fun k _ _ =>
    if (k <? 2)%nat then Ok (64, 0.5%Q, 0.4%Q)
    else Raise (RuntimeError "inference failed").

(** A note the melody track can be built from. *)
Definition playable_note (n : NoteDict) : Prop :=
  is_Some (n !! "start"%string) /\ is_Some (n !! "end"%string) /\
  is_Some (n !! "pitch"%string).

(** The bass notes of bar [k] as the arranger is described: the chord root
    of the bar ([CHORD_PROGRESSION] cycled by the bar index modulo 4) held
    for the first two beats at velocity 90, and the same pitch on beats 3-4
    at velocity 85 when that second note starts before the melody's total
    duration. *)
Definition bass_bar (seconds_per_beat total : Q) (k : nat) : list PrettyMidi.Note :=
  let bar_start := (inject_Z (Z.of_nat k) * (seconds_per_beat * 4))%Q in
  let root := nth (k mod 4) EnhancedMidiGenerator.CHORD_PROGRESSION 0 in
  {| PrettyMidi.velocity := 90; PrettyMidi.pitch := root;
     PrettyMidi.start := bar_start;
     PrettyMidi.end_ := (bar_start + seconds_per_beat * 2)%Q |} ::
  (if Qltb (bar_start + seconds_per_beat * 2) total then
     [ {| PrettyMidi.velocity := 85; PrettyMidi.pitch := root;
          PrettyMidi.start := (bar_start + seconds_per_beat * 2)%Q;
          PrettyMidi.end_ := (bar_start + seconds_per_beat * 4)%Q |} ]
   else []).

(** Equal notes, times compared as rationals. *)
Definition same_note (a b : PrettyMidi.Note) : Prop :=
  PrettyMidi.velocity a = PrettyMidi.velocity b /\
  PrettyMidi.pitch a = PrettyMidi.pitch b /\
  (PrettyMidi.start a == PrettyMidi.start b)%Q /\
  (PrettyMidi.end_ a == PrettyMidi.end_ b)%Q.

(** What holds of the bass loop's variables on entering bar [k]. *)
Definition bass_at (seconds_per_beat total : Q) (k : nat)
    (st : EnhancedMidiGenerator.BarState) : Prop :=
  (EnhancedMidiGenerator.bar_time st
     == inject_Z (Z.of_nat k) * (seconds_per_beat * 4))%Q /\
  EnhancedMidiGenerator.bar_index st = Z.of_nat k /\
  Forall2 same_note (EnhancedMidiGenerator.bar_notes st)
    (flat_map (bass_bar seconds_per_beat total) (seq 0 k)).

(** The melody's total duration: the largest [end] of its notes, from 0. *)
Definition melody_total (notes : list PrettyMidi.Note) : Q :=
  fold_left (fun t n => py_maxQ t (PrettyMidi.end_ n)) notes 0%Q.

(** The beat length [notes_to_midi_base64] derives from the tempo. *)
Definition seconds_per_beat_at (tempo : Z) : Q :=
  (0.5 * (120 / inject_Z (Z.max tempo 1)))%Q.

(** What the generation loop maintains: notes that end after they start,
    in non-decreasing order of start, none starting after the running
    cursor [prev_start]. *)
Record loop_invariant (st : LoopState) : Prop := {
  inv_ends : Forall ends_after_start (generated_notes st);
  inv_sorted : StronglySorted starts_before (generated_notes st);
  inv_cursor :
    Forall (fun n => exists s, float_field "start" n s /\ (s <= prev_start st)%Q)
           (generated_notes st);
}.

Ltac pick_scale :=
  first [ by exists "major"%string, MusicTheory.major
        | by exists "pentatonic"%string, MusicTheory.pentatonic
        | by exists "blues"%string, MusicTheory.blues ].

(** Linear arithmetic on rationals with halves written [_ / 2]. *)
Ltac lra_half :=
  unfold Qdiv in *; change (/ 2)%Q with (1 # 2)%Q in *; lra.

(** Inversion of a successful monadic step. *)
Ltac bind_ok H :=
  match type of H with
  | (mbind _ ?r = Ok _) =>
      let E := fresh "E" in
      destruct r eqn:E; simpl in H; [| discriminate H | discriminate H]
  end.

(* ===================================================================== *)
(** * Further predicates                                                  *)
(* ===================================================================== *)

(** The constrained pitch lies in the octave of [p], at most two semitones
    from it. *)
Definition stays_close (scale : list Z) (p : Z) : bool :=
  match MusicTheory.constrain_to_scale p scale with
  | Ok r => (r / 12 =? p / 12) && (Z.abs (r - p) <=? 2)
  | _ => false
  end.

(** Row [i] of a seed window: padding below 15, then the ascending
    motif, normalised. *)
Definition seed_entry (start_pitch : Z) (vocab_size max_step max_duration : Q)
    (i : nat) : NormalizedNote :=
  if (i <? 15)%nat then (0, 0, 0)%Q
  else ((inject_Z (start_pitch + Z.of_nat (i - 15) mod 5) / vocab_size)%Q,
        (0.5 / max_step)%Q, (0.4 / max_duration)%Q).

(** The temperature toggle of the loop, and the temperature it leaves
    for call [k]: one toggle after each iteration 16, 32, ... *)
Definition toggle_temperature (t : Q) : Q := (if Qltb 1 t then 0.9 else 1.2)%Q.

Definition temperature_at (temp : Q) (k : nat) : Q :=
  Nat.iter ((k - 1) / 16) toggle_temperature temp.

(** A generated note: pitch in the MIDI range and in the scale, step and
    duration whole numbers of grid units scaled by the tempo, and
    [end = start + duration]. *)
Definition well_formed_note (scale : list Z) (tempo : Z) (n : NoteDict) : Prop :=
  exists (p : Z) (start step duration : Q) (ks kd : Z),
    n = note_data p start (start + duration) step duration /\
    0 <= p <= 127 /\ p mod 12 ∈ scale /\
    1 <= ks /\ (step == inject_Z ks * 0.125 * tempo_scale tempo)%Q /\
    1 <= kd /\ (duration == inject_Z kd * 0.125 * tempo_scale tempo)%Q.

(** [chained t notes t']: starting from the cursor [t], every note starts
    exactly its own step after the previous start; [t'] is the last
    start. *)
Inductive chained : Q -> list NoteDict -> Q -> Prop :=
  | chained_nil (t : Q) : chained t [] t
  | chained_cons (t : Q) (p : Z) (e step d : Q) (rest : list NoteDict) (t' : Q) :
      (0 < step)%Q ->
      chained (t + step) rest t' ->
      chained t (note_data p (t + step) e step d :: rest) t'.

(* ===================================================================== *)
(** * The training loss                                                   *)
(* ===================================================================== *)

(** [tf.reduce_mean] of a tensor, given by the list of its entries. *)
Definition reduce_mean (l : list Q) : Q :=
  (fold_right Qplus 0 l / inject_Z (Z.of_nat (length l)))%Q.

(** [tf.maximum(a, b)] at one entry. *)
Definition tf_maximum (a b : Q) : Q := if Qltb a b then b else a.

(** The first term of the loss: [tf.reduce_mean(tf.square(y_true - y_pred))]. *)
Definition mean_squared_error (y_true y_pred : list Q) : Q :=
  reduce_mean (map (fun d => d * d)%Q (zip_with Qminus y_true y_pred)).

(** [mse_with_positive_pressure(y_true, y_pred)] on two tensors of the same
    shape, each given by the list of its entries. *)
Definition mse_with_positive_pressure (y_true y_pred : list Q) : Q :=
  let mse := mean_squared_error y_true y_pred in
  let positive_pressure :=
    reduce_mean (map (fun p => tf_maximum (- p) 0 * 10)%Q y_pred) in
  (mse + positive_pressure)%Q.

(* ===================================================================== *)
(** * [backend/main.py]: the melody endpoint                              *)
(* ===================================================================== *)

Module Main.

(** [MelodyRequest]. *)
Record MelodyRequest : Type := {
  tempo : Z;
  genre : string;
  bars : Z;
}.

(** The bounds the request model declares ([ge], [le]); a request that
    breaks them is refused before the endpoint runs. *)
Definition validated (request : MelodyRequest) : Prop :=
  60 <= tempo request <= 200 /\ 4 <= bars request <= 32.

(** [HTTPException(status_code, detail)]; the detail is given by the
    exception whose text it quotes. *)
Record HTTPException : Type := {
  status_code : Z;
  detail : exn;
}.

(** Outcome of an endpoint. *)
Inductive response (A : Type) : Type :=
  | Returns (a : A)
  | Fails (e : HTTPException)
  | Hangs.

Arguments Returns {A} a.
Arguments Fails {A} e.
Arguments Hangs {A}.

(** [generate_melody(request)]: the service, imported when the application
    started, is called with its default temperature; any exception becomes
    an [HTTPException] of status 500. *)
Definition generate_melody (melody_service : MelodyServiceV2) (env : MidiEnv) (g : Rng)
    (request : MelodyRequest) : response Response :=
  match generate_melody melody_service env g
          (tempo request) (genre request) (bars request) 1.1 with
  | Ok result => Returns result
  | Raise e => Fails {| status_code := 500; detail := e |}
  | OutOfFuel => Hangs
  end.

End Main.

(* ===================================================================== *)
(** * Further predicates: the demo generator, the tracks, the service     *)
(* ===================================================================== *)

(** The pitch stored in a note dictionary. *)
Definition note_pitch (n : NoteDict) : Z :=
  match n !! "pitch"%string with
  | Some v => py_int v
  | None => 0
  end.

(** Every pitch is at most five semitones from the one before it, the
    first from [prev]. *)
Fixpoint small_leaps (prev : Z) (pitches : list Z) : Prop :=
  match pitches with
  | [] => True
  | p :: rest => Z.abs (p - prev) <= 5 /\ small_leaps p rest
  end.

(** The genre's entry of the demo generator's table, "pop" by default. *)
Definition demo_config (genre : string) : DemoConfig :=
  dict_get genre_configs (py_lower genre) pop_config.

(** [scale[len(scale) // 2]]. *)
Definition middle_pitch (config : DemoConfig) : Z :=
  nth (length (cfg_scale config) / 2) (cfg_scale config) 0.

(** What the demo loop maintains. *)
Record demo_invariant (config : DemoConfig) (c0 : nat) (st : DemoState) : Prop := {
  di_prev : prev_pitch st ∈ cfg_scale config;
  di_last : List.last (map note_pitch (dm_notes st)) (middle_pitch config) = prev_pitch st;
  di_scale : Forall (fun p => p ∈ cfg_scale config) (map note_pitch (dm_notes st));
  di_leaps : small_leaps (middle_pitch config) (map note_pitch (dm_notes st));
  di_draws : dm_draws st = (c0 + 3 * length (dm_notes st))%nat;
}.

(** The cursor of the demo loop before each note, with the note's step:
    the times before rounding. *)
Fixpoint timeline (t : Q) (steps : list Q) : list (Q * Q) :=
  match steps with
  | [] => []
  | s :: rest => (t, s) :: timeline (t + s) rest
  end.

(** A demo note built at cursor [ts.1] with the step [ts.2]. *)
Definition demo_note_at (n : NoteDict) (ts : Q * Q) : Prop :=
  exists p d, n = demo_note p ts.2 d ts.1.

(** The MIDI note of the melody track built from a note dictionary: pitch
    and times copied, velocity between 95 and 120. *)
Definition mirrors (n : NoteDict) (m : PrettyMidi.Note) : Prop :=
  exists s e p,
    n !! "start"%string = Some s /\ n !! "end"%string = Some e /\
    n !! "pitch"%string = Some p /\
    PrettyMidi.start m = py_float s /\ PrettyMidi.end_ m = py_float e /\
    PrettyMidi.pitch m = py_int p /\
    95 <= PrettyMidi.velocity m <= 120.

(** The data URL [_create_audio] wraps a base64 text in; the empty text
    stays empty. *)
Definition data_url (midi_base64 : string) : string :=
  if String.eqb midi_base64 EmptyString then EmptyString
  else ("data:audio/midi;base64," ++ midi_base64)%string.

(** A hit of the drum track: one of the six percussion keys the arranger
    uses (kick 36, snare 38, closed hi-hat 42, toms 43, 47, 50), a velocity
    between 50 and 120, a start at or after time 0 and a length of 0.1 or
    0.05 seconds. *)
Definition drum_hit (h : PrettyMidi.Note) : Prop :=
  PrettyMidi.pitch h ∈ [36; 38; 42; 43; 47; 50] /\
  50 <= PrettyMidi.velocity h <= 120 /\
  (0 <= PrettyMidi.start h)%Q /\
  ((PrettyMidi.end_ h == PrettyMidi.start h + 0.1)%Q \/
   (PrettyMidi.end_ h == PrettyMidi.start h + 0.05)%Q).

(** What each guarded append of a groove bar keeps: every hit starts
    before the end of the melody. *)
Definition groove_hits_before (total : Q) (st : list PrettyMidi.Note * nat) : Prop :=
  Forall (fun h => (PrettyMidi.start h < total)%Q) (fst st).

(** The model call returns or raises: it does not run forever. *)
Definition model_returns (m : Model) : Prop :=
  forall k notes temp, m k notes temp <> OutOfFuel.

(** The serialisation of a score returns or raises. *)
Definition write_returns (env : MidiEnv) : Prop :=
  forall pm, write_base64 env pm <> OutOfFuel.

(** A service whose step constant is zero. *)
Definition zero_step_service : MelodyServiceV2 :=
  {| model := None; max_step := 0; max_duration := 1; vocab_size := 128 |}.

(** Three notes as the generation loop emits them. *)
Definition three_notes : list NoteDict :=
  [note_data 64 0.5 0.875 0.5 0.375; note_data 64 1 1.375 0.5 0.375;
   note_data 67 2.5 3.25 1.5 0.75].

(** Membership in a list given by its elements. *)
Ltac in_list := apply list_elem_of_In; simpl; tauto.

(* ===================================================================== *)
(** * The embedding on concrete inputs                                    *)
(* ===================================================================== *)

Example py_round_ties_to_even :
  map py_round [0.5; 1.5; 2.5; -0.5; -1.5; 3.2; -3.7]%Q = [0; 2; 2; 0; -2; 3; -4].
Proof. reflexivity. Qed.

Example constrain_to_scale_samples :
  MusicTheory.constrain_to_scale 61 MusicTheory.major = Ok 60 /\
  MusicTheory.constrain_to_scale 64 MusicTheory.major = Ok 64 /\
  MusicTheory.constrain_to_scale 126 MusicTheory.pentatonic = Ok 127 /\
  MusicTheory.constrain_to_scale 124 MusicTheory.blues = Ok 123 /\
  MusicTheory.constrain_to_scale 128 MusicTheory.minor = Ok 60 /\
  MusicTheory.constrain_to_scale (-1) MusicTheory.minor = Ok 60.
Proof. by repeat split. Qed.

Example quantize_duration_samples :
  MusicTheory.quantize_duration 0.05 0.125 = Ok 0%Q /\
  MusicTheory.quantize_duration 0.06 0.125 = Ok 0.125%Q /\
  MusicTheory.quantize_duration 0.4 0.125 = Ok (3 * 0.125)%Q /\
  MusicTheory.quantize_duration 1 0 = Raise ZeroDivisionError.
Proof. by repeat split. Qed.

Example get_scale_for_genre_samples :
  MusicTheory.get_scale_for_genre "Rock" = Ok MusicTheory.pentatonic /\
  MusicTheory.get_scale_for_genre "JAZZ" = Ok MusicTheory.blues /\
  MusicTheory.get_scale_for_genre "folk" = Ok MusicTheory.major.
Proof. by repeat split. Qed.

Example tempo_scale_samples :
  (tempo_scale 120 == 1)%Q /\ (tempo_scale 240 == 0.5)%Q /\
  (tempo_scale 0 == 120)%Q /\ (tempo_scale (-60) == 120)%Q.
Proof. by repeat split. Qed.

(* ===================================================================== *)
(** * Properties of the built-ins                                         *)
(* ===================================================================== *)

Lemma py_in_spec (x : Z) (l : list Z) : py_in x l = true <-> x ∈ l.
Proof.
  unfold py_in. rewrite existsb_exists. split.
  - intros (y & Hy & Heq). apply Z.eqb_eq in Heq. subst y.
    by apply list_elem_of_In.
  - intros Hx. exists x. split; [by apply list_elem_of_In | apply Z.eqb_refl].
Qed.

Lemma forallb_pitch_range (f : Z -> bool) (n : nat) :
  forallb f (map Z.of_nat (seq 0 n)) = true ->
  forall p, 0 <= p < Z.of_nat n -> f p = true.
Proof.
  intros Hall p Hp. rewrite forallb_forall in Hall. apply Hall.
  apply in_map_iff. exists (Z.to_nat p). split; [lia |].
  apply in_seq. lia.
Qed.

(** The four entries of [SCALES]. *)
Lemma SCALES_inv (name : string) (S : list Z) :
  MusicTheory.SCALES !! name = Some S ->
  S = MusicTheory.major \/ S = MusicTheory.minor \/
  S = MusicTheory.pentatonic \/ S = MusicTheory.blues.
Proof.
  unfold MusicTheory.SCALES. intros H.
  repeat (rewrite lookup_insert in H; case_decide; [naive_solver |]).
  by rewrite lookup_empty in H.
Qed.

Lemma constrain_out_of_range (p : Z) (S : list Z) :
  p < 0 \/ p > 127 -> MusicTheory.constrain_to_scale p S = Ok 60.
Proof.
  intros Hp. unfold MusicTheory.constrain_to_scale.
  replace ((p <? 0) || (p >? 127)) with true; [done |].
  symmetry. apply orb_true_iff. destruct Hp; [left | right]; lia.
Qed.

Lemma constrain_in_scale (p : Z) (S : list Z) :
  0 <= p <= 127 -> p mod 12 ∈ S -> MusicTheory.constrain_to_scale p S = Ok p.
Proof.
  intros Hp Hin. unfold MusicTheory.constrain_to_scale.
  replace ((p <? 0) || (p >? 127)) with false
    by (symmetry; apply orb_false_iff; lia).
  apply py_in_spec in Hin. by rewrite Hin.
Qed.

Lemma constrain_out_of_scale (p : Z) (S : list Z) :
  0 <= p <= 127 -> p mod 12 ∉ S ->
  MusicTheory.constrain_to_scale p S =
  (n ← nearest_note (p mod 12) S; Ok (p / 12 * 12 + n)).
Proof.
  intros Hp Hin. unfold MusicTheory.constrain_to_scale, nearest_note.
  replace ((p <? 0) || (p >? 127)) with false
    by (symmetry; apply orb_false_iff; lia).
  destruct (py_in (p mod 12) S) eqn:E; [by apply py_in_spec in E |].
  destruct (py_min _) as [m| |]; simpl; [| done | done].
  destruct (py_index _ _) as [i| |]; simpl; [| done | done].
  destruct (py_getitem _ _) as [n| |]; simpl; [| done | done].
  by destruct (_ && _).
Qed.

Lemma snaps_into_scale_all (name : string) (S : list Z) (p : Z) :
  MusicTheory.SCALES !! name = Some S -> snaps_into_scale S p = true.
Proof.
  intros HS.
  assert (Hin : forall q, 0 <= q < Z.of_nat 128 -> snaps_into_scale S q = true).
  { apply forallb_pitch_range.
    destruct (SCALES_inv _ _ HS) as [-> | [-> | [-> | ->]]]; by vm_compute. }
  destruct (decide (0 <= p <= 127)) as [Hp | Hp]; [apply Hin; lia |].
  unfold snaps_into_scale.
  rewrite constrain_out_of_range by lia.
  specialize (Hin 60 ltac:(lia)). unfold snaps_into_scale in Hin.
  rewrite (constrain_in_scale 60 S) in Hin; [done | lia |].
  destruct (SCALES_inv _ _ HS) as [-> | [-> | [-> | ->]]];
    apply py_in_spec; by vm_compute.
Qed.

(** C3.  For every integer pitch [p] and each of the four scales [S] of
    [SCALES], [constrain_to_scale p S] returns a pitch whose class modulo 12
    is a member of [S], and constraining that pitch again returns it
    unchanged.  Pitches below 0 or above 127 are included: they map to 60. *)
Theorem constrain_to_scale_in_scale_idempotent (name : string) (S : list Z) (p : Z) :
  MusicTheory.SCALES !! name = Some S ->
  exists r,
    MusicTheory.constrain_to_scale p S = Ok r /\
    r mod 12 ∈ S /\
    MusicTheory.constrain_to_scale r S = Ok r /\
    ((p < 0 \/ p > 127) -> r = 60).
Proof.
  intros HS. pose proof (snaps_into_scale_all name S p HS) as H.
  unfold snaps_into_scale in H.
  destruct (MusicTheory.constrain_to_scale p S) as [r| |] eqn:E; [| done | done].
  exists r. apply andb_true_iff in H as [H Hidem].
  apply andb_true_iff in H as [H _]. apply andb_true_iff in H as [Hmem _].
  split; [done |]. split; [by apply py_in_spec |]. split.
  - destruct (MusicTheory.constrain_to_scale r S) as [r'| |]; [| done | done].
    apply Z.eqb_eq in Hidem. by subst.
  - intros Hp. rewrite constrain_out_of_range in E by done. by inversion E.
Qed.

Lemma constrain_to_scale_in_scale_idempotent_witness :
  exists r,
    MusicTheory.constrain_to_scale 126 MusicTheory.blues = Ok r /\
    r mod 12 ∈ MusicTheory.blues /\
    MusicTheory.constrain_to_scale r MusicTheory.blues = Ok r /\
    ((126 < 0 \/ 126 > 127) -> r = 60).
Proof.
  apply (constrain_to_scale_in_scale_idempotent "blues" MusicTheory.blues 126).
  reflexivity.
Defined.

Lemma top_octave_all (name : string) (S : list Z) (p : Z) :
  MusicTheory.SCALES !! name = Some S -> 120 <= p <= 127 -> top_octave_ok S p = true.
Proof.
  intros HS Hp.
  assert (H : (p <? 120) || top_octave_ok S p = true).
  { revert p Hp.
    assert (Hall : forall q, 0 <= q < Z.of_nat 128 ->
                     (fun q => (q <? 120) || top_octave_ok S q) q = true).
    { apply forallb_pitch_range.
      destruct (SCALES_inv _ _ HS) as [-> | [-> | [-> | ->]]]; by vm_compute. }
    intros p Hp. apply Hall. lia. }
  apply orb_true_iff in H as [H | H]; [lia | done].
Qed.

(** C9.  For every integer pitch and each of the four scales,
    [constrain_to_scale] returns a pitch in [0, 127]: out-of-range pitches
    map to 60, in-range pitches whose class is in the scale are returned
    unchanged, every scale contains pitch class 7, and for an out-of-scale
    pitch of the top octave (120..127, whose class is at most 7) the scale
    member picked is at most 7, so that [octave * 12 + nearest_note] is at
    most 127. *)
Theorem constrain_to_scale_stays_in_midi_range (name : string) (S : list Z) (p : Z) :
  MusicTheory.SCALES !! name = Some S ->
  (exists r, MusicTheory.constrain_to_scale p S = Ok r /\ 0 <= r <= 127) /\
  ((p < 0 \/ p > 127) -> MusicTheory.constrain_to_scale p S = Ok 60) /\
  (0 <= p <= 127 -> p mod 12 ∈ S -> MusicTheory.constrain_to_scale p S = Ok p) /\
  7 ∈ S /\
  (120 <= p <= 127 -> p mod 12 ∉ S ->
   p mod 12 <= 7 /\
   exists n, nearest_note (p mod 12) S = Ok n /\ n ∈ S /\ n <= 7 /\
             MusicTheory.constrain_to_scale p S = Ok (p / 12 * 12 + n) /\
             p / 12 * 12 + n <= 127).
Proof.
  intros HS. repeat split.
  - pose proof (snaps_into_scale_all name S p HS) as H.
    unfold snaps_into_scale in H.
    destruct (MusicTheory.constrain_to_scale p S) as [r| |]; [| done | done].
    exists r. split; [done |].
    apply andb_true_iff in H as [H _]. apply andb_true_iff in H as [H Hhi].
    apply andb_true_iff in H as [_ Hlo]. lia.
  - apply constrain_out_of_range.
  - apply constrain_in_scale.
  - destruct (SCALES_inv _ _ HS) as [-> | [-> | [-> | ->]]];
      apply py_in_spec; by vm_compute.
  - Z.to_euclidean_division_equations. lia.
  - pose proof (top_octave_all name S p HS H) as Hok.
    unfold top_octave_ok in Hok.
    apply orb_true_iff in Hok as [Hok | Hok]; [by apply py_in_spec in Hok |].
    destruct (nearest_note (p mod 12) S) as [n| |] eqn:E; [| done | done].
    apply andb_true_iff in Hok as [Hok Hsum]. apply andb_true_iff in Hok as [Hmem Hle].
    exists n. split; [done |]. split; [by apply py_in_spec |]. split; [lia |].
    split; [| lia].
    rewrite constrain_out_of_scale by (done || lia). by rewrite E.
Qed.

Lemma constrain_to_scale_stays_in_midi_range_witness :
  (exists r, MusicTheory.constrain_to_scale 126 MusicTheory.pentatonic = Ok r /\ 0 <= r <= 127) /\
  ((126 < 0 \/ 126 > 127) -> MusicTheory.constrain_to_scale 126 MusicTheory.pentatonic = Ok 60) /\
  (0 <= 126 <= 127 -> 126 mod 12 ∈ MusicTheory.pentatonic ->
   MusicTheory.constrain_to_scale 126 MusicTheory.pentatonic = Ok 126) /\
  7 ∈ MusicTheory.pentatonic /\
  (120 <= 126 <= 127 -> 126 mod 12 ∉ MusicTheory.pentatonic ->
   126 mod 12 <= 7 /\
   exists n, nearest_note (126 mod 12) MusicTheory.pentatonic = Ok n /\
             n ∈ MusicTheory.pentatonic /\ n <= 7 /\
             MusicTheory.constrain_to_scale 126 MusicTheory.pentatonic = Ok (126 / 12 * 12 + n) /\
             126 / 12 * 12 + n <= 127).
Proof.
  apply (constrain_to_scale_stays_in_midi_range "pentatonic" MusicTheory.pentatonic 126).
  reflexivity.
Defined.

(* ===================================================================== *)
(** * Rational comparisons                                                *)
(* ===================================================================== *)

Lemma Qltb_lt (a b : Q) : Qltb a b = true <-> (a < b)%Q.
Proof.
  unfold Qltb. rewrite negb_true_iff. split.
  - intros H. apply Qnot_le_lt. intros Hle.
    apply Qle_bool_iff in Hle. congruence.
  - intros H. destruct (Qle_bool b a) eqn:E; [| done].
    apply Qle_bool_iff in E. exfalso. by apply (Qlt_not_le a b).
Qed.

Lemma Qltb_ge (a b : Q) : Qltb a b = false <-> (b <= a)%Q.
Proof.
  unfold Qltb. rewrite negb_false_iff. apply Qle_bool_iff.
Qed.

Lemma py_truediv_ok (a b : Q) : ~ (b == 0)%Q -> py_truediv a b = Ok (a / b)%Q.
Proof.
  intros Hb. unfold py_truediv.
  destruct (Qeq_bool b 0) eqn:E; [| done].
  by apply Qeq_bool_iff in E.
Qed.

Lemma py_maxQ_ge_l (a b : Q) : (a <= py_maxQ a b)%Q.
Proof.
  unfold py_maxQ. destruct (Qltb a b) eqn:E.
  - apply Qltb_lt in E. by apply Qlt_le_weak.
  - apply Qle_refl.
Qed.

(* ===================================================================== *)
(** * RhythmQuantizer                                                     *)
(* ===================================================================== *)

(** C4.  On a non-zero grid [quantize_duration value grid] returns 0 or an
    exact multiple of the grid, returns 0 only when [value <= 0.05], and a
    value above 0.05 whose rounding gives 0 comes out as one grid unit.
    This holds for every [value], in particular for [value >= 0]. *)
Theorem quantize_duration_grid_multiple (value grid : Q) :
  ~ (grid == 0)%Q ->
  exists r,
    MusicTheory.quantize_duration value grid = Ok r /\
    ((r == 0)%Q \/ exists k : Z, (r == inject_Z k * grid)%Q) /\
    ((r == 0)%Q -> (value <= 0.05)%Q) /\
    ((0.05 < value)%Q -> py_round (value / grid) = 0 -> r = grid).
Proof.
  intros Hgrid. unfold MusicTheory.quantize_duration.
  destruct (Qle_bool value 0.05) eqn:Hsmall.
  - apply Qle_bool_iff in Hsmall. exists 0%Q.
    split; [done |]. split; [by left |]. split; [done |].
    intros Hlt. exfalso. by apply (Qlt_not_le _ _ Hlt).
  - assert (Hbig : (0.05 < value)%Q).
    { apply Qnot_le_lt. intros Hle. apply Qle_bool_iff in Hle. congruence. }
    rewrite py_truediv_ok by done. simpl.
    apply Qltb_lt in Hbig as Hbig'. rewrite Hbig', andb_true_r.
    destruct (Qeq_bool _ 0) eqn:Hz.
    + exists grid. split; [done |]. split.
      * right. exists 1. ring.
      * split; [intros H0; by destruct Hgrid | done].
    + exists (inject_Z (py_round (value / grid)) * grid)%Q.
      split; [done |]. split; [right; by eexists |]. split.
      * intros H0. apply Qeq_bool_neq in Hz. by destruct Hz.
      * intros _ Hr. rewrite Hr in Hz. by vm_compute in Hz.
Qed.

Lemma quantize_duration_grid_multiple_witness :
  exists r,
    MusicTheory.quantize_duration 0.4 0.125 = Ok r /\
    ((r == 0)%Q \/ exists k : Z, (r == inject_Z k * 0.125)%Q) /\
    ((r == 0)%Q -> (0.4 <= 0.05)%Q) /\
    ((0.05 < 0.4)%Q -> py_round (0.4 / 0.125) = 0 -> r = 0.125%Q).
Proof.
  apply (quantize_duration_grid_multiple 0.4 0.125). by vm_compute.
Defined.

(* ===================================================================== *)
(** * The generation loop                                                 *)
(* ===================================================================== *)

Lemma for_each_app {S A : Type} (body : A -> S -> result S) (l1 l2 : list A) (s : S) :
  for_each body (l1 ++ l2) s = (s' ← for_each body l1 s; for_each body l2 s').
Proof.
  revert s. induction l1 as [| a l1 IH]; intros s; simpl; [done |].
  destruct (body a s) as [s1| |]; simpl; [apply IH | done | done].
Qed.

Lemma loop_state_S self m scale tempo seed temp (k : nat) :
  loop_state self m scale tempo seed temp (S k) =
  (st ← loop_state self m scale tempo seed temp k; loop_body self m scale tempo k st).
Proof.
  unfold loop_state. rewrite seq_S, for_each_app. simpl.
  destruct (for_each _ _ _) as [st| |]; simpl; [| done | done].
  by destruct (loop_body _ _ _ _ _ _).
Qed.

Lemma get_scale_for_genre_ok (genre : string) :
  exists name S, MusicTheory.SCALES !! name = Some S /\
                 MusicTheory.get_scale_for_genre genre = Ok S.
Proof.
  unfold MusicTheory.get_scale_for_genre, dict_get, MusicTheory.GENRE_SCALE_MAP.
  generalize (py_lower genre). intros g.
  repeat (rewrite lookup_insert; case_decide; [pick_scale |]).
  rewrite lookup_empty. pick_scale.
Qed.

Lemma tempo_scale_pos (tempo : Z) : (0 < tempo_scale tempo)%Q.
Proof.
  unfold tempo_scale. apply Qlt_shift_div_l.
  - replace 0%Q with (inject_Z 0) by done. rewrite <- Zlt_Qlt. lia.
  - by rewrite Qmult_0_l.
Qed.

Lemma tempo_scale_double (tempo : Z) :
  1 <= tempo -> (tempo_scale (2 * tempo) == tempo_scale tempo / 2)%Q.
Proof.
  intros Ht. unfold tempo_scale.
  rewrite !Z.max_l by lia. rewrite inject_Z_mult.
  assert (~ (inject_Z tempo == 0)%Q).
  { replace 0%Q with (inject_Z 0) by done. rewrite inject_Z_injective. lia. }
  by field.
Qed.

Lemma note_data_lookup (p : Z) (s e st d : Q) :
  note_data p s e st d !! "pitch"%string = Some (PyInt p) /\
  float_field "start" (note_data p s e st d) s /\
  float_field "end" (note_data p s e st d) e /\
  float_field "step" (note_data p s e st d) st /\
  float_field "duration" (note_data p s e st d) d.
Proof. by repeat split. Qed.

Lemma StronglySorted_snoc {A : Type} (R : A -> A -> Prop) (l : list A) (x : A) :
  StronglySorted R l -> Forall (fun y => R y x) l -> StronglySorted R (l ++ [x]).
Proof.
  induction 1 as [| a l Hl IH Ha]; intros Hx; simpl.
  - by repeat constructor.
  - inversion Hx; subst. constructor; [by apply IH |].
    apply Forall_app. split; [done | by constructor].
Qed.

(** What one successful iteration does to the loop variables. *)
Lemma loop_body_Ok self m scale tempo (i : nat) (st st' : LoopState) :
  loop_body self m scale tempo i st = Ok st' ->
  exists (pitch : Z) (step duration : Q),
    (0.125 <= step)%Q /\ (0.125 <= duration)%Q /\
    prev_start st' = (prev_start st + step * tempo_scale tempo)%Q /\
    generated_notes st' =
      generated_notes st ++
      [note_data pitch (prev_start st')
         (prev_start st' + duration * tempo_scale tempo)
         (step * tempo_scale tempo) (duration * tempo_scale tempo)] /\
    ((0 < temperature st)%Q -> (0 < temperature st')%Q).
Proof.
  unfold loop_body. intros H.
  bind_ok H. destruct a as [[p s] d]. simpl in H.
  bind_ok H. bind_ok H. bind_ok H. bind_ok H. bind_ok H. bind_ok H.
  inversion H; subst; clear H. simpl.
  eexists _, _, _. split; [apply py_maxQ_ge_l |]. split; [apply py_maxQ_ge_l |].
  split; [done |]. split; [done |].
  intros Ht. destruct (_ && _); [| done]. by destruct (Qltb 1 _).
Qed.

Lemma loop_body_preserves self m scale tempo (i : nat) (st st' : LoopState) :
  loop_body self m scale tempo i st = Ok st' ->
  loop_invariant st -> loop_invariant st'.
Proof.
  intros H [He Hs Hc].
  destruct (loop_body_Ok _ _ _ _ _ _ _ H)
    as (p & step & dur & Hstep & Hdur & Hprev & Hnotes & Htemp).
  pose proof (tempo_scale_pos tempo) as Hts.
  assert (Hgap : (0 <= step * tempo_scale tempo)%Q).
  { apply Qmult_le_0_compat; [| by apply Qlt_le_weak].
    apply Qle_trans with 0.125%Q; [done | done]. }
  assert (Hlen : (0 <= dur * tempo_scale tempo)%Q).
  { apply Qmult_le_0_compat; [| by apply Qlt_le_weak].
    apply Qle_trans with 0.125%Q; [done | done]. }
  set (gap := (step * tempo_scale tempo)%Q) in *.
  set (len := (dur * tempo_scale tempo)%Q) in *.
  clearbody gap len.
  assert (Hmono : (prev_start st <= prev_start st')%Q).
  { rewrite Hprev. lra. }
  split.
  - rewrite Hnotes. apply Forall_app. split; [done |].
    constructor; [| constructor].
    eexists _, _. split; [apply note_data_lookup |].
    split; [apply note_data_lookup |]. lra.
  - rewrite Hnotes. apply StronglySorted_snoc; [done |].
    eapply Forall_impl; [exact Hc |]. simpl.
    intros n (s & Hn & Hle). exists s. eexists.
    split; [done |]. split; [apply note_data_lookup |]. lra.
  - rewrite Hnotes. apply Forall_app. split.
    + eapply Forall_impl; [exact Hc |]. simpl.
      intros n (s & Hn & Hle). exists s. split; [done | lra].
    + constructor; [| constructor]. eexists. split; [apply note_data_lookup |]. lra.
Qed.

Lemma loop_body_length self m scale tempo (i : nat) (st st' : LoopState) :
  loop_body self m scale tempo i st = Ok st' ->
  length (generated_notes st') = S (length (generated_notes st)).
Proof.
  intros H. destruct (loop_body_Ok _ _ _ _ _ _ _ H) as (p & s & d & _ & _ & _ & Hn & _).
  rewrite Hn, length_app. simpl. lia.
Qed.

Lemma for_each_loop_body self m scale tempo (l : list nat) (st st' : LoopState) :
  for_each (loop_body self m scale tempo) l st = Ok st' ->
  loop_invariant st ->
  loop_invariant st' /\
  length (generated_notes st') = (length (generated_notes st) + length l)%nat.
Proof.
  revert st. induction l as [| i l IH]; intros st H Hinv; simpl in H.
  - inversion H; subst. split; [done | simpl; lia].
  - bind_ok H. apply IH in H as [H1 H2].
    + split; [done |]. rewrite H2. erewrite loop_body_length by done. simpl. lia.
    + by eapply loop_body_preserves.
Qed.

Lemma quantize_duration_total (value grid : Q) :
  ~ (grid == 0)%Q -> exists r, MusicTheory.quantize_duration value grid = Ok r.
Proof.
  intros Hgrid. unfold MusicTheory.quantize_duration.
  destruct (Qle_bool value 0.05); [by eexists |].
  rewrite py_truediv_ok by done. simpl.
  destruct (_ && _); by eexists.
Qed.

Lemma constrain_to_scale_total (name : string) (S : list Z) (p : Z) :
  MusicTheory.SCALES !! name = Some S ->
  exists r, MusicTheory.constrain_to_scale p S = Ok r.
Proof.
  intros HS. pose proof (snaps_into_scale_all name S p HS) as H.
  unfold snaps_into_scale in H.
  destruct (MusicTheory.constrain_to_scale p S) as [r| |]; [by exists r | done | done].
Qed.

Lemma loop_body_total self m (name : string) (scale : list Z) tempo (i : nat) (st : LoopState) :
  always_predicts m -> normalisable self ->
  MusicTheory.SCALES !! name = Some scale ->
  (0 < temperature st)%Q ->
  exists st', loop_body self m scale tempo i st = Ok st'.
Proof.
  intros Hm (Hv & Hs & Hd) Hscale Ht.
  unfold loop_body, predict_next_note.
  apply Qltb_lt in Ht. rewrite Ht.
  destruct (Hm i (input_notes st) (temperature st)) as [[[p s] d] ->]. simpl.
  destruct (constrain_to_scale_total name scale p Hscale) as [p' ->]. simpl.
  destruct (quantize_duration_total (py_maxQ 0 s) 0.125) as [s' ->]; [done |]. simpl.
  destruct (quantize_duration_total (py_maxQ 0 d) 0.125) as [d' ->]; [done |]. simpl.
  rewrite !py_truediv_ok by done. simpl. by eexists.
Qed.

Lemma for_each_loop_body_total self m (name : string) (scale : list Z) tempo
    (l : list nat) (st : LoopState) :
  always_predicts m -> normalisable self ->
  MusicTheory.SCALES !! name = Some scale ->
  (0 < temperature st)%Q ->
  exists st', for_each (loop_body self m scale tempo) l st = Ok st'.
Proof.
  intros Hm Hn Hscale. revert st.
  induction l as [| i l IH]; intros st Ht; simpl; [by eexists |].
  destruct (loop_body_total self m name scale tempo i st) as [st1 E]; try done.
  rewrite E. simpl. apply IH.
  destruct (loop_body_Ok _ _ _ _ _ _ _ E) as (_ & _ & _ & _ & _ & _ & _ & H).
  by apply H.
Qed.

Lemma loop_init_invariant (seed : list NormalizedNote) (temp : Q) :
  loop_invariant (loop_init seed temp).
Proof. split; simpl; constructor. Qed.

(** C2.  For every [total_notes >= 0] and every model: a list returned by
    [_generate_with_constraints] holds exactly [total_notes] notes, its
    starts are non-decreasing in emission order, and every note has
    [end >= start]; and the function does return a list when the model
    answers every call (with usable normalisation constants and a positive
    starting temperature). *)
Theorem generate_with_constraints_ordered_notes
    (self : MelodyServiceV2) (m : Model) (total_notes : Z)
    (seed : list NormalizedNote) (tempo : Z) (genre : string) (temp : Q) :
  0 <= total_notes ->
  (forall notes,
     generate_with_constraints self m total_notes seed tempo genre temp = Ok notes ->
     Z.of_nat (length notes) = total_notes /\
     StronglySorted starts_before notes /\
     Forall ends_after_start notes) /\
  (always_predicts m -> normalisable self -> (0 < temp)%Q ->
   exists notes,
     generate_with_constraints self m total_notes seed tempo genre temp = Ok notes).
Proof.
  intros Htotal. unfold generate_with_constraints.
  destruct (get_scale_for_genre_ok genre) as (name & scale & Hscale & ->). simpl.
  split.
  - intros notes H. bind_ok H. inversion H; subst notes; clear H.
    apply for_each_loop_body in E as [[He Hs _] Hlen]; [| apply loop_init_invariant].
    split; [| done].
    rewrite Hlen. unfold py_range. rewrite length_seq. simpl. lia.
  - intros Hm Hn Ht.
    destruct (for_each_loop_body_total self m name scale tempo
                (py_range total_notes) (loop_init seed temp)) as [st E]; try done.
    rewrite E. simpl. by eexists.
Qed.

Lemma generate_with_constraints_ordered_notes_witness :
  exists notes,
    generate_with_constraints (default_service (Some stub_model)) stub_model 48
      pop_seed 120 "pop" 1.1 = Ok notes /\
    Z.of_nat (length notes) = 48 /\
    StronglySorted starts_before notes /\
    Forall ends_after_start notes.
Proof.
  destruct (generate_with_constraints_ordered_notes
              (default_service (Some stub_model)) stub_model 48 pop_seed 120 "pop" 1.1)
    as [Hpartial Htotal]; [lia |].
  destruct Htotal as [notes E].
  - intros k notes temp. by eexists.
  - repeat split; by vm_compute.
  - by vm_compute.
  - exists notes. split; [exact E | by apply Hpartial].
Defined.

Lemma for_each_loop_body_prefix self m scale tempo (l : list nat) (st st' : LoopState) :
  for_each (loop_body self m scale tempo) l st = Ok st' ->
  exists more, generated_notes st' = generated_notes st ++ more.
Proof.
  revert st. induction l as [| i l IH]; intros st H; simpl in H.
  - inversion H; subst. exists []. by rewrite app_nil_r.
  - bind_ok H. apply IH in H as [more ->].
    destruct (loop_body_Ok _ _ _ _ _ _ _ E) as (p & s & d & _ & _ & _ & -> & _).
    eexists. by rewrite <- app_assoc.
Qed.

(** C5.  With genre "pop" and tempo 120, against the stub model that
    answers (64, 0.5, 0.4) at every call, the generation loop returns a
    list whose first note has pitch 64, start 0.5 and end 0.875: pitch 64 is
    kept by the major scale, 0.5 quantizes to 0.5, 0.4 to 0.375, and the
    tempo scale is 120/120 = 1. *)
Theorem stub_oracle_first_note
    (self : MelodyServiceV2) (seed : list NormalizedNote) (temp : Q) (total_notes : Z) :
  normalisable self -> (0 < temp)%Q -> 1 <= total_notes ->
  MusicTheory.get_scale_for_genre "pop" = Ok MusicTheory.major /\
  MusicTheory.constrain_to_scale 64 MusicTheory.major = Ok 64 /\
  (exists s, MusicTheory.quantize_duration 0.5 0.125 = Ok s /\ (s == 0.5)%Q) /\
  (exists d, MusicTheory.quantize_duration 0.4 0.125 = Ok d /\ (d == 0.375)%Q) /\
  (tempo_scale 120 == 1)%Q /\
  exists first rest,
    generate_with_constraints self stub_model total_notes seed 120 "pop" temp
      = Ok (first :: rest) /\
    first !! "pitch"%string = Some (PyInt 64) /\
    exists s e, float_field "start" first s /\ (s == 0.5)%Q /\
                float_field "end" first e /\ (e == 0.875)%Q.
Proof.
  intros Hn Ht Htotal.
  split; [done |]. split; [done |].
  split; [by eexists |]. split; [by eexists |]. split; [done |].
  unfold generate_with_constraints.
  change (MusicTheory.get_scale_for_genre "pop") with (Ok MusicTheory.major). simpl.
  unfold py_range.
  replace (Z.to_nat total_notes) with (S (Z.to_nat (total_notes - 1))) by lia.
  rewrite <- cons_seq.
  change (for_each ?b (?i :: ?l) ?s) with (s' ← b i s; for_each b l s').
  assert (Hfirst : exists st1 first,
            loop_body self stub_model MusicTheory.major 120 0 (loop_init seed temp) = Ok st1 /\
            generated_notes st1 = [first] /\
            (0 < temperature st1)%Q /\
            first !! "pitch"%string = Some (PyInt 64) /\
            exists s e, float_field "start" first s /\ (s == 0.5)%Q /\
                        float_field "end" first e /\ (e == 0.875)%Q).
  { unfold loop_body, predict_next_note, stub_model. simpl.
    apply Qltb_lt in Ht as Ht'. rewrite Ht'. simpl.
    destruct Hn as (Hv & Hs & Hd).
    rewrite !py_truediv_ok by done. simpl.
    eexists _, _. split; [done |]. split; [done |]. split; [done |].
    split; [done |]. eexists _, _.
    split; [apply note_data_lookup |]. split; [by vm_compute |].
    split; [apply note_data_lookup |]. by vm_compute. }
  destruct Hfirst as (st1 & first & -> & Hnotes & Ht1 & Hpitch & Htimes). simpl.
  destruct (for_each_loop_body_total self stub_model "major" MusicTheory.major 120
              (seq 1 (Z.to_nat (total_notes - 1))) st1) as [st' E]; try done.
  { intros k notes T. by eexists. }
  rewrite E. simpl.
  destruct (for_each_loop_body_prefix _ _ _ _ _ _ _ E) as [more Hmore].
  rewrite Hnotes in Hmore. exists first, more. by rewrite Hmore.
Qed.

Lemma stub_oracle_first_note_witness :
  MusicTheory.get_scale_for_genre "pop" = Ok MusicTheory.major /\
  MusicTheory.constrain_to_scale 64 MusicTheory.major = Ok 64 /\
  (exists s, MusicTheory.quantize_duration 0.5 0.125 = Ok s /\ (s == 0.5)%Q) /\
  (exists d, MusicTheory.quantize_duration 0.4 0.125 = Ok d /\ (d == 0.375)%Q) /\
  (tempo_scale 120 == 1)%Q /\
  exists first rest,
    generate_with_constraints (default_service (Some stub_model)) stub_model 48
      pop_seed 120 "pop" 1.1 = Ok (first :: rest) /\
    first !! "pitch"%string = Some (PyInt 64) /\
    exists s e, float_field "start" first s /\ (s == 0.5)%Q /\
                float_field "end" first e /\ (e == 0.875)%Q.
Proof.
  apply (stub_oracle_first_note (default_service (Some stub_model)) pop_seed 1.1 48).
  - repeat split; by vm_compute.
  - by vm_compute.
  - lia.
Defined.

(* ===================================================================== *)
(** * Tempo scaling                                                       *)
(* ===================================================================== *)

Lemma halved_note_data (p : Z) (s1 e1 t1 d1 s2 e2 t2 d2 : Q) :
  (s2 == s1 / 2)%Q -> (e2 == e1 / 2)%Q -> (t2 == t1 / 2)%Q -> (d2 == d1 / 2)%Q ->
  halved_note (note_data p s1 e1 t1 d1) (note_data p s2 e2 t2 d2).
Proof.
  intros Hs He Ht Hd. split; [done |].
  intros key Hkey.
  repeat (apply elem_of_cons in Hkey as [-> | Hkey];
          [eexists _, _; split; [apply note_data_lookup |];
           split; [apply note_data_lookup | done] |]).
  by apply elem_of_nil in Hkey.
Qed.

(** One iteration keeps two runs in step when the model answers the same. *)
Lemma loop_body_halved self m1 m2 scale tempo (k : nat) (st1 st2 : LoopState) :
  1 <= tempo ->
  halved_state st1 st2 ->
  predict_next_note k (input_notes st1) m1 (temperature st1) =
  predict_next_note k (input_notes st2) m2 (temperature st2) ->
  halved_states (loop_body self m1 scale tempo k st1)
                (loop_body self m2 scale (2 * tempo) k st2).
Proof.
  intros Htempo [Hin Htemp Hcur Hnotes] Hpred.
  pose proof (tempo_scale_double tempo Htempo) as Hts.
  unfold loop_body. rewrite Hpred.
  destruct (predict_next_note _ _ m2 _) as [[[p s] d]| |]; simpl; [| done | done].
  destruct (MusicTheory.constrain_to_scale p scale) as [p'| |]; simpl; [| done | done].
  destruct (MusicTheory.quantize_duration s _) as [s'| |]; simpl; [| done | done].
  destruct (MusicTheory.quantize_duration d _) as [d'| |]; simpl; [| done | done].
  destruct (py_truediv _ (vocab_size self)) as [a| |]; simpl; [| done | done].
  destruct (py_truediv _ (max_step self)) as [b| |]; simpl; [| done | done].
  destruct (py_truediv _ (max_duration self)) as [c| |]; simpl; [| done | done].
  set (step := py_maxQ 0.125 s'). set (dur := py_maxQ 0.125 d').
  assert (Hstart : (prev_start st2 + step * tempo_scale (2 * tempo) ==
                    (prev_start st1 + step * tempo_scale tempo) / 2)%Q).
  { rewrite Hts, Hcur. field. }
  split; simpl.
  - by rewrite Hin.
  - by rewrite Htemp.
  - exact Hstart.
  - apply Forall2_app; [done |]. constructor; [| constructor].
    apply halved_note_data.
    + exact Hstart.
    + rewrite Hstart, Hts. field.
    + rewrite Hts. field.
    + rewrite Hts. field.
Qed.

Lemma loop_state_halved self m1 m2 scale tempo seed temp (n : nat) :
  1 <= tempo ->
  (forall k : nat, (k < n)%nat ->
     (st ← loop_state self m1 scale tempo seed temp k;
      predict_next_note k (input_notes st) m1 (temperature st)) =
     (st ← loop_state self m2 scale (2 * tempo) seed temp k;
      predict_next_note k (input_notes st) m2 (temperature st))) ->
  forall k : nat, (k <= n)%nat ->
    halved_states (loop_state self m1 scale tempo seed temp k)
                  (loop_state self m2 scale (2 * tempo) seed temp k).
Proof.
  intros Htempo Hpred. induction k as [| k IH]; intros Hk.
  - unfold loop_state. simpl. split; simpl; [done | done | done | constructor].
  - specialize (IH ltac:(lia)). specialize (Hpred k ltac:(lia)).
    rewrite !loop_state_S.
    destruct (loop_state self m1 scale tempo seed temp k) as [st1| |];
      destruct (loop_state self m2 scale (2 * tempo) seed temp k) as [st2| |];
      simpl in *; try done.
    by apply loop_body_halved.
Qed.

(** C1 (amended).  For every tempo of at least 1: two runs of the loop on
    the same seed window, genre and starting temperature, whose calls to
    [predict_next_note] return the same at every iteration, one run at
    [tempo] and the other at [2 * tempo], feed the same window to the model
    at every iteration, and every note of the second run has the pitch of
    the first run's note and half its start, end, step and duration. *)
Theorem doubling_tempo_halves_times_from_1
    (self : MelodyServiceV2) (m1 m2 : Model) (total_notes : Z)
    (seed : list NormalizedNote) (tempo : Z) (genre : string) (temp : Q) :
  1 <= tempo ->
  doubling_tempo_halves_times self m1 m2 total_notes seed tempo genre temp.
Proof.
  intros Htempo Hpred.
  unfold window_fed, prediction_at, generate_with_constraints in *.
  destruct (get_scale_for_genre_ok genre) as (name & scale & _ & Hscale).
  rewrite Hscale in *. simpl in *.
  pose proof (loop_state_halved self m1 m2 scale tempo seed temp
                (Z.to_nat total_notes) Htempo Hpred) as H.
  split.
  - intros k Hk. specialize (H k Hk).
    destruct (loop_state self m1 scale tempo seed temp k) as [st1| |];
      destruct (loop_state self m2 scale (2 * tempo) seed temp k) as [st2| |];
      simpl in *; try done; [| by subst].
    by rewrite (hs_input _ _ H).
  - specialize (H (Z.to_nat total_notes) ltac:(lia)).
    unfold loop_state, py_range in *.
    destruct (for_each (loop_body self m1 scale tempo) _ _) as [st1| |];
      destruct (for_each (loop_body self m2 scale (2 * tempo)) _ _) as [st2| |];
      simpl in *; try done.
    apply H.
Qed.

Lemma doubling_tempo_halves_times_from_1_witness :
  (forall k : nat, (k <= Z.to_nat 3)%nat ->
     window_fed (default_service (Some stub_model)) stub_model pop_seed 120 "pop" 1.1 k =
     window_fed (default_service (Some stub_model)) stub_model pop_seed (2 * 120) "pop" 1.1 k) /\
  halved_notes
    (generate_with_constraints (default_service (Some stub_model)) stub_model 3
       pop_seed 120 "pop" 1.1)
    (generate_with_constraints (default_service (Some stub_model)) stub_model 3
       pop_seed (2 * 120) "pop" 1.1).
Proof.
  apply (doubling_tempo_halves_times_from_1
           (default_service (Some stub_model)) stub_model stub_model
           3 pop_seed 120 "pop" 1.1).
  - lia.
  - intros k Hk. simpl in Hk.
    destruct k as [| [| [| k]]]; [by vm_compute | by vm_compute | by vm_compute | lia].
Defined.

(** C1 as stated fails below tempo 1, where [max(tempo, 1)] pins the tempo
    scale at 120: at tempo 0, and at tempo -60 against -120, the two runs
    get the same predictions and emit the same note, whose step is not
    halved. *)
Lemma doubling_tempo_fails_below_1 :
  ~ doubling_tempo_halves_times (default_service (Some stub_model)) stub_model stub_model
      1 pop_seed 0 "pop" 1.1 /\
  ~ doubling_tempo_halves_times (default_service (Some stub_model)) stub_model stub_model
      1 pop_seed (-60) "pop" 1.1.
Proof.
  split; intros H.
  all: destruct H as [_ H];
    [ intros k Hk; assert (k = O) as -> by (simpl in Hk; lia); reflexivity |].
  all: match type of H with
       | halved_notes ?r1 ?r2 =>
           destruct r1 as [l1| |] eqn:E1; [| by vm_compute in E1 | by vm_compute in E1];
           destruct r2 as [l2| |] eqn:E2; [| by vm_compute in E2 | by vm_compute in E2]
       end.
  all: cbn in E1, E2; simpl in H.
  all: inversion E1; subst l1; clear E1; inversion E2; subst l2; clear E2.
  all: inversion H as [| n1 n2 ? ? [_ Hkeys] _]; subst.
  all: destruct (Hkeys "step"%string) as (q1 & q2 & Hf1 & Hf2 & Hq);
         [ repeat constructor |].
  all: unfold float_field in Hf1, Hf2; vm_compute in Hf1, Hf2.
  all: inversion Hf1; subst q1; inversion Hf2; subst q2.
  all: by vm_compute in Hq.
Qed.

(* ===================================================================== *)
(** * The demo generator                                                  *)
(* ===================================================================== *)

Lemma demo_fold_notes (g : Rng) (config : DemoConfig) (l : list nat) (st : DemoState) :
  exists more,
    dm_notes (fold_left (fun st i => demo_body g config i st) l st) = dm_notes st ++ more /\
    Forall is_demo_note more /\ length more = length l.
Proof.
  revert st. induction l as [| i l IH]; intros st; simpl.
  - exists []. by rewrite app_nil_r.
  - destruct (IH (demo_body g config i st)) as (more & -> & Hall & Hlen).
    simpl. eexists (_ :: more). rewrite <- app_assoc. simpl.
    split; [done |]. split; [| by rewrite Hlen].
    constructor; [by eexists _, _, _, _ | done].
Qed.

Lemma generate_demo_melody_shape (g : Rng) (c0 : nat) (num_notes tempo : Z) (genre : string) :
  Forall is_demo_note (generate_demo_melody g c0 num_notes tempo genre) /\
  length (generate_demo_melody g c0 num_notes tempo genre) = Z.to_nat num_notes.
Proof.
  unfold generate_demo_melody, demo_loop.
  match goal with
  | |- context [fold_left _ ?l ?st] =>
      destruct (demo_fold_notes g (dict_get genre_configs (py_lower genre) pop_config) l st)
        as (more & -> & Hall & Hlen)
  end.
  simpl. split; [done |]. rewrite Hlen. unfold py_range. by rewrite length_seq.
Qed.

Lemma demo_note_keys (n : NoteDict) :
  is_demo_note n ->
  n !! "start"%string = None /\ n !! "end"%string = None /\
  is_Some (n !! "pitch"%string) /\ is_Some (n !! "step"%string) /\
  is_Some (n !! "duration"%string) /\ is_Some (n !! "start_time"%string).
Proof. intros (p & s & d & t & ->). by repeat split. Qed.

(** C10.  [_generate_demo_melody] does not read its tempo argument: with
    the same number of notes, genre and pseudo-random draws, any two tempo
    values give the same list of notes. *)
Theorem generate_demo_melody_ignores_tempo
    (g : Rng) (c0 : nat) (num_notes : Z) (genre : string) (tempo1 tempo2 : Z) :
  generate_demo_melody g c0 num_notes tempo1 genre =
  generate_demo_melody g c0 num_notes tempo2 genre.
Proof. reflexivity. Qed.

(* ===================================================================== *)
(** * The demo notes and the MIDI generator                               *)
(* ===================================================================== *)

Lemma melody_body_demo (g : Rng) (seconds_per_beat : Q) (n : NoteDict)
    (st : EnhancedMidiGenerator.MelodyState) :
  is_demo_note n ->
  EnhancedMidiGenerator.melody_body g seconds_per_beat n st = Raise (KeyError "start").
Proof. by intros (p & s & d & t & ->). Qed.

Lemma compose_demo_notes (env : MidiEnv) (g : Rng) (c : nat) (first : NoteDict)
    (rest : list NoteDict) (tempo : Z) (genre : string) :
  is_demo_note first ->
  import_error env = None -> score_error env tempo = None ->
  EnhancedMidiGenerator.compose env g c (first :: rest) tempo genre
    = Raise (KeyError "start").
Proof.
  intros Hdemo Himport Hscore. unfold EnhancedMidiGenerator.compose.
  rewrite Himport, Hscore. simpl. by rewrite melody_body_demo.
Qed.

Lemma notes_to_midi_base64_demo (env : MidiEnv) (g : Rng) (c : nat) (first : NoteDict)
    (rest : list NoteDict) (tempo : Z) (genre : string) :
  is_demo_note first ->
  EnhancedMidiGenerator.notes_to_midi_base64 env g c (first :: rest) tempo genre
    = Ok EmptyString.
Proof.
  intros Hdemo. unfold EnhancedMidiGenerator.notes_to_midi_base64.
  destruct (import_error env) as [e |] eqn:Himport.
  - unfold EnhancedMidiGenerator.compose. by rewrite Himport.
  - destruct (score_error env tempo) as [e |] eqn:Hscore.
    + unfold EnhancedMidiGenerator.compose. by rewrite Himport, Hscore.
    + by rewrite compose_demo_notes.
Qed.

Lemma create_audio_demo (env : MidiEnv) (g : Rng) (c : nat) (first : NoteDict)
    (rest : list NoteDict) (tempo : Z) (genre : string) :
  is_demo_note first ->
  create_audio env g c (first :: rest) tempo genre = Ok EmptyString.
Proof.
  intros Hdemo. unfold create_audio. by rewrite notes_to_midi_base64_demo.
Qed.

Lemma num_notes_of_bars (bars : Z) :
  py_int (PyFloat (inject_Z (bars * 4) * 1.5)) = 6 * bars.
Proof.
  unfold py_int. simpl.
  replace (bars * 4 * 15) with (6 * bars * 10) by lia.
  apply Z.quot_mul. lia.
Qed.

Lemma generate_demo_melody_cons (g : Rng) (c0 : nat) (num_notes tempo : Z) (genre : string) :
  1 <= num_notes ->
  exists first rest,
    generate_demo_melody g c0 num_notes tempo genre = first :: rest /\
    is_demo_note first /\ Forall is_demo_note rest.
Proof.
  intros Hn.
  destruct (generate_demo_melody_shape g c0 num_notes tempo genre) as [Hall Hlen].
  destruct (generate_demo_melody g c0 num_notes tempo genre) as [| first rest].
  - simpl in Hlen. lia.
  - inversion Hall; subst. by exists first, rest.
Qed.

Lemma seed_row_total (start_pitch : Z) (v s d : Q) (i : nat) :
  ~ (v == 0)%Q -> ~ (s == 0)%Q -> ~ (d == 0)%Q ->
  exists row, SeedGenerator.seed_row start_pitch v s d i = Ok row.
Proof.
  intros Hv Hs Hd. unfold SeedGenerator.seed_row.
  destruct (i <? 15)%nat; [by eexists |].
  rewrite !py_truediv_ok by done. simpl. by eexists.
Qed.

Lemma generate_smart_seed_total (self : MelodyServiceV2) (genre : string) (n : Z) :
  normalisable self ->
  exists seed,
    SeedGenerator.generate_smart_seed genre n
      (vocab_size self) (max_step self) (max_duration self) = Ok seed.
Proof.
  intros (Hv & Hs & Hd). unfold SeedGenerator.generate_smart_seed.
  set (start_pitch := dict_get _ _ _).
  assert (H : forall l acc, exists seed,
            for_each (fun i seed =>
                        row ← SeedGenerator.seed_row start_pitch (vocab_size self)
                                (max_step self) (max_duration self) i;
                        Ok (seed ++ [row])) l acc = Ok seed).
  { induction l as [| i l IH]; intros acc; simpl; [by eexists |].
    destruct (seed_row_total start_pitch (vocab_size self) (max_step self)
                (max_duration self) i) as [row ->]; try done.
    simpl. apply IH. }
  apply H.
Qed.

(** The two ways into the demo generator: no model, or a failed loop. *)
Lemma generate_melody_demo_path (self : MelodyServiceV2) (env : MidiEnv) (g : Rng)
    (tempo : Z) (genre : string) (bars : Z) (temp : Q) (seed : list NormalizedNote) :
  SeedGenerator.generate_smart_seed genre SEQ_LENGTH
    (vocab_size self) (max_step self) (max_duration self) = Ok seed ->
  (model self = None \/
   exists m e, model self = Some m /\
     generate_with_constraints self m (6 * bars) seed tempo genre temp = Raise e) ->
  1 <= bars ->
  exists r,
    generate_melody self env g tempo genre bars temp = Ok r /\
    resp_notes r = generate_demo_melody g 0 (6 * bars) tempo genre /\
    audio_url r = EmptyString.
Proof.
  intros Hseed Hpath Hbars. unfold generate_melody.
  rewrite num_notes_of_bars, Hseed. simpl.
  destruct (generate_demo_melody_cons g 0 (6 * bars) tempo genre ltac:(lia))
    as (first & rest & E & Hfirst & _).
  unfold generate_demo_melody in E.
  destruct Hpath as [-> | (m & e & -> & ->)]; simpl.
  all: rewrite E, create_audio_demo by done; simpl.
  all: eexists; split; [done |]; by split.
Qed.

(** C8.  For every non-empty list of notes produced by
    [_generate_demo_melody] (every note has the keys pitch, step, duration
    and start_time, and neither start nor end), [notes_to_midi_base64]
    returns the empty string: once the imports and the construction of
    the score succeed, the read of [note['start']] raises [KeyError], which
    the handler of the function turns into the empty string (as it does
    an exception of the imports or of the construction).  Hence [_create_audio] returns the empty
    string, and so is the [audio_url] of [generate_melody] whenever it runs
    without a model (demo mode) for at least one bar. *)
Theorem demo_notes_give_empty_midi
    (env : MidiEnv) (g : Rng) (c0 c : nat) (num_notes tempo : Z) (genre : string)
    (midi_tempo : Z) (midi_genre : string) :
  1 <= num_notes ->
  let notes := generate_demo_melody g c0 num_notes tempo genre in
  notes <> [] /\
  Forall (fun n => n !! "start"%string = None /\ n !! "end"%string = None /\
                   is_Some (n !! "pitch"%string) /\ is_Some (n !! "step"%string) /\
                   is_Some (n !! "duration"%string) /\
                   is_Some (n !! "start_time"%string)) notes /\
  (import_error env = None -> score_error env midi_tempo = None ->
   EnhancedMidiGenerator.compose env g c notes midi_tempo midi_genre
     = Raise (KeyError "start")) /\
  EnhancedMidiGenerator.notes_to_midi_base64 env g c notes midi_tempo midi_genre
    = Ok EmptyString /\
  create_audio env g c notes midi_tempo midi_genre = Ok EmptyString /\
  (forall self bars temp, model self = None -> normalisable self -> 1 <= bars ->
   exists r, generate_melody self env g tempo genre bars temp = Ok r /\
             audio_url r = EmptyString).
Proof.
  intros Hn notes. subst notes.
  destruct (generate_demo_melody_cons g c0 num_notes tempo genre Hn)
    as (first & rest & E & Hfirst & Hrest).
  rewrite E. split; [done |]. split.
  - constructor; [by apply demo_note_keys |].
    eapply Forall_impl; [exact Hrest |]. apply demo_note_keys.
  - split; [intros Himport Hscore; by apply compose_demo_notes |].
    split; [by apply notes_to_midi_base64_demo |].
    split; [by apply create_audio_demo |].
    intros self bars temp Hmodel Hnorm Hbars.
    destruct (generate_smart_seed_total self genre SEQ_LENGTH Hnorm) as [seed Hseed].
    destruct (generate_melody_demo_path self env g tempo genre bars temp seed Hseed
                (or_introl Hmodel) Hbars) as (r & Hr & _ & Hurl).
    by exists r.
Qed.

Lemma demo_notes_give_empty_midi_witness :
  let notes := generate_demo_melody rng0 0 48 120 "pop" in
  notes <> [] /\
  Forall (fun n => n !! "start"%string = None /\ n !! "end"%string = None /\
                   is_Some (n !! "pitch"%string) /\ is_Some (n !! "step"%string) /\
                   is_Some (n !! "duration"%string) /\
                   is_Some (n !! "start_time"%string)) notes /\
  (import_error env0 = None -> score_error env0 120 = None ->
   EnhancedMidiGenerator.compose env0 rng0 144 notes 120 "pop"
     = Raise (KeyError "start")) /\
  EnhancedMidiGenerator.notes_to_midi_base64 env0 rng0 144 notes 120 "pop"
    = Ok EmptyString /\
  create_audio env0 rng0 144 notes 120 "pop" = Ok EmptyString /\
  (forall self bars temp, model self = None -> normalisable self -> 1 <= bars ->
   exists r, generate_melody self env0 rng0 120 "pop" bars temp = Ok r /\
             audio_url r = EmptyString).
Proof.
  apply (demo_notes_give_empty_midi env0 rng0 0 144 48 120 "pop" 120 "pop"). lia.
Defined.

(* ===================================================================== *)
(** * Failure of the model and the fallback                               *)
(* ===================================================================== *)

Lemma loop_body_raises self m scale tempo (k : nat) (st : LoopState) (e : exn) :
  predict_next_note k (input_notes st) m (temperature st) = Raise e ->
  loop_body self m scale tempo k st = Raise e.
Proof. intros H. unfold loop_body. by rewrite H. Qed.

(** An exception of call [k] ends the loop with that exception. *)
Lemma prediction_failure_aborts (self : MelodyServiceV2) (m : Model) (total_notes : Z)
    (seed : list NormalizedNote) (tempo : Z) (genre : string) (temp : Q)
    (k : nat) (e : exn) :
  (k < Z.to_nat total_notes)%nat ->
  prediction_at self m seed tempo genre temp k = Raise e ->
  generate_with_constraints self m total_notes seed tempo genre temp = Raise e.
Proof.
  intros Hk Hpred. unfold prediction_at, generate_with_constraints in *.
  destruct (MusicTheory.get_scale_for_genre genre) as [scale| |]; simpl in *;
    [| by inversion Hpred | done].
  unfold py_range, loop_state in *.
  replace (Z.to_nat total_notes) with (k + S (Z.to_nat total_notes - S k))%nat by lia.
  rewrite seq_app, for_each_app. simpl.
  destruct (for_each _ (seq 0 k) _) as [st| |]; simpl in *;
    [| by inversion Hpred | done].
  by rewrite (loop_body_raises _ _ _ _ _ _ _ Hpred).
Qed.

(** C6.  With a loaded model, if a call to the model raises during the
    generation loop (call [k < num_notes] ends with exception [e]), the loop
    raises [e], and [generate_melody] does not: it returns, and its notes
    are the whole list of [_generate_demo_melody] for the same number of
    notes, tempo and genre, every one of the demo shape, none a note of the
    model. *)
Theorem model_failure_falls_back_to_demo
    (self : MelodyServiceV2) (m : Model) (env : MidiEnv) (g : Rng)
    (tempo : Z) (genre : string) (bars : Z) (temp : Q)
    (seed : list NormalizedNote) (k : nat) (e : exn) :
  model self = Some m ->
  SeedGenerator.generate_smart_seed genre SEQ_LENGTH
    (vocab_size self) (max_step self) (max_duration self) = Ok seed ->
  (k < Z.to_nat (6 * bars))%nat ->
  prediction_at self m seed tempo genre temp k = Raise e ->
  generate_with_constraints self m (6 * bars) seed tempo genre temp = Raise e /\
  exists r,
    generate_melody self env g tempo genre bars temp = Ok r /\
    resp_notes r = generate_demo_melody g 0 (6 * bars) tempo genre /\
    Forall is_demo_note (resp_notes r) /\
    length (resp_notes r) = Z.to_nat (6 * bars).
Proof.
  intros Hmodel Hseed Hk Hfail.
  pose proof (prediction_failure_aborts self m (6 * bars) seed tempo genre temp k e
                Hk Hfail) as Hloop.
  split; [done |].
  destruct (generate_melody_demo_path self env g tempo genre bars temp seed Hseed)
    as (r & Hr & Hnotes & _).
  - right. by exists m, e.
  - lia.
  - exists r. split; [done |]. split; [done |].
    rewrite Hnotes. apply generate_demo_melody_shape.
Qed.

Lemma model_failure_falls_back_to_demo_witness :
  generate_with_constraints (default_service (Some failing_model)) failing_model
    (6 * 8) pop_seed 120 "pop" 1.1 = Raise (RuntimeError "inference failed") /\
  exists r,
    generate_melody (default_service (Some failing_model)) env0 rng0 120 "pop" 8 1.1
      = Ok r /\
    resp_notes r = generate_demo_melody rng0 0 (6 * 8) 120 "pop" /\
    Forall is_demo_note (resp_notes r) /\
    length (resp_notes r) = Z.to_nat (6 * 8).
Proof.
  apply (model_failure_falls_back_to_demo
           (default_service (Some failing_model)) failing_model env0 rng0
           120 "pop" 8 1.1 pop_seed 2 (RuntimeError "inference failed")).
  - reflexivity.
  - by vm_compute.
  - simpl. lia.
  - by vm_compute.
Defined.

(* ===================================================================== *)
(** * The bass track                                                      *)
(* ===================================================================== *)

Lemma Qltb_comp (a a' b b' : Q) :
  (a == a')%Q -> (b == b')%Q -> Qltb a b = Qltb a' b'.
Proof.
  intros Ha Hb. destruct (Qltb a' b') eqn:E.
  - apply Qltb_lt. apply Qltb_lt in E. by rewrite Ha, Hb.
  - apply Qltb_ge. apply Qltb_ge in E. by rewrite Ha, Hb.
Qed.

Lemma seconds_per_beat_pos (tempo : Z) : (0 < seconds_per_beat_at tempo)%Q.
Proof.
  unfold seconds_per_beat_at. pose proof (tempo_scale_pos tempo) as H.
  unfold tempo_scale in H. apply Qmult_lt_0_compat; [done | exact H].
Qed.

(** The fuel of the bar loops counts the bars that start before the end. *)
Lemma bars_until_spec (total seconds_per_bar : Q) (k : nat) :
  (0 < seconds_per_bar)%Q ->
  (k < EnhancedMidiGenerator.bars_until total seconds_per_bar)%nat <->
  (inject_Z (Z.of_nat k) * seconds_per_bar < total)%Q.
Proof.
  intros Hpos. unfold EnhancedMidiGenerator.bars_until.
  set (x := (total / seconds_per_bar)%Q).
  assert (Hne : ~ (seconds_per_bar == 0)%Q).
  { intros H0. rewrite H0 in Hpos. by apply (Qlt_irrefl 0). }
  assert (Hx : (inject_Z (Z.of_nat k) * seconds_per_bar < total)%Q <->
               (inject_Z (Z.of_nat k) < x)%Q).
  { unfold x. split; intros H.
    - by apply Qlt_shift_div_l.
    - apply (Qmult_lt_compat_r _ _ seconds_per_bar) in H; [| done].
      assert (Heq : (total / seconds_per_bar * seconds_per_bar == total)%Q) by by field.
      by rewrite Heq in H. }
  rewrite Hx. split; intros H.
  - assert (Hz : Z.of_nat k <= Qceiling x - 1) by lia.
    apply Qle_lt_trans with (inject_Z (Qceiling x - 1)); [by rewrite <- Zle_Qle |].
    apply Qceiling_lt.
  - assert (Hz : Z.of_nat k < Qceiling x).
    { rewrite Zlt_Qlt. apply Qlt_le_trans with x; [done | apply Qle_ceiling]. }
    lia.
Qed.

Section BarLoops.

Import PrettyMidi EnhancedMidiGenerator.

Variable seconds_per_beat : Q.
Variable total : Q.
Hypothesis beat_pos : (0 < seconds_per_beat)%Q.

Local Abbreviation seconds_per_bar := (seconds_per_beat * 4)%Q.
Local Abbreviation nbars := (bars_until total seconds_per_bar).

Lemma seconds_per_bar_pos : (0 < seconds_per_bar)%Q.
Proof. lra. Qed.

(** A bar loop whose body keeps [P], run from bar [k] on the fuel left for
    the remaining bars, returns with [P] at the last bar. *)
Lemma while_bars (body : BarState -> result BarState) (P : nat -> BarState -> Prop) :
  (forall k st, P k st -> (bar_time st == inject_Z (Z.of_nat k) * seconds_per_bar)%Q) ->
  (forall k st, P k st -> exists st', body st = Ok st' /\ P (S k) st') ->
  forall (n k : nat) (st : BarState),
    P k st -> (k + n = nbars)%nat ->
    exists st', while_loop n (bar_cond total) body st = Ok st' /\ P nbars st'.
Proof.
  intros Htime Hstep. induction n as [| n IH]; intros k st HP Hk.
  - assert (k = nbars) as -> by lia. exists st. split; [| done].
    simpl. unfold bar_cond.
    replace (Qltb (bar_time st) total) with false; [done |].
    symmetry. apply Qltb_ge. rewrite (Htime _ _ HP).
    apply Qnot_lt_le. intros H.
    apply bars_until_spec in H; [| apply seconds_per_bar_pos].
    lia.
  - simpl. unfold bar_cond at 1.
    replace (Qltb (bar_time st) total) with true.
    + destruct (Hstep k st HP) as (st1 & -> & HP1). simpl.
      apply (IH (S k)); [done | lia].
    + symmetry. apply Qltb_lt. rewrite (Htime _ _ HP).
      apply bars_until_spec; [apply seconds_per_bar_pos |]. lia.
Qed.

Lemma chord_root (k : nat) :
  py_getitem CHORD_PROGRESSION (Z.to_nat (Z.of_nat k mod 4))
  = Ok (nth (k mod 4) CHORD_PROGRESSION 0).
Proof.
  replace (Z.to_nat (Z.of_nat k mod 4)) with (k mod 4)%nat
    by (rewrite <- (Nat2Z.id (k mod 4)), Nat2Z.inj_mod; done).
  assert (H : (k mod 4 < 4)%nat) by (apply Nat.mod_upper_bound; lia).
  destruct (k mod 4)%nat as [| [| [| [| j]]]]; try done. lia.
Qed.

Lemma bass_body_step (k : nat) (st : BarState) :
  bass_at seconds_per_beat total k st ->
  exists st', bass_body seconds_per_beat total st = Ok st' /\
              bass_at seconds_per_beat total (S k) st'.
Proof.
  intros (Ht & Hi & Hnotes). unfold bass_body. rewrite Hi, chord_root. simpl.
  eexists. split; [done |]. split; [| split]; cbn [bar_time bar_index bar_notes].
  - rewrite Ht. rewrite Nat2Z.inj_succ. unfold Z.succ. rewrite inject_Z_plus.
    ring.
  - lia.
  - rewrite seq_S, flat_map_app. simpl. rewrite app_nil_r.
    apply Forall2_app; [done |].
    unfold bass_bar.
    rewrite (Qltb_comp (bar_time st + seconds_per_beat * 2)
               (inject_Z (Z.of_nat k) * seconds_per_bar + seconds_per_beat * 2)
               total total) by (by rewrite Ht || done).
    constructor.
    + repeat split; simpl; [done | by rewrite Ht].
    + destruct (Qltb _ total); [| constructor].
      constructor; [| constructor].
      repeat split; simpl; by rewrite Ht.
Qed.

Lemma bass_loop_result (c : nat) :
  exists st',
    while_loop nbars (bar_cond total) (bass_body seconds_per_beat total)
      {| bar_time := 0; bar_index := 0; bar_notes := []; bar_draws := c |} = Ok st' /\
    Forall2 same_note (bar_notes st')
      (flat_map (bass_bar seconds_per_beat total) (seq 0 nbars)).
Proof.
  destruct (while_bars (bass_body seconds_per_beat total)
              (bass_at seconds_per_beat total)) with
    (n := nbars) (k := O)
    (st := {| bar_time := 0; bar_index := 0; bar_notes := []; bar_draws := c |})
    as (st' & E & _ & _ & H).
  - by intros k st (H & _).
  - apply bass_body_step.
  - split; [simpl; ring |]. split; [done | constructor].
  - done.
  - by exists st'.
Qed.

Lemma drum_loop_result (g : Rng) (c : nat) :
  exists st',
    while_loop nbars (bar_cond total) (drum_body g seconds_per_beat total)
      {| bar_time := 0; bar_index := 0; bar_notes := []; bar_draws := c |} = Ok st'.
Proof.
  destruct (while_bars (drum_body g seconds_per_beat total)
              (fun k st => (bar_time st == inject_Z (Z.of_nat k) * seconds_per_bar)%Q))
    with (n := nbars) (k := O)
      (st := {| bar_time := 0; bar_index := 0; bar_notes := []; bar_draws := c |})
    as (st' & E & _).
  - done.
  - intros k st Ht. unfold drum_body.
    destruct (if _ : bool then _ else _) as [hits c']. eexists. split; [done |].
    simpl. rewrite Ht, Nat2Z.inj_succ. unfold Z.succ. rewrite inject_Z_plus.
    ring.
  - simpl. ring.
  - done.
  - by exists st'.
Qed.

End BarLoops.

Lemma melody_loop_result (g : Rng) (seconds_per_beat : Q) (notes : list NoteDict)
    (st : EnhancedMidiGenerator.MelodyState) :
  ~ (seconds_per_beat == 0)%Q ->
  Forall playable_note notes ->
  EnhancedMidiGenerator.total_duration st
    = melody_total (EnhancedMidiGenerator.melody_notes st) ->
  exists st',
    for_each (EnhancedMidiGenerator.melody_body g seconds_per_beat) notes st = Ok st' /\
    EnhancedMidiGenerator.total_duration st'
      = melody_total (EnhancedMidiGenerator.melody_notes st').
Proof.
  intros Hbeat Hall. revert st.
  induction Hall as [| n notes (Hs & He & Hp) _ IH]; intros st Htotal; simpl.
  - by exists st.
  - unfold EnhancedMidiGenerator.melody_body, dict_getitem.
    destruct Hs as [s ->], He as [e ->], Hp as [p ->]. simpl.
    rewrite py_truediv_ok by done. simpl.
    apply IH. simpl. unfold melody_total. rewrite fold_left_app. simpl.
    by rewrite Htotal.
Qed.

(** C7.  When the imports and the construction of the score succeed and
    every melody note has its start, end and pitch,
    [notes_to_midi_base64] builds and serialises a score whose second
    track, "Bass", holds for each bar whose start cursor
    [k * seconds_per_bar] lies before the melody's total duration exactly
    the notes of [bass_bar]: the chord root [CHORD_PROGRESSION[k mod 4]] for
    two beats at velocity 90, then the same pitch over beats 3-4 at
    velocity 85 only if that note starts before the total duration; and no
    other note. *)
Theorem bass_track_follows_chord_progression
    (env : MidiEnv) (g : Rng) (c0 : nat) (notes : list NoteDict)
    (tempo : Z) (genre : string) :
  import_error env = None -> score_error env tempo = None ->
  Forall playable_note notes ->
  exists melody bass drums,
    let pm := {| PrettyMidi.initial_tempo := tempo;
                 PrettyMidi.instruments := [melody; bass; drums] |} in
    EnhancedMidiGenerator.compose env g c0 notes tempo genre = Ok pm /\
    EnhancedMidiGenerator.notes_to_midi_base64 env g c0 notes tempo genre
      = try_except (write_base64 env pm) (fun _ => Ok EmptyString) /\
    PrettyMidi.name bass = "Bass"%string /\
    let beat := seconds_per_beat_at tempo in
    let total := melody_total (PrettyMidi.notes melody) in
    exists nbars : nat,
      (forall k : nat,
         (k < nbars)%nat <-> (inject_Z (Z.of_nat k) * (beat * 4) < total)%Q) /\
      Forall2 same_note (PrettyMidi.notes bass)
        (flat_map (bass_bar beat total) (seq 0 nbars)).
Proof.
  intros Himport Hscore Hnotes.
  pose proof (seconds_per_beat_pos tempo) as Hbeat.
  unfold EnhancedMidiGenerator.notes_to_midi_base64.
  unfold EnhancedMidiGenerator.compose.
  rewrite Himport, Hscore. cbn [mbind result_mbind result_bind library_call].
  fold (seconds_per_beat_at tempo).
  destruct (melody_loop_result g (seconds_per_beat_at tempo) notes
              {| EnhancedMidiGenerator.melody_notes := [];
                 EnhancedMidiGenerator.total_duration := 0;
                 EnhancedMidiGenerator.draws := c0 |})
    as (mel & -> & Htotal); [lra | done | done |].
  cbn [mbind result_mbind result_bind].
  destruct (bass_loop_result (seconds_per_beat_at tempo)
              (EnhancedMidiGenerator.total_duration mel) Hbeat
              (EnhancedMidiGenerator.draws mel)) as (bass & -> & Hbass).
  cbn [mbind result_mbind result_bind].
  destruct (drum_loop_result (seconds_per_beat_at tempo)
              (EnhancedMidiGenerator.total_duration mel) Hbeat g
              (EnhancedMidiGenerator.draws mel)) as (drums & ->).
  cbn [mbind result_mbind result_bind].
  eexists _, _, _. split; [reflexivity |]. split; [reflexivity |]. split; [done |].
  cbn [PrettyMidi.notes]. rewrite <- Htotal.
  eexists. split; [| exact Hbass].
  intros k. apply bars_until_spec. lra.
Qed.

Lemma bass_track_follows_chord_progression_witness :
  exists melody bass drums,
    let pm := {| PrettyMidi.initial_tempo := 120;
                 PrettyMidi.instruments := [melody; bass; drums] |} in
    EnhancedMidiGenerator.compose env0 rng0 0
      [note_data 64 0.5 0.875 0.5 0.375; note_data 64 1 1.375 0.5 0.375;
       note_data 67 2.5 3.25 1.5 0.75] 120 "pop" = Ok pm /\
    EnhancedMidiGenerator.notes_to_midi_base64 env0 rng0 0
      [note_data 64 0.5 0.875 0.5 0.375; note_data 64 1 1.375 0.5 0.375;
       note_data 67 2.5 3.25 1.5 0.75] 120 "pop"
      = try_except (write_base64 env0 pm) (fun _ => Ok EmptyString) /\
    PrettyMidi.name bass = "Bass"%string /\
    let beat := seconds_per_beat_at 120 in
    let total := melody_total (PrettyMidi.notes melody) in
    exists nbars : nat,
      (forall k : nat,
         (k < nbars)%nat <-> (inject_Z (Z.of_nat k) * (beat * 4) < total)%Q) /\
      Forall2 same_note (PrettyMidi.notes bass)
        (flat_map (bass_bar beat total) (seq 0 nbars)).
Proof.
  apply (bass_track_follows_chord_progression env0 rng0 0
           [note_data 64 0.5 0.875 0.5 0.375; note_data 64 1 1.375 0.5 0.375;
            note_data 67 2.5 3.25 1.5 0.75] 120 "pop").
  - reflexivity.
  - reflexivity.
  - repeat constructor; by eexists.
Defined.

(* ===================================================================== *)
(** * Further properties: rounding and the quantizer                      *)
(* ===================================================================== *)

Lemma py_round_comp (x y : Q) : (x == y)%Q -> py_round x = py_round y.
Proof.
  intros H. unfold py_round.
  rewrite (Qfloor_comp x y H).
  assert (Hsub : (x - inject_Z (Qfloor y) == y - inject_Z (Qfloor y))%Q)
    by (by rewrite H).
  by rewrite (Qcompare_comp _ _ Hsub _ _ (Qeq_refl (1 # 2))).
Qed.

Lemma py_round_error (x : Q) :
  (- (1 # 2) <= x - inject_Z (py_round x) <= 1 # 2)%Q.
Proof.
  unfold py_round.
  pose proof (Qfloor_le x) as Hlo. pose proof (Qlt_floor x) as Hhi.
  rewrite inject_Z_plus in Hhi. change (inject_Z 1) with 1%Q in Hhi.
  destruct (x - inject_Z (Qfloor x) ?= 1 # 2)%Q eqn:E.
  - apply Qeq_alt in E.
    destruct (Z.even (Qfloor x)); [lra |].
    rewrite inject_Z_plus. change (inject_Z 1) with 1%Q. lra.
  - apply Qlt_alt in E. lra.
  - apply Qgt_alt in E. rewrite inject_Z_plus. change (inject_Z 1) with 1%Q. lra.
Qed.

Lemma py_round_Z (n : Z) : py_round (inject_Z n) = n.
Proof.
  unfold py_round. rewrite Qfloor_Z.
  replace (inject_Z n - inject_Z n ?= 1 # 2)%Q with Lt; [done |].
  symmetry. apply Qlt_alt.
  assert (E : (inject_Z n - inject_Z n == 0)%Q) by ring.
  by rewrite E.
Qed.

Lemma quantized_distance (value grid : Q) :
  (0 < grid)%Q ->
  (value - grid / 2 <= inject_Z (py_round (value / grid)) * grid <= value + grid / 2)%Q.
Proof.
  intros Hgrid. pose proof (py_round_error (value / grid)) as [Hlo Hhi].
  set (n := inject_Z (py_round (value / grid))) in *. clearbody n.
  assert (Hv : (value == value / grid * grid)%Q) by (field; lra).
  apply (Qmult_le_compat_r _ _ grid) in Hlo; [| lra].
  apply (Qmult_le_compat_r _ _ grid) in Hhi; [| lra].
  assert (E : ((value / grid - n) * grid == value - n * grid)%Q).
  { rewrite Hv at 2. ring. }
  rewrite E in Hlo, Hhi. set (q := (n * grid)%Q) in *. clearbody q.
  clear Hv E. split; lra_half.
Qed.

(** Above 0.05, on a positive grid, [quantize_duration] returns at least
    one grid unit, never more than half a unit below the value, and never
    more than half a unit above it unless it is the one unit of the
    clamp. *)
Theorem quantize_duration_within_half_grid (value grid : Q) :
  (0 < grid)%Q -> (0.05 < value)%Q ->
  exists r,
    MusicTheory.quantize_duration value grid = Ok r /\
    (grid <= r)%Q /\
    (value - grid / 2 <= r)%Q /\
    (r <= value + grid / 2 \/ r = grid)%Q.
Proof.
  intros Hgrid Hvalue. unfold MusicTheory.quantize_duration.
  replace (Qle_bool value 0.05) with false.
  2:{ symmetry. apply Qltb_lt in Hvalue. unfold Qltb in Hvalue.
      by apply negb_true_iff in Hvalue. }
  rewrite py_truediv_ok by lra. simpl.
  pose proof (quantized_distance value grid Hgrid) as [Hlo Hhi].
  pose proof (py_round_error (value / grid)) as [_ Herr].
  destruct (Qeq_bool _ 0) eqn:Hz; simpl.
  - apply Qltb_lt in Hvalue as ->. exists grid.
    split; [done |]. split; [lra |]. split; [| by right].
    apply Qeq_bool_iff in Hz. lra.
  - replace (Qeq_bool _ 0 && Qltb 0.05 value) with false by (by rewrite Hz).
    eexists. split; [done |]. split; [| split; [done | by left]].
    apply Qeq_bool_neq in Hz.
    assert (Hn : 1 <= py_round (value / grid)).
    { assert (0 < value / grid)%Q by (apply Qlt_shift_div_l; lra).
      assert (Hge : (- (1 # 2) < inject_Z (py_round (value / grid)))%Q) by lra.
      assert (Hne : py_round (value / grid) <> 0).
      { intros H0. apply Hz. rewrite H0. ring. }
      assert (-1 < py_round (value / grid)); [| lia].
      rewrite Zlt_Qlt. change (inject_Z (-1)) with (-1)%Q. lra. }
    rewrite Zle_Qle in Hn. change (inject_Z 1) with 1%Q in Hn.
    apply (Qmult_le_compat_r _ _ grid) in Hn; [| lra]. lra.
Qed.

Lemma quantize_duration_within_half_grid_witness :
  exists r,
    MusicTheory.quantize_duration 0.4 0.125 = Ok r /\
    (0.125 <= r)%Q /\
    (0.4 - 0.125 / 2 <= r)%Q /\
    (r <= 0.4 + 0.125 / 2 \/ r = 0.125)%Q.
Proof.
  apply (quantize_duration_within_half_grid 0.4 0.125); by vm_compute.
Defined.

(** On a grid above 0.05 (as the grid 0.125 of the generation loop)
    [quantize_duration] is idempotent: quantizing a quantized value
    returns it. *)
Theorem quantize_duration_idempotent (value grid : Q) :
  (0.05 < grid)%Q ->
  exists r r',
    MusicTheory.quantize_duration value grid = Ok r /\
    MusicTheory.quantize_duration r grid = Ok r' /\
    (r' == r)%Q.
Proof.
  intros Hgrid.
  destruct (Qlt_le_dec 0.05 value) as [Hbig | Hsmall].
  - destruct (quantize_duration_within_half_grid value grid) as (r & E & Hge & _);
      [lra | done |].
    exists r.
    assert (Hr : exists n : Z, 1 <= n /\ (r == inject_Z n * grid)%Q).
    { revert E. unfold MusicTheory.quantize_duration.
      destruct (Qle_bool value 0.05); [intros [= <-]; lra |].
      rewrite py_truediv_ok by lra. simpl.
      destruct (_ && _).
      - intros [= <-]. exists 1. split; [lia | ring].
      - intros [= <-]. exists (py_round (value / grid)). split; [| done].
        assert (0 < py_round (value / grid)); [| lia].
        rewrite Zlt_Qlt. change (inject_Z 0) with 0%Q.
        set (n := inject_Z (py_round (value / grid))) in *. clearbody n.
        destruct (Qlt_le_dec 0 n) as [Hn | Hn]; [done |].
        apply (Qmult_le_compat_r _ _ grid) in Hn; [| lra]. lra. }
    destruct Hr as (n & Hn & Hr).
    assert (Hround : py_round (r / grid) = n).
    { rewrite <- (py_round_Z n). apply py_round_comp. rewrite Hr. field. lra. }
    rewrite E. unfold MusicTheory.quantize_duration.
    replace (Qle_bool r 0.05) with false.
    2:{ symmetry. destruct (Qle_bool r 0.05) eqn:E'; [| done].
        apply Qle_bool_iff in E'. lra. }
    rewrite py_truediv_ok by lra. cbn [mbind result_mbind result_bind].
    rewrite Hround.
    replace (Qeq_bool (inject_Z n * grid) 0) with false.
    2:{ symmetry. destruct (Qeq_bool _ 0) eqn:E'; [| done].
        apply Qeq_bool_iff in E'. lra. }
    cbn [andb]. eexists. split; [done |]. split; [done |]. by rewrite Hr.
  - exists 0%Q, 0%Q. unfold MusicTheory.quantize_duration.
    apply Qle_bool_iff in Hsmall. rewrite Hsmall. done.
Qed.

Lemma quantize_duration_idempotent_witness :
  exists r r',
    MusicTheory.quantize_duration 0.4 0.125 = Ok r /\
    MusicTheory.quantize_duration r 0.125 = Ok r' /\
    (r' == r)%Q.
Proof.
  apply (quantize_duration_idempotent 0.4 0.125). by vm_compute.
Defined.

(* ===================================================================== *)
(** * Further properties: the scale constraint                            *)
(* ===================================================================== *)

Lemma py_min_from_spec (m : Z) (l : list Z) :
  (py_min_from m l = m \/ py_min_from m l ∈ l) /\
  py_min_from m l <= m /\
  Forall (fun x => py_min_from m l <= x) l.
Proof.
  revert m. induction l as [| x l IH]; intros m; simpl.
  - split; [by left |]. split; [lia | constructor].
  - destruct (IH (if x <? m then x else m)) as (Hin & Hle & Hall).
    destruct (x <? m) eqn:E.
    + apply Z.ltb_lt in E. split; [| split; [lia |]].
      * right. destruct Hin as [-> | Hin]; [by left | by right].
      * constructor; [lia | done].
    + apply Z.ltb_ge in E. split; [| split; [lia |]].
      * destruct Hin as [Hin | Hin]; [by left | right; by right].
      * constructor; [lia | done].
Qed.

Lemma py_index_spec (x : Z) (l : list Z) :
  x ∈ l -> exists i, py_index x l = Ok i /\ l !! i = Some x.
Proof.
  induction l as [| y l IH]; intros Hin; [by apply elem_of_nil in Hin |].
  simpl. destruct (y =? x) eqn:E.
  - apply Z.eqb_eq in E. subst. by exists O.
  - apply Z.eqb_neq in E. apply elem_of_cons in Hin as [-> | Hin]; [done |].
    destruct (IH Hin) as (i & -> & Hi). by exists (S i).
Qed.

(** On a non-empty scale the scale member picked is one at the least
    distance from the pitch class. *)
Lemma nearest_note_spec (note : Z) (scale : list Z) :
  scale <> [] ->
  exists n, nearest_note note scale = Ok n /\ n ∈ scale /\
            Forall (fun s => Z.abs (note - n) <= Z.abs (note - s)) scale.
Proof.
  intros Hne. unfold nearest_note.
  destruct scale as [| s0 scale]; [done |].
  set (f := fun s => Z.abs (note - s)).
  change (map f (s0 :: scale)) with (f s0 :: map f scale).
  cbn [py_min mbind result_mbind result_bind].
  destruct (py_min_from_spec (f s0) (map f scale)) as (Hin & Hle & Hall).
  set (d := py_min_from (f s0) (map f scale)) in *.
  assert (Hd : d ∈ f s0 :: map f scale).
  { destruct Hin as [-> | Hin]; [by left | by right]. }
  destruct (py_index_spec d _ Hd) as (i & -> & Hi).
  cbn [mbind result_mbind result_bind].
  change (f s0 :: map f scale) with (map f (s0 :: scale)) in Hi.
  rewrite list_lookup_fmap in Hi.
  unfold py_getitem. destruct ((s0 :: scale) !! i) as [n |] eqn:En; [| done].
  simpl in Hi. injection Hi as Hi. exists n. split; [done |].
  split; [by eapply list_elem_of_lookup_2 |].
  change (Forall (fun s => f n <= f s) (s0 :: scale)). rewrite Hi.
  constructor; [done |].
  rewrite Forall_forall in Hall. apply Forall_forall. intros s Hs.
  apply Hall. by apply (list_elem_of_fmap_2 f).
Qed.

(** For a pitch in 0..127: an empty scale makes [constrain_to_scale] raise
    [ValueError]; on a non-empty scale it returns the pitch itself when its
    class is in the scale, and otherwise the pitch of the same octave whose
    class is a scale member nearest to the class of the pitch. *)
Theorem constrain_to_scale_nearest_member (p : Z) (scale : list Z) :
  0 <= p <= 127 ->
  MusicTheory.constrain_to_scale p [] = Raise ValueError /\
  (scale <> [] ->
   exists r, MusicTheory.constrain_to_scale p scale = Ok r /\
     (p mod 12 ∈ scale -> r = p) /\
     (p mod 12 ∉ scale ->
      exists n, n ∈ scale /\ r = p / 12 * 12 + n /\
        Forall (fun s => Z.abs (p mod 12 - n) <= Z.abs (p mod 12 - s)) scale)).
Proof.
  intros Hp. split.
  - unfold MusicTheory.constrain_to_scale.
    by replace ((p <? 0) || (p >? 127)) with false
      by (symmetry; apply orb_false_iff; lia).
  - intros Hne. destruct (decide (p mod 12 ∈ scale)) as [Hin | Hout].
    + exists p. split; [by apply constrain_in_scale |]. by split.
    + destruct (nearest_note_spec (p mod 12) scale Hne) as (n & E & Hn & Hmin).
      exists (p / 12 * 12 + n). rewrite constrain_out_of_scale, E by done.
      split; [done |]. split; [done |]. intros _. by exists n.
Qed.

Lemma constrain_to_scale_nearest_member_witness :
  MusicTheory.constrain_to_scale 66 [] = Raise ValueError /\
  ([1; 9] <> [] ->
   exists r, MusicTheory.constrain_to_scale 66 [1; 9] = Ok r /\
     (66 mod 12 ∈ [1; 9] -> r = 66) /\
     (66 mod 12 ∉ [1; 9] ->
      exists n, n ∈ [1; 9] /\ r = 66 / 12 * 12 + n /\
        Forall (fun s => Z.abs (66 mod 12 - n) <= Z.abs (66 mod 12 - s)) [1; 9])).
Proof. apply (constrain_to_scale_nearest_member 66 [1; 9]). lia. Defined.

(** On the four scales of [SCALES] a pitch in 0..127 keeps its octave and
    moves by at most two semitones. *)
Theorem constrain_to_scale_same_octave (name : string) (S : list Z) (p : Z) :
  MusicTheory.SCALES !! name = Some S -> 0 <= p <= 127 ->
  exists r, MusicTheory.constrain_to_scale p S = Ok r /\
            r / 12 = p / 12 /\ Z.abs (r - p) <= 2.
Proof.
  intros HS Hp.
  assert (H : stays_close S p = true).
  { revert p Hp.
    assert (Hall : forall q, 0 <= q < Z.of_nat 128 -> stays_close S q = true).
    { apply forallb_pitch_range.
      destruct (SCALES_inv _ _ HS) as [-> | [-> | [-> | ->]]]; by vm_compute. }
    intros p Hp. apply Hall. lia. }
  unfold stays_close in H.
  destruct (MusicTheory.constrain_to_scale p S) as [r| |]; [| done | done].
  exists r. apply andb_true_iff in H as [H1 H2]. split; [done |]. lia.
Qed.

Lemma constrain_to_scale_same_octave_witness :
  exists r, MusicTheory.constrain_to_scale 71 MusicTheory.pentatonic = Ok r /\
            r / 12 = 71 / 12 /\ Z.abs (r - 71) <= 2.
Proof.
  apply (constrain_to_scale_same_octave "pentatonic" MusicTheory.pentatonic 71);
    [reflexivity | lia].
Defined.

(* ===================================================================== *)
(** * Further properties: the seed window                                 *)
(* ===================================================================== *)

Lemma for_each_collect {A B : Type} (f : A -> result B) (g : A -> B)
    (l : list A) (acc : list B) :
  (forall a, a ∈ l -> f a = Ok (g a)) ->
  for_each (fun a seed => row ← f a; Ok (seed ++ [row])) l acc = Ok (acc ++ map g l).
Proof.
  revert acc. induction l as [| a l IH]; intros acc Hf; simpl.
  - by rewrite app_nil_r.
  - rewrite (Hf a) by by left. simpl. rewrite IH.
    + by rewrite <- app_assoc.
    + intros b Hb. apply Hf. by right.
Qed.

Lemma seed_row_padding (start_pitch : Z) (v s d : Q) (i : nat) :
  (i < 15)%nat ->
  SeedGenerator.seed_row start_pitch v s d i = Ok (seed_entry start_pitch v s d i).
Proof.
  intros Hi. unfold SeedGenerator.seed_row, seed_entry.
  by replace (i <? 15)%nat with true by (symmetry; apply Nat.ltb_lt; lia).
Qed.

Lemma seed_row_motif (start_pitch : Z) (v s d : Q) (i : nat) :
  ~ (v == 0)%Q -> ~ (s == 0)%Q -> ~ (d == 0)%Q ->
  SeedGenerator.seed_row start_pitch v s d i = Ok (seed_entry start_pitch v s d i).
Proof.
  intros Hv Hs Hd. unfold SeedGenerator.seed_row, seed_entry.
  destruct (i <? 15)%nat; [done |]. by rewrite !py_truediv_ok.
Qed.

(** With non-zero normalisation constants [generate_smart_seed] returns
    exactly [seq_length] rows: the zero triple at positions below 15, and at
    position [i >= 15] the pitch [start + (i - 15) mod 5], the step 0.5 and
    the duration 0.4, each divided by its constant; [start] is the genre's
    start pitch, 60 for an unknown genre. *)
Theorem generate_smart_seed_rows (genre : string) (seq_length : Z) (v s d : Q) :
  ~ (v == 0)%Q -> ~ (s == 0)%Q -> ~ (d == 0)%Q ->
  exists seed,
    SeedGenerator.generate_smart_seed genre seq_length v s d = Ok seed /\
    length seed = Z.to_nat seq_length /\
    forall i : nat, (i < Z.to_nat seq_length)%nat ->
      seed !! i =
      Some (seed_entry
              (dict_get SeedGenerator.GENRE_START_PITCH (py_lower genre) 60) v s d i).
Proof.
  intros Hv Hs Hd. unfold SeedGenerator.generate_smart_seed.
  rewrite (for_each_collect _ (seed_entry _ v s d))
    by (intros i _; by apply seed_row_motif).
  eexists. split; [done |]. simpl. split.
  - unfold py_range. by rewrite length_map, length_seq.
  - intros i Hi. unfold py_range.
    change (map ?f ?l) with (f <$> l).
    by rewrite list_lookup_fmap, lookup_seq_lt.
Qed.

Lemma generate_smart_seed_rows_witness :
  exists seed,
    SeedGenerator.generate_smart_seed "jazz" 25 128 1 1 = Ok seed /\
    length seed = Z.to_nat 25 /\
    forall i : nat, (i < Z.to_nat 25)%nat ->
      seed !! i =
      Some (seed_entry
              (dict_get SeedGenerator.GENRE_START_PITCH (py_lower "jazz") 60) 128 1 1 i).
Proof.
  apply (generate_smart_seed_rows "jazz" 25 128 1 1); by vm_compute.
Defined.

(** A seed of at most 15 rows is all padding and is built without any
    division, whatever the constants; a longer one needs all three
    constants: if one of them is zero the call raises
    [ZeroDivisionError]. *)
Theorem generate_smart_seed_zero_constant (genre : string) (seq_length : Z) (v s d : Q) :
  (v == 0 \/ s == 0 \/ d == 0)%Q ->
  (seq_length <= 15 ->
   SeedGenerator.generate_smart_seed genre seq_length v s d
     = Ok (replicate (Z.to_nat seq_length) (0, 0, 0)%Q)) /\
  (15 < seq_length ->
   SeedGenerator.generate_smart_seed genre seq_length v s d = Raise ZeroDivisionError).
Proof.
  intros Hzero. unfold SeedGenerator.generate_smart_seed, py_range.
  set (start := dict_get _ _ _). split; intros Hlen.
  - rewrite (for_each_collect _ (seed_entry start v s d)).
    + simpl. f_equal.
      assert (H : forall n k, (k + n <= 15)%nat ->
                map (seed_entry start v s d) (seq k n) = replicate n (0, 0, 0)%Q).
      { induction n as [| n IH]; intros k Hk; simpl; [done |].
        rewrite IH by lia. unfold seed_entry.
        by replace (k <? 15)%nat with true by (symmetry; apply Nat.ltb_lt; lia). }
      apply H. lia.
    + intros i Hi. apply list_elem_of_In, in_seq in Hi. apply seed_row_padding. lia.
  - replace (Z.to_nat seq_length) with (15 + S (Z.to_nat seq_length - 16))%nat by lia.
    rewrite seq_app, for_each_app.
    rewrite (for_each_collect _ (seed_entry start v s d)).
    + cbn [mbind result_mbind result_bind]. simpl seq. cbn [for_each].
      assert (E : SeedGenerator.seed_row start v s d 15 = Raise ZeroDivisionError).
      { unfold SeedGenerator.seed_row, py_truediv. simpl.
        destruct (Qeq_bool v 0) eqn:Ev; [done |]. simpl.
        destruct (Qeq_bool s 0) eqn:Es; [done |]. simpl.
        destruct (Qeq_bool d 0) eqn:Ed; [done |].
        apply Qeq_bool_neq in Ev, Es, Ed. tauto. }
      by rewrite E.
    + intros i Hi. apply list_elem_of_In, in_seq in Hi. apply seed_row_padding. lia.
Qed.

Lemma generate_smart_seed_zero_constant_witness :
  (25 <= 15 ->
   SeedGenerator.generate_smart_seed "pop" 25 128 0 1
     = Ok (replicate (Z.to_nat 25) (0, 0, 0)%Q)) /\
  (15 < 25 ->
   SeedGenerator.generate_smart_seed "pop" 25 128 0 1 = Raise ZeroDivisionError).
Proof.
  apply (generate_smart_seed_zero_constant "pop" 25 128 0 1). right. by left.
Defined.

(* ===================================================================== *)
(** * Further properties: the generation loop                             *)
(* ===================================================================== *)

(** One successful iteration, in full. *)
Lemma loop_body_step self m scale tempo (i : nat) (st st' : LoopState) :
  loop_body self m scale tempo i st = Ok st' ->
  exists (praw : Z) (sraw draw : Q) (p : Z) (qs qd : Q),
    predict_next_note i (input_notes st) m (temperature st) = Ok (praw, sraw, draw) /\
    MusicTheory.constrain_to_scale praw scale = Ok p /\
    MusicTheory.quantize_duration sraw 0.125 = Ok qs /\
    MusicTheory.quantize_duration draw 0.125 = Ok qd /\
    ~ (vocab_size self == 0)%Q /\ ~ (max_step self == 0)%Q /\
    ~ (max_duration self == 0)%Q /\
    let step := py_maxQ 0.125 qs in
    let dur := py_maxQ 0.125 qd in
    let start := (prev_start st + step * tempo_scale tempo)%Q in
    st' = {| input_notes :=
               tail (input_notes st) ++
               [((inject_Z p / vocab_size self)%Q, (step / max_step self)%Q,
                 (dur / max_duration self)%Q)];
             prev_start := start;
             temperature :=
               if (0 <? i)%nat && (i mod 16 =? 0)%nat
               then toggle_temperature (temperature st) else temperature st;
             generated_notes :=
               generated_notes st ++
               [note_data p start (start + dur * tempo_scale tempo)
                  (step * tempo_scale tempo) (dur * tempo_scale tempo)] |}.
Proof.
  unfold loop_body. intros H.
  bind_ok H. destruct a as [[praw sraw] draw]. simpl in H.
  bind_ok H. bind_ok H. bind_ok H.
  unfold py_truediv in H.
  destruct (Qeq_bool (vocab_size self) 0) eqn:Ev; [done |]. simpl in H.
  destruct (Qeq_bool (max_step self) 0) eqn:Es; [done |]. simpl in H.
  destruct (Qeq_bool (max_duration self) 0) eqn:Ed; [done |]. simpl in H.
  apply Qeq_bool_neq in Ev, Es, Ed.
  injection H as <-. by eexists praw, sraw, draw, _, _, _.
Qed.

Lemma loop_state_Ok_S self m scale tempo seed temp (k : nat) (st' : LoopState) :
  loop_state self m scale tempo seed temp (S k) = Ok st' ->
  exists st, loop_state self m scale tempo seed temp k = Ok st /\
             loop_body self m scale tempo k st = Ok st'.
Proof.
  rewrite loop_state_S. intros H.
  destruct (loop_state self m scale tempo seed temp k) as [st| |]; [| done | done].
  by exists st.
Qed.

Lemma stub_model_always_predicts : always_predicts stub_model.
Proof. intros k notes temp. by eexists. Qed.

Lemma default_service_normalisable (m : option Model) : normalisable (default_service m).
Proof. by repeat split. Qed.

Lemma loop_state_total self m (name : string) (scale : list Z) tempo seed temp (k : nat) :
  always_predicts m -> normalisable self ->
  MusicTheory.SCALES !! name = Some scale -> (0 < temp)%Q ->
  exists st, loop_state self m scale tempo seed temp k = Ok st.
Proof.
  intros Hm Hn Hscale Ht. unfold loop_state.
  by apply (for_each_loop_body_total self m name scale tempo).
Qed.

Lemma generate_with_constraints_total self m total_notes seed tempo genre temp :
  always_predicts m -> normalisable self -> (0 < temp)%Q ->
  exists notes,
    generate_with_constraints self m total_notes seed tempo genre temp = Ok notes.
Proof.
  intros Hm Hn Ht. unfold generate_with_constraints.
  destruct (get_scale_for_genre_ok genre) as (name & scale & Hscale & ->).
  cbn [mbind result_mbind result_bind].
  destruct (for_each_loop_body_total self m name scale tempo
              (py_range total_notes) (loop_init seed temp)) as [st ->]; try done.
  by eexists.
Qed.

Lemma window_fed_total self m seed tempo genre temp (k : nat) :
  always_predicts m -> normalisable self -> (0 < temp)%Q ->
  exists w, window_fed self m seed tempo genre temp k = Ok w.
Proof.
  intros Hm Hn Ht. unfold window_fed.
  destruct (get_scale_for_genre_ok genre) as (name & scale & Hscale & ->).
  cbn [mbind result_mbind result_bind].
  destruct (loop_state_total self m name scale tempo seed temp k) as [st ->]; try done.
  by eexists.
Qed.

(** The rolling window keeps the length of a non-empty seed: every push
    drops the oldest row. *)
Theorem context_window_keeps_its_length
    (self : MelodyServiceV2) (m : Model) (seed : list NormalizedNote)
    (tempo : Z) (genre : string) (temp : Q) (k : nat) (w : list NormalizedNote) :
  seed <> [] ->
  window_fed self m seed tempo genre temp k = Ok w ->
  length w = length seed.
Proof.
  intros Hseed. unfold window_fed.
  destruct (MusicTheory.get_scale_for_genre genre) as [scale| |]; [| done | done].
  simpl. revert w. induction k as [| k IH]; intros w H.
  - unfold loop_state in H. simpl in H. by injection H as <-.
  - bind_ok H. injection H as <-.
    destruct (loop_state_Ok_S _ _ _ _ _ _ _ _ E) as (st & Est & Hbody).
    specialize (IH (input_notes st)). rewrite Est in IH. specialize (IH eq_refl).
    destruct (loop_body_step _ _ _ _ _ _ _ Hbody)
      as (? & ? & ? & ? & ? & ? & _ & _ & _ & _ & _ & _ & _ & ->).
    simpl. rewrite length_app. simpl.
    destruct (input_notes st) as [| row rows]; simpl in *; [| lia].
    destruct seed; [done | simpl in IH; lia].
Qed.

Lemma context_window_keeps_its_length_witness :
  exists w,
    window_fed (default_service (Some stub_model)) stub_model pop_seed 120 "pop" 1.1 3
      = Ok w /\
    length w = length pop_seed.
Proof.
  destruct (window_fed_total (default_service (Some stub_model)) stub_model pop_seed
              120 "pop" 1.1 3 stub_model_always_predicts
              (default_service_normalisable _) ltac:(done)) as [w E].
  exists w. split; [exact E |].
  by apply (context_window_keeps_its_length
              (default_service (Some stub_model)) stub_model pop_seed 120 "pop" 1.1 3).
Defined.

Lemma toggle_count_step (k : nat) :
  ((S k - 1) / 16)%nat =
  (if (0 <? k)%nat && (k mod 16 =? 0)%nat then S ((k - 1) / 16) else (k - 1) / 16)%nat.
Proof.
  replace (S k - 1)%nat with k by lia.
  pose proof (Nat.div_mod_eq k 16) as Hk.
  pose proof (Nat.mod_upper_bound k 16 ltac:(lia)) as Hkb.
  pose proof (Nat.div_mod_eq (k - 1) 16) as Hp.
  pose proof (Nat.mod_upper_bound (k - 1) 16 ltac:(lia)) as Hpb.
  destruct (0 <? k)%nat eqn:E0; cbn [andb].
  - apply Nat.ltb_lt in E0. destruct (k mod 16 =? 0)%nat eqn:E1.
    + apply Nat.eqb_eq in E1.
      set (a := (k / 16)%nat) in *. set (b := ((k - 1) / 16)%nat) in *.
      set (r := ((k - 1) mod 16)%nat) in *. set (q := (k mod 16)%nat) in *.
      clearbody a b r q. lia.
    + apply Nat.eqb_neq in E1.
      set (a := (k / 16)%nat) in *. set (b := ((k - 1) / 16)%nat) in *.
      set (r := ((k - 1) mod 16)%nat) in *. set (q := (k mod 16)%nat) in *.
      clearbody a b r q. lia.
  - apply Nat.ltb_ge in E0. by replace k with O by lia.
Qed.

Lemma toggle_temperature_values (t : Q) :
  toggle_temperature t = 0.9%Q \/ toggle_temperature t = 1.2%Q.
Proof. unfold toggle_temperature. destruct (Qltb 1 t); [by left | by right]. Qed.

(** The temperature the loop passes to call [k] is fixed by the starting
    temperature and [k] alone, whatever the model answers and whatever the
    tempo: the starting temperature up to call 16, then one toggle after
    each iteration 16, 32, ...; from call 17 on it is 0.9 or 1.2. *)
Theorem temperature_follows_schedule
    (self : MelodyServiceV2) (m : Model) (scale : list Z) (tempo : Z)
    (seed : list NormalizedNote) (temp : Q) (k : nat) (st : LoopState) :
  loop_state self m scale tempo seed temp k = Ok st ->
  temperature st = temperature_at temp k /\
  ((k <= 16)%nat -> temperature st = temp) /\
  ((17 <= k)%nat -> temperature st = 0.9%Q \/ temperature st = 1.2%Q).
Proof.
  intros H.
  assert (Hsched : temperature st = temperature_at temp k).
  { revert st H. induction k as [| k IH]; intros st H.
    - unfold loop_state in H. simpl in H. by injection H as <-.
    - destruct (loop_state_Ok_S _ _ _ _ _ _ _ _ H) as (st0 & Est & Hbody).
      specialize (IH st0 Est).
      destruct (loop_body_step _ _ _ _ _ _ _ Hbody)
        as (? & ? & ? & ? & ? & ? & _ & _ & _ & _ & _ & _ & _ & ->).
      simpl. unfold temperature_at. rewrite toggle_count_step.
      destruct (_ && _); simpl; by rewrite IH. }
  split; [done |]. rewrite Hsched. unfold temperature_at. split; intros Hk.
  - replace ((k - 1) / 16)%nat with O; [done |].
    symmetry. apply Nat.div_small. lia.
  - assert (Hpos : (1 <= (k - 1) / 16)%nat).
    { apply Nat.div_le_lower_bound; lia. }
    destruct ((k - 1) / 16)%nat as [| j]; [lia |].
    simpl. apply toggle_temperature_values.
Qed.

Lemma temperature_follows_schedule_witness :
  exists st,
    loop_state (default_service (Some stub_model)) stub_model MusicTheory.major 120
      pop_seed 1 18 = Ok st /\
    temperature st = temperature_at 1 18 /\
    ((18 <= 16)%nat -> temperature st = 1%Q) /\
    ((17 <= 18)%nat -> temperature st = 0.9%Q \/ temperature st = 1.2%Q).
Proof.
  destruct (loop_state_total (default_service (Some stub_model)) stub_model "major"
              MusicTheory.major 120 pop_seed 1 18 stub_model_always_predicts
              (default_service_normalisable _) eq_refl ltac:(done)) as [st E].
  exists st. split; [exact E |].
  by apply (temperature_follows_schedule (default_service (Some stub_model)) stub_model
              MusicTheory.major 120 pop_seed 1 18).
Defined.

Lemma quantize_loop_value (value qs : Q) :
  MusicTheory.quantize_duration value 0.125 = Ok qs ->
  exists n : Z, 1 <= n /\ (py_maxQ 0.125 qs == inject_Z n * 0.125)%Q.
Proof.
  unfold MusicTheory.quantize_duration.
  destruct (Qle_bool value 0.05); [intros [= <-]; by exists 1 |].
  rewrite py_truediv_ok by done. cbn [mbind result_mbind result_bind].
  destruct (_ && _); [intros [= <-]; by exists 1 |].
  intros [= <-]. unfold py_maxQ.
  set (n := py_round (value / 0.125)).
  destruct (Qltb 0.125 (inject_Z n * 0.125)) eqn:E; [| by exists 1].
  exists n. split; [| done].
  apply Qltb_lt in E.
  assert (H : (1 < inject_Z n)%Q).
  { generalize dependent (inject_Z n). intros q E.
    destruct (Qlt_le_dec 1 q) as [H | H]; [done | clear - E H; lra]. }
  change 1%Q with (inject_Z 1) in H. rewrite <- Zlt_Qlt in H. lia.
Qed.

Lemma constrained_pitch_in_scale (name : string) (S : list Z) (praw p : Z) :
  MusicTheory.SCALES !! name = Some S ->
  MusicTheory.constrain_to_scale praw S = Ok p ->
  0 <= p <= 127 /\ p mod 12 ∈ S.
Proof.
  intros HS E. pose proof (snaps_into_scale_all name S praw HS) as H.
  unfold snaps_into_scale in H. rewrite E in H.
  apply andb_true_iff in H as [H _]. apply andb_true_iff in H as [H Hhi].
  apply andb_true_iff in H as [Hmem Hlo]. apply py_in_spec in Hmem.
  split; [lia | done].
Qed.

Lemma loop_body_note self m (name : string) (scale : list Z) tempo (i : nat)
    (st st' : LoopState) :
  MusicTheory.SCALES !! name = Some scale ->
  loop_body self m scale tempo i st = Ok st' ->
  exists (p : Z) (step dur : Q),
    generated_notes st' =
      generated_notes st ++
      [note_data p (prev_start st + step) (prev_start st + step + dur) step dur] /\
    prev_start st' = (prev_start st + step)%Q /\
    (0 < step)%Q /\
    well_formed_note scale tempo
      (note_data p (prev_start st + step) (prev_start st + step + dur) step dur).
Proof.
  intros Hscale H.
  destruct (loop_body_step _ _ _ _ _ _ _ H)
    as (praw & sraw & draw & p & qs & qd & _ & Hp & Hs & Hd & _ & _ & _ & ->).
  destruct (constrained_pitch_in_scale _ _ _ _ Hscale Hp) as [Hrange Hmem].
  destruct (quantize_loop_value _ _ Hs) as (ks & Hks & Eks).
  destruct (quantize_loop_value _ _ Hd) as (kd & Hkd & Ekd).
  pose proof (tempo_scale_pos tempo) as Hts.
  exists p, (py_maxQ 0.125 qs * tempo_scale tempo)%Q,
    (py_maxQ 0.125 qd * tempo_scale tempo)%Q.
  split; [done |]. split; [done |]. split.
  - apply Qmult_lt_0_compat; [| done].
    apply Qlt_le_trans with 0.125%Q; [done | apply py_maxQ_ge_l].
  - eexists p, _, _, _, ks, kd. split; [done |]. split; [done |]. split; [done |].
    split; [done |]. split; [by rewrite Eks |]. split; [done | by rewrite Ekd].
Qed.

Lemma chained_snoc (t0 t : Q) (l : list NoteDict) (p : Z) (e step d : Q) :
  (0 < step)%Q ->
  chained t0 l t ->
  chained t0 (l ++ [note_data p (t + step) e step d]) (t + step).
Proof.
  intros Hstep. induction 1 as [t | t q e' s' d' rest t' Hs Hrest IH]; simpl.
  - constructor; [done | constructor].
  - by constructor.
Qed.

Lemma for_each_loop_body_notes self m (name : string) (scale : list Z) tempo
    (l : list nat) (st st' : LoopState) :
  MusicTheory.SCALES !! name = Some scale ->
  for_each (loop_body self m scale tempo) l st = Ok st' ->
  Forall (well_formed_note scale tempo) (generated_notes st) ->
  chained 0 (generated_notes st) (prev_start st) ->
  Forall (well_formed_note scale tempo) (generated_notes st') /\
  chained 0 (generated_notes st') (prev_start st').
Proof.
  intros Hscale. revert st. induction l as [| i l IH]; intros st H Hwf Hch; simpl in H.
  - by injection H as <-.
  - bind_ok H.
    destruct (loop_body_note _ _ _ _ _ _ _ _ Hscale E)
      as (p & step & dur & Hnotes & Hprev & Hstep & Hnote).
    apply IH in H; [done | |].
    + rewrite Hnotes. apply Forall_app. split; [done | by constructor].
    + rewrite Hnotes, Hprev. by apply chained_snoc.
Qed.

(** Every note [_generate_with_constraints] returns has a pitch in 0..127
    whose class is in the genre's scale, a step and a duration that are
    whole numbers (at least one) of 0.125-second grid units times the tempo
    scale, and [end = start + duration]. *)
Theorem generated_notes_well_formed
    (self : MelodyServiceV2) (m : Model) (total_notes : Z)
    (seed : list NormalizedNote) (tempo : Z) (genre : string) (temp : Q)
    (notes : list NoteDict) :
  generate_with_constraints self m total_notes seed tempo genre temp = Ok notes ->
  exists scale,
    MusicTheory.get_scale_for_genre genre = Ok scale /\
    Forall (well_formed_note scale tempo) notes.
Proof.
  unfold generate_with_constraints.
  destruct (get_scale_for_genre_ok genre) as (name & scale & Hscale & ->).
  simpl. intros H. bind_ok H. injection H as <-.
  exists scale. split; [done |].
  eapply for_each_loop_body_notes in E as [Hwf _]; try done; simpl; constructor.
Qed.

Lemma generated_notes_well_formed_witness :
  exists notes scale,
    generate_with_constraints (default_service (Some stub_model)) stub_model 3
      pop_seed 90 "rock" 1.1 = Ok notes /\
    MusicTheory.get_scale_for_genre "rock" = Ok scale /\
    Forall (well_formed_note scale 90) notes.
Proof.
  destruct (generate_with_constraints_total (default_service (Some stub_model))
              stub_model 3 pop_seed 90 "rock" 1.1 stub_model_always_predicts
              (default_service_normalisable _) ltac:(done)) as [notes E].
  destruct (generated_notes_well_formed (default_service (Some stub_model)) stub_model
              3 pop_seed 90 "rock" 1.1 notes E) as (scale & Hs & Hwf).
  by exists notes, scale.
Defined.

Lemma chained_starts (t t' : Q) (l : list NoteDict) :
  chained t l t' ->
  (forall n, l !! O = Some n ->
     exists s step, float_field "start" n s /\ float_field "step" n step /\
                    s = (t + step)%Q /\ (0 < step)%Q) /\
  (forall (i : nat) a b, l !! i = Some a -> l !! S i = Some b ->
     exists sa sb step,
       float_field "start" a sa /\ float_field "start" b sb /\
       float_field "step" b step /\ sb = (sa + step)%Q /\ (sa < sb)%Q).
Proof.
  induction 1 as [t | t p e step d rest t' Hstep Hrest [IHhead IHnext]].
  - split; [intros n Hn | intros i a b Ha]; done.
  - split.
    + intros n [= <-]. exists (t + step)%Q, step.
      split; [apply note_data_lookup |]. split; [apply note_data_lookup | done].
    + intros [| i] a b Ha Hb; simpl in Ha, Hb.
      * injection Ha as <-.
        destruct (IHhead b Hb) as (sb & stb & Hsb & Hstb & -> & Hpos).
        exists (t + step)%Q, (t + step + stb)%Q, stb.
        split; [apply note_data_lookup |]. split; [done |]. split; [done |].
        split; [done | lra].
      * by apply (IHnext i).
Qed.

(** The emitted timeline: the first note starts exactly its own step after
    0, every later note exactly its own step after the previous note's
    start, and every step is positive, so the starts increase strictly. *)
Theorem generated_notes_timeline
    (self : MelodyServiceV2) (m : Model) (total_notes : Z)
    (seed : list NormalizedNote) (tempo : Z) (genre : string) (temp : Q)
    (notes : list NoteDict) :
  generate_with_constraints self m total_notes seed tempo genre temp = Ok notes ->
  (forall n, notes !! O = Some n ->
     exists s step, float_field "start" n s /\ float_field "step" n step /\
                    s = (0 + step)%Q /\ (0 < step)%Q) /\
  (forall (i : nat) a b, notes !! i = Some a -> notes !! S i = Some b ->
     exists sa sb step,
       float_field "start" a sa /\ float_field "start" b sb /\
       float_field "step" b step /\ sb = (sa + step)%Q /\ (sa < sb)%Q).
Proof.
  unfold generate_with_constraints.
  destruct (get_scale_for_genre_ok genre) as (name & scale & Hscale & ->).
  simpl. intros H. bind_ok H. injection H as <-.
  assert (Hch : chained 0 (generated_notes a) (prev_start a)).
  { eapply for_each_loop_body_notes in E as [_ Hch]; try done; simpl; constructor. }
  by apply chained_starts in Hch.
Qed.

Lemma generated_notes_timeline_witness :
  exists notes,
    generate_with_constraints (default_service (Some stub_model)) stub_model 3
      pop_seed 90 "rock" 1.1 = Ok notes /\
    (forall n, notes !! O = Some n ->
       exists s step, float_field "start" n s /\ float_field "step" n step /\
                      s = (0 + step)%Q /\ (0 < step)%Q) /\
    (forall (i : nat) a b, notes !! i = Some a -> notes !! S i = Some b ->
       exists sa sb step,
         float_field "start" a sa /\ float_field "start" b sb /\
         float_field "step" b step /\ sb = (sa + step)%Q /\ (sa < sb)%Q).
Proof.
  destruct (generate_with_constraints_total (default_service (Some stub_model))
              stub_model 3 pop_seed 90 "rock" 1.1 stub_model_always_predicts
              (default_service_normalisable _) ltac:(done)) as [notes E].
  exists notes. split; [exact E |].
  by apply (generated_notes_timeline (default_service (Some stub_model)) stub_model
              3 pop_seed 90 "rock" 1.1).
Defined.

(** The row pushed into the window for a note is the note before tempo
    scaling, normalised: its pitch over [vocab_size], and its step and
    duration, divided by the tempo scale, over [max_step] and
    [max_duration]. *)
Theorem feedback_row_is_unscaled_note
    (self : MelodyServiceV2) (m : Model) (seed : list NormalizedNote)
    (tempo : Z) (genre : string) (temp : Q) (k : nat) (notes : list NoteDict) :
  generate_with_constraints self m (Z.of_nat (S k)) seed tempo genre temp = Ok notes ->
  exists (w : list NormalizedNote) (p : Z) (start e step d a b c : Q),
    window_fed self m seed tempo genre temp (S k) = Ok w /\
    last notes = Some (note_data p start e step d) /\
    last w = Some (a, b, c) /\
    (a * vocab_size self == inject_Z p)%Q /\
    (b * max_step self * tempo_scale tempo == step)%Q /\
    (c * max_duration self * tempo_scale tempo == d)%Q.
Proof.
  unfold generate_with_constraints, window_fed, py_range.
  rewrite Nat2Z.id.
  destruct (MusicTheory.get_scale_for_genre genre) as [scale| |]; [| done | done].
  cbn [mbind result_mbind result_bind].
  change (for_each (loop_body self m scale tempo) (seq 0 (S k)) (loop_init seed temp))
    with (loop_state self m scale tempo seed temp (S k)).
  destruct (loop_state self m scale tempo seed temp (S k)) as [st'| |] eqn:E;
    [| done | done].
  cbn [mbind result_mbind result_bind]. intros [= <-].
  destruct (loop_state_Ok_S _ _ _ _ _ _ _ _ E) as (st & _ & Hbody).
  destruct (loop_body_step _ _ _ _ _ _ _ Hbody)
    as (praw & sraw & draw & p & qs & qd & _ & _ & _ & _ & Hv & Hs & Hd & ->).
  cbn [input_notes generated_notes]. eexists _, p, _, _, _, _, _, _, _.
  split; [done |]. rewrite !last_snoc.
  split; [done |]. split; [done |].
  split; [by field |]. split; by field.
Qed.

Lemma feedback_row_is_unscaled_note_witness :
  exists (notes : list NoteDict) (w : list NormalizedNote) (p : Z)
         (start e step d a b c : Q),
    generate_with_constraints (default_service (Some stub_model)) stub_model
      (Z.of_nat 3) pop_seed 240 "pop" 1.1 = Ok notes /\
    window_fed (default_service (Some stub_model)) stub_model pop_seed 240 "pop" 1.1 3
      = Ok w /\
    last notes = Some (note_data p start e step d) /\
    last w = Some (a, b, c) /\
    (a * vocab_size (default_service (Some stub_model)) == inject_Z p)%Q /\
    (b * max_step (default_service (Some stub_model)) * tempo_scale 240 == step)%Q /\
    (c * max_duration (default_service (Some stub_model)) * tempo_scale 240 == d)%Q.
Proof.
  destruct (generate_with_constraints_total (default_service (Some stub_model))
              stub_model (Z.of_nat 3) pop_seed 240 "pop" 1.1 stub_model_always_predicts
              (default_service_normalisable _) ltac:(done)) as [notes E].
  destruct (feedback_row_is_unscaled_note (default_service (Some stub_model)) stub_model
              pop_seed 240 "pop" 1.1 2 notes E)
    as (w & p & start & e & step & d & a & b & c & H).
  exists notes, w, p, start, e, step, d, a, b, c. split; [exact E | exact H].
Defined.

Lemma predict_next_note_Ok_temperature (k : nat) (w : list NormalizedNote) (m : Model)
    (t : Q) (out : Z * Q * Q) :
  predict_next_note k w m t = Ok out -> (0 < t)%Q.
Proof.
  unfold predict_next_note. destruct (Qltb 0 t) eqn:E; [| done].
  intros _. by apply Qltb_lt.
Qed.

Lemma loop_body_Raise self m (name : string) (scale : list Z) tempo (i : nat)
    (st : LoopState) (e : exn) :
  MusicTheory.SCALES !! name = Some scale ->
  loop_body self m scale tempo i st = Raise e ->
  (e = AssertionError /\ (temperature st <= 0)%Q) \/
  (e = ZeroDivisionError /\ ~ normalisable self) \/
  m i (input_notes st) (temperature st) = Raise e.
Proof.
  intros Hscale. unfold loop_body, predict_next_note.
  destruct (Qltb 0 (temperature st)) eqn:Et.
  2:{ intros [= <-]. left. split; [done | by apply Qltb_ge]. }
  destruct (m i (input_notes st) (temperature st)) as [[[p s] d]| e' |] eqn:Em;
    cbn [mbind result_mbind result_bind]; [| intros [= <-]; by right; right | done].
  destruct (constrain_to_scale_total name scale p Hscale) as [p' ->].
  destruct (quantize_duration_total (py_maxQ 0 s) 0.125) as [s' ->]; [done |].
  destruct (quantize_duration_total (py_maxQ 0 d) 0.125) as [d' ->]; [done |].
  cbn [mbind result_mbind result_bind]. unfold py_truediv.
  destruct (Qeq_bool (vocab_size self) 0) eqn:Ev;
    cbn [mbind result_mbind result_bind].
  { intros [= <-]. right. left. split; [done |].
    apply Qeq_bool_iff in Ev. by intros (H & _). }
  destruct (Qeq_bool (max_step self) 0) eqn:Es;
    cbn [mbind result_mbind result_bind].
  { intros [= <-]. right. left. split; [done |].
    apply Qeq_bool_iff in Es. by intros (_ & H & _). }
  destruct (Qeq_bool (max_duration self) 0) eqn:Ed;
    cbn [mbind result_mbind result_bind]; [| done].
  intros [= <-]. right. left. split; [done |].
  apply Qeq_bool_iff in Ed. by intros (_ & _ & H).
Qed.

(** The loop itself raises only the assertion on a non-positive starting
    temperature and the division by a zero normalisation constant; any other
    exception of [_generate_with_constraints] is one the model raised.  In
    particular the scale constraint and the quantizer never raise inside the
    loop. *)
Theorem generation_loop_exceptions
    (self : MelodyServiceV2) (m : Model) (total_notes : Z)
    (seed : list NormalizedNote) (tempo : Z) (genre : string) (temp : Q) (e : exn) :
  generate_with_constraints self m total_notes seed tempo genre temp = Raise e ->
  (e = AssertionError /\ (temp <= 0)%Q) \/
  (e = ZeroDivisionError /\ ~ normalisable self) \/
  (exists k w t, m k w t = Raise e).
Proof.
  unfold generate_with_constraints.
  destruct (get_scale_for_genre_ok genre) as (name & scale & Hscale & ->).
  cbn [mbind result_mbind result_bind].
  assert (H : forall l st,
            for_each (loop_body self m scale tempo) l st = Raise e ->
            (e = AssertionError /\ (temperature st <= 0)%Q) \/
            (e = ZeroDivisionError /\ ~ normalisable self) \/
            (exists k w t, m k w t = Raise e)).
  { induction l as [| i l IH]; intros st H; [done |].
    cbn [for_each] in H.
    destruct (loop_body self m scale tempo i st) as [st1 | e1 |] eqn:E;
      cbn [mbind result_mbind result_bind] in H; [| | done].
    - destruct (IH st1 H) as [[-> Ht] | Hrest]; [| by right].
      exfalso.
      destruct (loop_body_step _ _ _ _ _ _ _ E) as (? & ? & ? & ? & ? & ? & Hp & _).
      apply predict_next_note_Ok_temperature in Hp.
      destruct (loop_body_Ok _ _ _ _ _ _ _ E) as (_ & _ & _ & _ & _ & _ & _ & Hpos).
      specialize (Hpos Hp). lra.
    - injection H as ->.
      destruct (loop_body_Raise _ _ _ _ _ _ _ _ Hscale E) as [H | [H | H]];
        [by left | by right; left | right; right; by eexists _, _, _]. }
  intros Hgen.
  destruct (for_each _ _ _) as [st | e1 |] eqn:E; [done | | done].
  injection Hgen as ->. by apply (H _ _ E).
Qed.

Lemma generation_loop_exceptions_witness :
  (RuntimeError "inference failed" = AssertionError /\ (1.1 <= 0)%Q) \/
  (RuntimeError "inference failed" = ZeroDivisionError /\
   ~ normalisable (default_service (Some failing_model))) \/
  (exists k w t, failing_model k w t = Raise (RuntimeError "inference failed")).
Proof.
  apply (generation_loop_exceptions (default_service (Some failing_model)) failing_model
           48 pop_seed 120 "pop" 1.1).
  by vm_compute.
Defined.

(* ===================================================================== *)
(** * Further properties: the demo generator                            *)
(* ===================================================================== *)

Lemma choice_elem_of (g : Rng) (c : nat) (l : list Z) :
  l <> [] -> choice g c l ∈ l.
Proof.
  intros Hl. unfold choice. apply list_elem_of_In, nth_In.
  assert (0 < Z.of_nat (length l)) by (destruct l; [done | simpl; lia]).
  pose proof (Z.mod_pos_bound (rand_int g c) (Z.of_nat (length l)) ltac:(lia)).
  lia.
Qed.

Lemma last_default (l : list Z) (d d' : Z) :
  l <> [] -> List.last l d = List.last l d'.
Proof.
  induction l as [| q l IH]; [done |]. intros _.
  destruct l as [| q' l]; [done |]. by apply IH.
Qed.

Lemma small_leaps_snoc (prev : Z) (l : list Z) (p : Z) :
  small_leaps prev l -> Z.abs (p - List.last l prev) <= 5 -> small_leaps prev (l ++ [p]).
Proof.
  revert prev. induction l as [| q l IH]; intros prev H Hp.
  - done.
  - destruct H as [Hq Hl]. split; [done |]. apply IH; [done |].
    destruct l as [| q' l]; [done |].
    by rewrite (last_default (q' :: l) q prev).
Qed.

Lemma last_snoc_default (l : list Z) (p d : Z) : List.last (l ++ [p]) d = p.
Proof. by rewrite List.last_last. Qed.

Lemma note_pitch_demo_note (p : Z) (s d t : Q) : note_pitch (demo_note p s d t) = p.
Proof. reflexivity. Qed.

Lemma demo_config_scale (genre : string) :
  demo_config genre ∈ [pop_config; jazz_config; classical_config; rock_config].
Proof.
  unfold demo_config, dict_get.
  destruct (genre_configs !! py_lower genre) as [config |] eqn:E; [| set_solver].
  unfold genre_configs in E.
  repeat (apply lookup_insert_Some in E as [[_ <-] | [_ E]]; [set_solver |]).
  by rewrite lookup_empty in E.
Qed.

Lemma middle_pitch_in_scale (genre : string) :
  middle_pitch (demo_config genre) ∈ cfg_scale (demo_config genre).
Proof.
  pose proof (demo_config_scale genre) as H.
  repeat (apply elem_of_cons in H as [-> | H]; [vm_compute; set_solver |]).
  by apply elem_of_nil in H.
Qed.

Lemma demo_body_invariant (g : Rng) (config : DemoConfig) (c0 i : nat) (st : DemoState) :
  demo_invariant config c0 st ->
  demo_invariant config c0 (demo_body g config i st) /\
  filter (fun p => Z.abs (p - prev_pitch st) <= 5) (cfg_scale config) <> [].
Proof.
  intros [Hprev Hlast Hscale Hleaps Hdraws].
  assert (Hne : filter (fun p => Z.abs (p - prev_pitch st) <= 5) (cfg_scale config) <> []).
  { intros E.
    assert (H : prev_pitch st ∈ filter (fun p => Z.abs (p - prev_pitch st) <= 5)
                                  (cfg_scale config)).
    { apply list_elem_of_filter. split; [lia | done]. }
    rewrite E in H. by apply elem_of_nil in H. }
  split; [| done].
  unfold demo_body.
  destruct (filter (fun p => Z.abs (p - prev_pitch st) <= 5) (cfg_scale config))
    as [| q choices] eqn:E; [done |].
  pose proof (choice_elem_of g (dm_draws st) (q :: choices) ltac:(done)) as Hpick.
  rewrite <- E in Hpick. apply list_elem_of_filter in Hpick as [Hclose Hmem].
  rewrite E in *.
  split; cbn [prev_pitch dm_notes dm_draws];
    rewrite ?map_app; cbn [map]; rewrite ?note_pitch_demo_note.
  - done.
  - by rewrite last_snoc_default.
  - apply Forall_app. split; [done |]. by constructor.
  - apply small_leaps_snoc; [done |]. by rewrite Hlast.
  - rewrite length_app. simpl. lia.
Qed.

Lemma demo_loop_invariant (g : Rng) (c0 : nat) (num_notes tempo : Z) (genre : string) :
  demo_invariant (demo_config genre) c0 (demo_loop g c0 num_notes tempo genre).
Proof.
  unfold demo_loop. fold (demo_config genre).
  fold (middle_pitch (demo_config genre)).
  generalize (py_range num_notes). intros l.
  assert (H0 : demo_invariant (demo_config genre) c0
                 {| dm_notes := []; current_time := 0;
                    prev_pitch := middle_pitch (demo_config genre); dm_draws := c0 |}).
  { split; cbn [prev_pitch dm_notes dm_draws map]; try done.
    apply middle_pitch_in_scale. }
  revert H0. generalize {| dm_notes := []; current_time := 0;
                    prev_pitch := middle_pitch (demo_config genre); dm_draws := c0 |}.
  induction l as [| i l IH]; intros st H; simpl; [done |].
  apply IH. by apply demo_body_invariant.
Qed.

(** The demo generator walks its genre's scale in small leaps: every pitch
    it emits is a member of the scale of the genre's entry in the table
    (the "pop" entry for an unknown genre), the first at most five semitones
    from the middle of the scale and each later one at most five semitones
    from the pitch before it.  The list of candidates
    [[p for p in scale if abs(p - prev_pitch) <= 5]] is never empty, so the
    fallback to the whole scale is never taken; and every note costs three
    draws of the generator. *)
Theorem demo_melody_walks_scale_in_small_leaps
    (g : Rng) (c0 : nat) (num_notes tempo : Z) (genre : string) :
  let config := demo_config genre in
  let st := demo_loop g c0 num_notes tempo genre in
  let pitches := map note_pitch (generate_demo_melody g c0 num_notes tempo genre) in
  Forall (fun p => p ∈ cfg_scale config) pitches /\
  small_leaps (middle_pitch config) pitches /\
  filter (fun p => Z.abs (p - prev_pitch st) <= 5) (cfg_scale config) <> [] /\
  dm_draws st = (c0 + 3 * Z.to_nat num_notes)%nat.
Proof.
  intros config st pitches. subst config st pitches.
  pose proof (demo_loop_invariant g c0 num_notes tempo genre) as Hinv.
  destruct (demo_body_invariant g (demo_config genre) c0 0 _ Hinv) as [_ Hne].
  destruct Hinv as [Hprev Hlast Hscale Hleaps Hdraws].
  unfold generate_demo_melody.
  repeat split; try done.
  rewrite Hdraws.
  destruct (generate_demo_melody_shape g c0 num_notes tempo genre) as [_ Hlen].
  unfold generate_demo_melody in Hlen. by rewrite Hlen.
Qed.

Lemma timeline_snoc (t : Q) (steps : list Q) (s : Q) :
  timeline t (steps ++ [s]) = timeline t steps ++ [(fold_left Qplus steps t, s)].
Proof.
  revert t. induction steps as [| s' steps IH]; intros t; simpl; [done |].
  by rewrite IH.
Qed.

Lemma timeline_next (t : Q) (steps : list Q) (i : nat) (a b : Q * Q) :
  timeline t steps !! i = Some a -> timeline t steps !! S i = Some b ->
  b.1 = (a.1 + a.2)%Q.
Proof.
  revert t i. induction steps as [| s steps IH]; intros t i Ha Hb; [done |].
  destruct i as [| i].
  - simpl in Ha. injection Ha as <-. destruct steps as [| s' steps]; [done |].
    simpl in Hb. by injection Hb as <-.
  - simpl in Ha, Hb. by apply (IH _ _ Ha Hb).
Qed.

Lemma timeline_first (t : Q) (steps : list Q) (a : Q * Q) :
  timeline t steps !! 0%nat = Some a -> a.1 = t.
Proof. destruct steps; [done |]. simpl. by intros [= <-]. Qed.

Lemma py_round3_error (x : Q) : (- 0.0005 <= py_round3 x - x <= 0.0005)%Q.
Proof.
  unfold py_round3. pose proof (py_round_error (x * 1000)) as H.
  generalize dependent (inject_Z (py_round (x * 1000))). intros r H.
  unfold Qdiv. change (/ 1000)%Q with (1 # 1000)%Q. lra.
Qed.

Lemma demo_fold_timeline (g : Rng) (config : DemoConfig) (l : list nat) (st : DemoState)
    (steps : list Q) :
  Forall2 demo_note_at (dm_notes st) (timeline 0 steps) ->
  current_time st = fold_left Qplus steps 0%Q ->
  exists steps',
    Forall2 demo_note_at
      (dm_notes (fold_left (fun st i => demo_body g config i st) l st))
      (timeline 0 steps').
Proof.
  revert st steps. induction l as [| i l IH]; intros st steps Hnotes Htime; simpl.
  - by exists steps.
  - eapply (IH _ (steps ++ [_])).
    + unfold demo_body. cbn [dm_notes]. rewrite timeline_snoc.
      apply Forall2_app; [done |]. constructor; [| constructor].
      rewrite <- Htime. by eexists _, _.
    + unfold demo_body. cbn [current_time]. rewrite fold_left_app. simpl.
      by rewrite <- Htime.
Qed.

(** The demo notes' [start_time] is the rounded running sum of the
    unrounded steps, while [step] is rounded on its own: the first note
    starts at 0, and each later note starts where the note before it
    started plus that note's step, up to the three roundings to three
    decimals (at most 0.0015). *)
Theorem demo_start_times_follow_steps
    (g : Rng) (c0 : nat) (num_notes tempo : Z) (genre : string) :
  let notes := generate_demo_melody g c0 num_notes tempo genre in
  (forall n, notes !! 0%nat = Some n -> exists t, float_field "start_time" n t /\ (t == 0)%Q) /\
  (forall (i : nat) n1 n2, notes !! i = Some n1 -> notes !! S i = Some n2 ->
     exists t1 s1 t2,
       float_field "start_time" n1 t1 /\ float_field "step" n1 s1 /\
       float_field "start_time" n2 t2 /\
       (- 0.0015 <= t2 - (t1 + s1) <= 0.0015)%Q).
Proof.
  intros notes. subst notes. unfold generate_demo_melody, demo_loop.
  match goal with
  | |- context [fold_left ?f ?l ?st] =>
      destruct (demo_fold_timeline g (dict_get genre_configs (py_lower genre) pop_config)
                  l st []) as [steps H]; [constructor | done |];
      generalize dependent (dm_notes (fold_left f l st))
  end.
  intros notes H. split.
  - intros n Hn.
    destruct (Forall2_lookup_l _ _ _ _ _ H Hn) as (a & Ha & p & d & ->).
    apply timeline_first in Ha. rewrite Ha.
    exists (py_round3 0). split; [done | by vm_compute].
  - intros i n1 n2 H1 H2.
    destruct (Forall2_lookup_l _ _ _ _ _ H H1) as (a & Ha & p1 & d1 & ->).
    destruct (Forall2_lookup_l _ _ _ _ _ H H2) as (b & Hb & p2 & d2 & ->).
    pose proof (timeline_next _ _ _ _ _ Ha Hb) as Hnext.
    exists (py_round3 a.1), (py_round3 a.2), (py_round3 b.1).
    split; [done |]. split; [done |]. split; [done |].
    rewrite Hnext.
    pose proof (py_round3_error a.1). pose proof (py_round3_error a.2).
    pose proof (py_round3_error (a.1 + a.2)). lra.
Qed.

(* ===================================================================== *)
(** * Further properties: the MIDI export                               *)
(* ===================================================================== *)

Lemma randint_range (g : Rng) (c : nat) (lo hi : Z) :
  lo < hi -> lo <= randint g c lo hi < hi.
Proof.
  intros H. unfold randint.
  pose proof (Z.mod_pos_bound (rand_int g c) (hi - lo) ltac:(lia)). lia.
Qed.

Lemma melody_body_Ok (g : Rng) (seconds_per_beat : Q) (n : NoteDict)
    (st st' : EnhancedMidiGenerator.MelodyState) :
  EnhancedMidiGenerator.melody_body g seconds_per_beat n st = Ok st' ->
  exists m,
    EnhancedMidiGenerator.melody_notes st' = EnhancedMidiGenerator.melody_notes st ++ [m] /\
    mirrors n m /\
    EnhancedMidiGenerator.total_duration st'
      = py_maxQ (EnhancedMidiGenerator.total_duration st) (PrettyMidi.end_ m) /\
    EnhancedMidiGenerator.draws st' = S (EnhancedMidiGenerator.draws st).
Proof.
  unfold EnhancedMidiGenerator.melody_body, dict_getitem.
  destruct (n !! "start"%string) as [s |] eqn:Es; [| done].
  destruct (n !! "end"%string) as [e |] eqn:Ee; [| done].
  cbn [mbind result_mbind result_bind].
  destruct (py_truediv (py_float s) seconds_per_beat) as [beats | |];
    cbn [mbind result_mbind result_bind]; [| done | done].
  destruct (n !! "pitch"%string) as [p |] eqn:Ep; [| done].
  cbn [mbind result_mbind result_bind]. intros [= <-].
  eexists. split; [reflexivity |]. split; [| done].
  exists s, e, p. cbn [PrettyMidi.start PrettyMidi.end_ PrettyMidi.pitch PrettyMidi.velocity].
  repeat split; try done.
  all: pose proof (randint_range g (EnhancedMidiGenerator.draws st) (-5) 6 ltac:(lia)).
  all: repeat match goal with |- context [if ?b then _ else _] => destruct b end; lia.
Qed.

Lemma melody_body_returns (g : Rng) (seconds_per_beat : Q) (n : NoteDict)
    (st : EnhancedMidiGenerator.MelodyState) :
  EnhancedMidiGenerator.melody_body g seconds_per_beat n st <> OutOfFuel.
Proof.
  unfold EnhancedMidiGenerator.melody_body, dict_getitem, py_truediv.
  destruct (n !! "start"%string); [| done].
  destruct (n !! "end"%string); [| done].
  cbn [mbind result_mbind result_bind].
  destruct (Qeq_bool seconds_per_beat 0); [done |].
  cbn [mbind result_mbind result_bind].
  by destruct (n !! "pitch"%string).
Qed.

Lemma for_each_returns {S A : Type} (body : A -> S -> result S) (l : list A) (s : S) :
  (forall a s, body a s <> OutOfFuel) -> for_each body l s <> OutOfFuel.
Proof.
  intros Hbody. revert s. induction l as [| a l IH]; intros s; simpl; [done |].
  destruct (body a s) as [s' | e |] eqn:E; simpl; [apply IH | done | by apply Hbody in E].
Qed.

Lemma melody_loop_Ok (g : Rng) (seconds_per_beat : Q) (notes : list NoteDict)
    (st st' : EnhancedMidiGenerator.MelodyState) :
  for_each (EnhancedMidiGenerator.melody_body g seconds_per_beat) notes st = Ok st' ->
  exists track,
    EnhancedMidiGenerator.melody_notes st' = EnhancedMidiGenerator.melody_notes st ++ track /\
    Forall2 mirrors notes track /\
    EnhancedMidiGenerator.total_duration st'
      = fold_left (fun t n => py_maxQ t (PrettyMidi.end_ n)) track
          (EnhancedMidiGenerator.total_duration st) /\
    EnhancedMidiGenerator.draws st' = (EnhancedMidiGenerator.draws st + length notes)%nat.
Proof.
  revert st. induction notes as [| n notes IH]; intros st H; simpl in H.
  - injection H as <-. exists []. rewrite app_nil_r. repeat split; [constructor | simpl; lia].
  - bind_ok H.
    destruct (melody_body_Ok _ _ _ _ _ E) as (m & Hm & Hmir & Htot & Hdraws).
    destruct (IH _ H) as (track & Ht & Hall & Htot' & Hdraws').
    exists (m :: track). rewrite Ht, Hm, <- app_assoc. split; [done |].
    split; [by constructor |]. split.
    + rewrite Htot'. simpl. by rewrite Htot.
    + rewrite Hdraws', Hdraws. simpl. lia.
Qed.

Lemma mirrors_playable (n : NoteDict) (m : PrettyMidi.Note) :
  mirrors n m -> playable_note n.
Proof. intros (s & e & p & Hs & He & Hp & _). by repeat split. Qed.

(** The score is built whenever the melody loop gets through: the bar
    loops always return. *)
Lemma compose_outcome (env : MidiEnv) (g : Rng) (c0 : nat) (notes : list NoteDict)
    (tempo : Z) (genre : string) :
  (exists e, EnhancedMidiGenerator.compose env g c0 notes tempo genre = Raise e /\
     (import_error env = Some e \/ score_error env tempo = Some e \/
      for_each (EnhancedMidiGenerator.melody_body g (seconds_per_beat_at tempo)) notes
        {| EnhancedMidiGenerator.melody_notes := [];
           EnhancedMidiGenerator.total_duration := 0;
           EnhancedMidiGenerator.draws := c0 |} = Raise e)) \/
  (exists mel bass drums,
     import_error env = None /\ score_error env tempo = None /\
     for_each (EnhancedMidiGenerator.melody_body g (seconds_per_beat_at tempo)) notes
       {| EnhancedMidiGenerator.melody_notes := [];
          EnhancedMidiGenerator.total_duration := 0;
          EnhancedMidiGenerator.draws := c0 |} = Ok mel /\
     let total := EnhancedMidiGenerator.total_duration mel in
     let fuel := EnhancedMidiGenerator.bars_until total (seconds_per_beat_at tempo * 4) in
     while_loop fuel (EnhancedMidiGenerator.bar_cond total)
       (EnhancedMidiGenerator.bass_body (seconds_per_beat_at tempo) total)
       {| EnhancedMidiGenerator.bar_time := 0; EnhancedMidiGenerator.bar_index := 0;
          EnhancedMidiGenerator.bar_notes := [];
          EnhancedMidiGenerator.bar_draws := EnhancedMidiGenerator.draws mel |} = Ok bass /\
     while_loop fuel (EnhancedMidiGenerator.bar_cond total)
       (EnhancedMidiGenerator.drum_body g (seconds_per_beat_at tempo) total)
       {| EnhancedMidiGenerator.bar_time := 0; EnhancedMidiGenerator.bar_index := 0;
          EnhancedMidiGenerator.bar_notes := [];
          EnhancedMidiGenerator.bar_draws := EnhancedMidiGenerator.draws mel |} = Ok drums /\
     EnhancedMidiGenerator.compose env g c0 notes tempo genre =
       Ok {| PrettyMidi.initial_tempo := tempo;
             PrettyMidi.instruments :=
               [ {| PrettyMidi.program :=
                      dict_get EnhancedMidiGenerator.INSTRUMENT_MAP (py_lower genre) 0;
                    PrettyMidi.is_drum := false; PrettyMidi.name := "Melody";
                    PrettyMidi.notes := EnhancedMidiGenerator.melody_notes mel |};
                 {| PrettyMidi.program := 33; PrettyMidi.is_drum := false;
                    PrettyMidi.name := "Bass";
                    PrettyMidi.notes := EnhancedMidiGenerator.bar_notes bass |};
                 {| PrettyMidi.program := 0; PrettyMidi.is_drum := true;
                    PrettyMidi.name := "Drums";
                    PrettyMidi.notes := EnhancedMidiGenerator.bar_notes drums |} ] |}).
Proof.
  pose proof (seconds_per_beat_pos tempo) as Hbeat.
  unfold EnhancedMidiGenerator.compose.
  destruct (import_error env) as [e |] eqn:Himport.
  { left. exists e. split; [done | by left]. }
  destruct (score_error env tempo) as [e |] eqn:Hscore.
  { left. exists e. split; [done | right; by left]. }
  cbn [mbind result_mbind result_bind library_call].
  fold (seconds_per_beat_at tempo).
  destruct (for_each _ notes _) as [mel | e |] eqn:Emel.
  - right. cbn [mbind result_mbind result_bind].
    destruct (bass_loop_result (seconds_per_beat_at tempo)
                (EnhancedMidiGenerator.total_duration mel) Hbeat
                (EnhancedMidiGenerator.draws mel)) as (bass & Ebass & _).
    destruct (drum_loop_result (seconds_per_beat_at tempo)
                (EnhancedMidiGenerator.total_duration mel) Hbeat g
                (EnhancedMidiGenerator.draws mel)) as (drums & Edrums).
    exists mel, bass, drums. rewrite Ebass, Edrums.
    by repeat split.
  - left. exists e. split; [done | right; by right].
  - exfalso. revert Emel. apply for_each_returns. intros a s.
    apply melody_body_returns.
Qed.

Lemma compose_playable (env : MidiEnv) (g : Rng) (c0 : nat) (notes : list NoteDict)
    (tempo : Z) (genre : string) :
  import_error env = None -> score_error env tempo = None ->
  Forall playable_note notes ->
  exists pm, EnhancedMidiGenerator.compose env g c0 notes tempo genre = Ok pm.
Proof.
  intros Himport Hscore Hnotes.
  destruct (compose_outcome env g c0 notes tempo genre)
    as [(e & E & [He | [He | He]]) | (mel & bass & drums & _ & _ & _ & _ & _ & E)];
    [congruence | congruence | | by eexists].
  exfalso.
  destruct (melody_loop_result g (seconds_per_beat_at tempo) notes
              {| EnhancedMidiGenerator.melody_notes := [];
                 EnhancedMidiGenerator.total_duration := 0;
                 EnhancedMidiGenerator.draws := c0 |}) as (mel & Emel & _);
    [pose proof (seconds_per_beat_pos tempo); lra | done | done |].
  congruence.
Qed.

Lemma three_notes_playable : Forall playable_note three_notes.
Proof. repeat constructor; by eexists. Qed.

Lemma midi_export_outcome (env : MidiEnv) (g : Rng) (c0 : nat) (notes : list NoteDict)
    (tempo : Z) (genre : string) :
  write_returns env ->
  exists s,
    EnhancedMidiGenerator.notes_to_midi_base64 env g c0 notes tempo genre = Ok s /\
    create_audio env g c0 notes tempo genre = Ok (data_url s) /\
    (forall pm, EnhancedMidiGenerator.compose env g c0 notes tempo genre = Ok pm ->
       Ok s = try_except (write_base64 env pm) (fun _ => Ok EmptyString)) /\
    (forall e, EnhancedMidiGenerator.compose env g c0 notes tempo genre = Raise e ->
       s = EmptyString).
Proof.
  intros Hwrite.
  unfold create_audio, EnhancedMidiGenerator.notes_to_midi_base64.
  destruct (compose_outcome env g c0 notes tempo genre)
    as [(e & E & _) | (mel & bass & drums & _ & _ & _ & _ & _ & E)];
    rewrite E; cbn [mbind result_mbind result_bind try_except].
  - exists EmptyString. by repeat split.
  - match goal with |- context [write_base64 env ?pm] =>
      destruct (write_base64 env pm) as [s | e |] eqn:Ew end.
    + exists s. cbn [mbind result_mbind result_bind try_except]. split; [done |].
      split; [unfold data_url; by destruct (String.eqb s EmptyString) |].
      split; [| done]. intros pm [= <-]. by rewrite Ew.
    + exists EmptyString. cbn [mbind result_mbind result_bind try_except].
      split; [done |]. split; [done |]. split; [| done].
      intros pm [= <-]. by rewrite Ew.
    + by apply Hwrite in Ew.
Qed.

Lemma data_url_shape (s : string) :
  data_url s = EmptyString \/
  (s <> EmptyString /\ data_url s = ("data:audio/midi;base64," ++ s)%string).
Proof.
  unfold data_url. destruct (String.eqb s EmptyString) eqn:E; [by left |].
  right. split; [| done]. intros ->. by rewrite String.eqb_refl in E.
Qed.

(** When the score is built, its first track mirrors the input notes one
    for one and in order: each MIDI note takes its start, end and pitch from
    the note dictionary, and its velocity 100 + humanize + accent lies
    between 95 and 120, so the clamp to 0..127 never changes it.  The
    program of the track is one of the four of [INSTRUMENT_MAP] (0 for an
    unknown genre), and only the third track is a drum track. *)
Theorem melody_track_mirrors_notes
    (env : MidiEnv) (g : Rng) (c0 : nat) (notes : list NoteDict)
    (tempo : Z) (genre : string) (pm : PrettyMidi.PrettyMIDI) :
  EnhancedMidiGenerator.compose env g c0 notes tempo genre = Ok pm ->
  exists melody bass drums,
    PrettyMidi.instruments pm = [melody; bass; drums] /\
    Forall2 mirrors notes (PrettyMidi.notes melody) /\
    PrettyMidi.program melody ∈ [0; 29; 66; 40] /\
    PrettyMidi.is_drum melody = false /\ PrettyMidi.is_drum bass = false /\
    PrettyMidi.is_drum drums = true.
Proof.
  intros H.
  destruct (compose_outcome env g c0 notes tempo genre)
    as [(e & E & _) | (mel & bass & drums & _ & _ & Emel & _ & _ & E)];
    rewrite E in H; [done |].
  injection H as <-. eexists _, _, _. split; [reflexivity |].
  cbn [PrettyMidi.notes PrettyMidi.program PrettyMidi.is_drum].
  destruct (melody_loop_Ok _ _ _ _ _ Emel) as (track & Ht & Hall & _).
  simpl in Ht. rewrite Ht. split; [done |]. split; [| done].
  unfold dict_get.
  destruct (EnhancedMidiGenerator.INSTRUMENT_MAP !! py_lower genre) as [prog |] eqn:Ep;
    [| set_solver].
  unfold EnhancedMidiGenerator.INSTRUMENT_MAP in Ep.
  repeat (apply lookup_insert_Some in Ep as [[_ <-] | [_ Ep]]; [set_solver |]).
  by rewrite lookup_empty in Ep.
Qed.

Lemma melody_track_mirrors_notes_witness :
  exists pm melody bass drums,
    EnhancedMidiGenerator.compose env0 rng0 0 three_notes 120 "jazz" = Ok pm /\
    PrettyMidi.instruments pm = [melody; bass; drums] /\
    Forall2 mirrors three_notes (PrettyMidi.notes melody) /\
    PrettyMidi.program melody ∈ [0; 29; 66; 40] /\
    PrettyMidi.is_drum melody = false /\ PrettyMidi.is_drum bass = false /\
    PrettyMidi.is_drum drums = true.
Proof.
  destruct (compose_playable env0 rng0 0 three_notes 120 "jazz" eq_refl eq_refl
              three_notes_playable) as [pm E].
  destruct (melody_track_mirrors_notes env0 rng0 0 three_notes 120 "jazz" pm E)
    as (melody & bass & drums & H).
  by exists pm, melody, bass, drums.
Defined.

(** [notes_to_midi_base64] always returns a string, and [_create_audio] the
    data URL of that string (the empty string for the empty string): as long
    as the serialisation itself returns or raises, the export neither raises
    nor runs forever, for any notes, tempo and genre; both bar loops end.
    The string is empty whenever some note of the list lacks one of the
    keys start, end, pitch (the whole export is lost, not only that note),
    and whenever the import or the construction of the score fails. *)
Theorem midi_export_never_raises
    (env : MidiEnv) (g : Rng) (c0 : nat) (notes : list NoteDict)
    (tempo : Z) (genre : string) :
  write_returns env ->
  exists s,
    EnhancedMidiGenerator.notes_to_midi_base64 env g c0 notes tempo genre = Ok s /\
    create_audio env g c0 notes tempo genre = Ok (data_url s) /\
    (~ Forall playable_note notes -> s = EmptyString) /\
    (import_error env <> None \/ score_error env tempo <> None -> s = EmptyString).
Proof.
  intros Hwrite.
  destruct (midi_export_outcome env g c0 notes tempo genre Hwrite)
    as (s & E1 & E2 & _ & Hraise).
  exists s. split; [done |]. split; [done |].
  destruct (compose_outcome env g c0 notes tempo genre)
    as [(e & E & _) | (mel & bass & drums & Himport & Hscore & Emel & _ & _ & E)].
  - by rewrite (Hraise e E).
  - split.
    + intros Hbad. exfalso. apply Hbad.
      destruct (melody_loop_Ok _ _ _ _ _ Emel) as (track & _ & Hall & _).
      clear -Hall. induction Hall; constructor; [by eapply mirrors_playable | done].
    + intros [H | H]; congruence.
Qed.

Lemma midi_export_never_raises_witness :
  exists s,
    EnhancedMidiGenerator.notes_to_midi_base64 env0 rng0 0
      (generate_demo_melody rng0 0 6 120 "pop" ++ three_notes) 120 "pop" = Ok s /\
    create_audio env0 rng0 0
      (generate_demo_melody rng0 0 6 120 "pop" ++ three_notes) 120 "pop"
      = Ok (data_url s) /\
    (~ Forall playable_note (generate_demo_melody rng0 0 6 120 "pop" ++ three_notes) ->
     s = EmptyString) /\
    (import_error env0 <> None \/ score_error env0 120 <> None -> s = EmptyString).
Proof.
  apply (midi_export_never_raises env0 rng0 0
           (generate_demo_melody rng0 0 6 120 "pop" ++ three_notes) 120 "pop").
  by intros pm.
Defined.

(* ===================================================================== *)
(** * Further properties: the drum track                                *)
(* ===================================================================== *)

Lemma for_break_invariant {S A : Type} (body : A -> S -> option S) (P : S -> Prop)
    (l : list A) (s : S) :
  (forall a s s', a ∈ l -> body a s = Some s' -> P s -> P s') ->
  P s -> P (for_break body l s).
Proof.
  revert s. induction l as [| a l IH]; intros s Hbody Hs; simpl; [done |].
  destruct (body a s) as [s' |] eqn:E; [| done].
  apply IH.
  - intros a' s1 s2 Ha'. apply Hbody. by right.
  - eapply Hbody; [by left | exact E | done].
Qed.

Lemma hit_drum_hit (vel p : Z) (t len : Q) :
  p ∈ [36; 38; 42; 43; 47; 50] -> 50 <= vel <= 120 -> (0 <= t)%Q ->
  (len == 0.1 \/ len == 0.05)%Q ->
  drum_hit (EnhancedMidiGenerator.hit vel p t len).
Proof.
  intros Hp Hv Ht Hlen. unfold drum_hit, EnhancedMidiGenerator.hit. simpl.
  repeat split; try done; try lia.
  destruct Hlen as [-> | ->]; [by left | by right].
Qed.

Lemma half_beats_nonneg (seconds_per_beat t : Q) (i : nat) :
  (0 < seconds_per_beat)%Q -> (0 <= t)%Q ->
  (0 <= t + inject_Z (Z.of_nat i) * (seconds_per_beat / 2))%Q.
Proof.
  intros Hb Ht.
  assert (H : (0 <= inject_Z (Z.of_nat i) * (seconds_per_beat / 2))%Q).
  { apply Qmult_le_0_compat.
    - replace 0%Q with (inject_Z 0) by done. rewrite <- Zle_Qle. lia.
    - lra_half. }
  lra.
Qed.

Lemma fill_bar_hits (g : Rng) (seconds_per_beat t : Q) (c : nat) :
  (0 < seconds_per_beat)%Q -> (0 <= t)%Q ->
  Forall drum_hit (fst (EnhancedMidiGenerator.fill_bar g seconds_per_beat t c)) /\
  length (fst (EnhancedMidiGenerator.fill_bar g seconds_per_beat t c)) = 13%nat /\
  snd (EnhancedMidiGenerator.fill_bar g seconds_per_beat t c) = (c + 6)%nat.
Proof.
  intros Hb Ht. unfold EnhancedMidiGenerator.fill_bar. cbn [fst snd].
  split; [| split; [by rewrite length_app, length_map |done]].
  apply Forall_app. split.
  - apply Forall_forall. intros h Hh. apply list_elem_of_fmap in Hh as (i & -> & _).
    pose proof (randint_range g (c + i) 60 90 ltac:(lia)).
    apply hit_drum_hit; [in_list | lia | by apply half_beats_nonneg | by left].
  - repeat constructor; apply hit_drum_hit;
      try in_list; try lia; try (by left); try lra.
Qed.

Section GrooveBar.

Import PrettyMidi EnhancedMidiGenerator.

Variable g : Rng.
Variable seconds_per_beat total t : Q.
Lemma groove_bar_before (index : Z) (c : nat) :
  groove_hits_before total (groove_bar g seconds_per_beat total t index c).
Proof.
  unfold groove_bar.
  assert (Hguard : forall a b, Qle_bool a b = false -> (b < a)%Q).
  { intros a b E. apply Qnot_le_lt. intros Hle. apply Qle_bool_iff in Hle. congruence. }
  assert (H : groove_hits_before total
    (for_break (groove_snare g seconds_per_beat total t) [1; 3]%Q
       (for_break (groove_kick seconds_per_beat total t) [0; 2; 2.5]%Q
          (for_break (groove_hat g seconds_per_beat total t) (seq 0 8) ([], c))))).
  { apply for_break_invariant; [| apply for_break_invariant; [| apply for_break_invariant]].
    - intros a s s' _. unfold groove_snare.
      destruct (Qle_bool _ _) eqn:E; [done |]. intros [= <-] Hs.
      apply Forall_app. split; [done |]. constructor; [| done]. simpl. by apply Hguard.
    - intros a s s' _. unfold groove_kick.
      destruct (Qle_bool _ _) eqn:E; [done |]. intros [= <-] Hs.
      apply Forall_app. split; [done |]. constructor; [| done]. simpl. by apply Hguard.
    - intros a s s' _. unfold groove_hat.
      destruct (Qle_bool _ _) eqn:E; [done |]. intros [= <-] Hs.
      apply Forall_app. split; [done |]. constructor; [| done]. simpl. by apply Hguard.
    - constructor. }
  destruct (index mod 2 =? 1); [| done].
  destruct (Qltb _ total) eqn:E; [| done].
  apply Forall_app. split; [done |]. constructor; [| done]. simpl. by apply Qltb_lt.
Qed.

Hypothesis beat_pos : (0 < seconds_per_beat)%Q.
Hypothesis t_nonneg : (0 <= t)%Q.

Lemma groove_bar_hits (index : Z) (c : nat) :
  Forall drum_hit (fst (groove_bar g seconds_per_beat total t index c)).
Proof.
  unfold groove_bar.
  assert (H : Forall drum_hit (fst
    (for_break (groove_snare g seconds_per_beat total t) [1; 3]%Q
       (for_break (groove_kick seconds_per_beat total t) [0; 2; 2.5]%Q
          (for_break (groove_hat g seconds_per_beat total t) (seq 0 8) ([], c)))))).
  { apply (for_break_invariant _ (fun st => Forall drum_hit (fst st)));
      [| apply (for_break_invariant _ (fun st => Forall drum_hit (fst st)));
         [| apply (for_break_invariant _ (fun st => Forall drum_hit (fst st)))]].
    - intros a s s' Ha. unfold groove_snare.
      destruct (Qle_bool _ _) eqn:E; [done |]. intros [= <-] Hs.
      apply Forall_app. split; [done |]. constructor; [| done].
      pose proof (randint_range g (snd s) (-5) 5 ltac:(lia)).
      apply hit_drum_hit; [in_list | lia | | by left].
      assert (Hnn : (0 <= a)%Q).
      { repeat (apply elem_of_cons in Ha as [-> | Ha]; [done |]).
        by apply elem_of_nil in Ha. }
      pose proof (Qmult_le_0_compat a seconds_per_beat Hnn ltac:(lra)). lra.
    - intros a s s' Ha. unfold groove_kick.
      destruct (Qle_bool _ _) eqn:E; [done |]. intros [= <-] Hs.
      apply Forall_app. split; [done |]. constructor; [| done].
      apply hit_drum_hit; [in_list | destruct (Qeq_bool _ _); lia | | by left].
      assert (Hnn : (0 <= a)%Q).
      { repeat (apply elem_of_cons in Ha as [-> | Ha]; [done |]).
        by apply elem_of_nil in Ha. }
      pose proof (Qmult_le_0_compat a seconds_per_beat Hnn ltac:(lra)). lra.
    - intros a s s' _. unfold groove_hat.
      destruct (Qle_bool _ _) eqn:E; [done |]. intros [= <-] Hs.
      apply Forall_app. split; [done |]. constructor; [| done].
      pose proof (randint_range g (snd s) (-10) 10 ltac:(lia)).
      apply hit_drum_hit; [in_list | | by apply half_beats_nonneg | by left].
      match goal with |- context [if ?b then _ else _] => destruct b end; lia.
    - constructor. }
  destruct (index mod 2 =? 1); [| done].
  destruct (Qltb _ total) eqn:E; [| done].
  cbn [fst]. apply Forall_app. split; [done |]. constructor; [| done].
  apply hit_drum_hit; [in_list | lia | | by right].
  pose proof (Qmult_le_0_compat 3.75 seconds_per_beat ltac:(done) ltac:(lra)). lra.
Qed.

End GrooveBar.

Lemma drum_body_hits (g : Rng) (seconds_per_beat total : Q) (k : nat)
    (st : EnhancedMidiGenerator.BarState) :
  (0 < seconds_per_beat)%Q ->
  (EnhancedMidiGenerator.bar_time st == inject_Z (Z.of_nat k) * (seconds_per_beat * 4))%Q ->
  Forall drum_hit (EnhancedMidiGenerator.bar_notes st) ->
  exists st',
    EnhancedMidiGenerator.drum_body g seconds_per_beat total st = Ok st' /\
    (EnhancedMidiGenerator.bar_time st'
       == inject_Z (Z.of_nat (S k)) * (seconds_per_beat * 4))%Q /\
    Forall drum_hit (EnhancedMidiGenerator.bar_notes st').
Proof.
  intros Hb Ht Hall.
  assert (Hnn : (0 <= EnhancedMidiGenerator.bar_time st)%Q).
  { rewrite Ht. apply Qmult_le_0_compat; [| lra].
    replace 0%Q with (inject_Z 0) by done. rewrite <- Zle_Qle. lia. }
  unfold EnhancedMidiGenerator.drum_body.
  destruct (_ =? 0) eqn:Efill.
  - destruct (fill_bar_hits g seconds_per_beat (EnhancedMidiGenerator.bar_time st)
                (EnhancedMidiGenerator.bar_draws st) Hb Hnn) as (Hhits & _ & _).
    destruct (EnhancedMidiGenerator.fill_bar _ _ _ _) as [hits c'].
    eexists. split; [done |]. cbn [EnhancedMidiGenerator.bar_time
      EnhancedMidiGenerator.bar_notes]. split.
    + rewrite Ht, Nat2Z.inj_succ. unfold Z.succ. rewrite inject_Z_plus. ring.
    + apply Forall_app. by split.
  - pose proof (groove_bar_hits g seconds_per_beat total (EnhancedMidiGenerator.bar_time st)
                  Hb Hnn (EnhancedMidiGenerator.bar_index st)
                  (EnhancedMidiGenerator.bar_draws st)) as Hhits.
    destruct (EnhancedMidiGenerator.groove_bar _ _ _ _ _ _) as [hits c'].
    eexists. split; [done |]. cbn [EnhancedMidiGenerator.bar_time
      EnhancedMidiGenerator.bar_notes]. split.
    + rewrite Ht, Nat2Z.inj_succ. unfold Z.succ. rewrite inject_Z_plus. ring.
    + apply Forall_app. by split.
Qed.

(** When the score is built, every note of its third track, "Drums", is a
    valid percussion hit: its pitch is one of 36, 38, 42, 43, 47, 50, its
    velocity lies between 50 and 120 (so the clamp [max(1, min(127, vel))]
    of the hi-hat never changes a velocity), it starts at or after time 0
    and lasts 0.1 or 0.05 seconds. *)
Theorem drum_track_hits_are_valid
    (env : MidiEnv) (g : Rng) (c0 : nat) (notes : list NoteDict)
    (tempo : Z) (genre : string) (pm : PrettyMidi.PrettyMIDI) :
  EnhancedMidiGenerator.compose env g c0 notes tempo genre = Ok pm ->
  exists melody bass drums,
    PrettyMidi.instruments pm = [melody; bass; drums] /\
    PrettyMidi.name drums = "Drums"%string /\
    Forall drum_hit (PrettyMidi.notes drums).
Proof.
  intros H.
  destruct (compose_outcome env g c0 notes tempo genre)
    as [(e & E & _) | (mel & bass & drums & _ & _ & _ & _ & Edrums & E)];
    rewrite E in H; [done |].
  injection H as <-. eexists _, _, _. split; [reflexivity |]. split; [done |].
  cbn [PrettyMidi.notes].
  pose proof (seconds_per_beat_pos tempo) as Hbeat.
  destruct (while_bars (seconds_per_beat_at tempo)
              (EnhancedMidiGenerator.total_duration mel) Hbeat
              (EnhancedMidiGenerator.drum_body g (seconds_per_beat_at tempo)
                 (EnhancedMidiGenerator.total_duration mel))
              (fun k st =>
                 (EnhancedMidiGenerator.bar_time st
                    == inject_Z (Z.of_nat k) * (seconds_per_beat_at tempo * 4))%Q /\
                 Forall drum_hit (EnhancedMidiGenerator.bar_notes st)))
    with (n := EnhancedMidiGenerator.bars_until (EnhancedMidiGenerator.total_duration mel)
                 (seconds_per_beat_at tempo * 4)) (k := O)
         (st := {| EnhancedMidiGenerator.bar_time := 0;
                   EnhancedMidiGenerator.bar_index := 0;
                   EnhancedMidiGenerator.bar_notes := [];
                   EnhancedMidiGenerator.bar_draws := EnhancedMidiGenerator.draws mel |})
    as (st' & E' & _ & Hhits).
  - by intros k st (Ht & _).
  - intros k st (Ht & Hall).
    destruct (drum_body_hits g (seconds_per_beat_at tempo)
                (EnhancedMidiGenerator.total_duration mel) k st Hbeat Ht Hall)
      as (st1 & E1 & Ht1 & Hall1).
    by exists st1.
  - split; [simpl; ring | constructor].
  - done.
  - cbv zeta in Edrums. rewrite Edrums in E'. by injection E' as <-.
Qed.

(** One pass of the drum loop always succeeds and appends the hits of one
    bar.  In a groove bar ([(bar_index + 1) % 4 != 0]) every hit starts
    before [total_duration]: each append is guarded.  A fill bar is not
    guarded: it always appends its 13 hits, the last of them 3.75 beats
    into the bar, wherever [total_duration] falls. *)
Theorem drum_bar_truncation
    (g : Rng) (seconds_per_beat total : Q) (st : EnhancedMidiGenerator.BarState) :
  exists st' hits,
    EnhancedMidiGenerator.drum_body g seconds_per_beat total st = Ok st' /\
    EnhancedMidiGenerator.bar_notes st' = EnhancedMidiGenerator.bar_notes st ++ hits /\
    ((EnhancedMidiGenerator.bar_index st + 1) mod 4 <> 0 ->
       Forall (fun h => (PrettyMidi.start h < total)%Q) hits) /\
    ((EnhancedMidiGenerator.bar_index st + 1) mod 4 = 0 ->
       length hits = 13%nat /\
       Exists (fun h => PrettyMidi.start h
                        = (EnhancedMidiGenerator.bar_time st + seconds_per_beat * 3
                           + seconds_per_beat * 0.75)%Q) hits).
Proof.
  unfold EnhancedMidiGenerator.drum_body.
  destruct (_ =? 0) eqn:Efill.
  - apply Z.eqb_eq in Efill.
    eexists _, _. split; [reflexivity |]. split; [reflexivity |].
    split; [done |]. intros _. split; [done |].
    apply Exists_exists.
    exists (EnhancedMidiGenerator.hit 120 43
              (EnhancedMidiGenerator.bar_time st + seconds_per_beat * 3
               + seconds_per_beat * 0.75) 0.1).
    split; [| reflexivity].
    apply elem_of_app. right. apply list_elem_of_In. simpl. tauto.
  - apply Z.eqb_neq in Efill.
    pose proof (groove_bar_before g seconds_per_beat total
                  (EnhancedMidiGenerator.bar_time st)
                  (EnhancedMidiGenerator.bar_index st)
                  (EnhancedMidiGenerator.bar_draws st)) as Hhits.
    unfold groove_hits_before in Hhits.
    destruct (EnhancedMidiGenerator.groove_bar _ _ _ _ _ _) as [hits c'].
    eexists _, hits. split; [reflexivity |]. split; [reflexivity |].
    split; [done |]. done.
Qed.

Lemma drum_track_hits_are_valid_witness :
  exists pm melody bass drums,
    EnhancedMidiGenerator.compose env0 rng0 0 three_notes 120 "rock" = Ok pm /\
    PrettyMidi.instruments pm = [melody; bass; drums] /\
    PrettyMidi.name drums = "Drums"%string /\
    Forall drum_hit (PrettyMidi.notes drums).
Proof.
  destruct (compose_playable env0 rng0 0 three_notes 120 "rock" eq_refl eq_refl
              three_notes_playable) as [pm E].
  destruct (drum_track_hits_are_valid env0 rng0 0 three_notes 120 "rock" pm E)
    as (melody & bass & drums & H).
  by exists pm, melody, bass, drums.
Defined.

(* ===================================================================== *)
(** * Further properties: the service call                              *)
(* ===================================================================== *)

Lemma loop_body_returns self m (name : string) (scale : list Z) tempo (i : nat)
    (st : LoopState) :
  model_returns m ->
  MusicTheory.SCALES !! name = Some scale ->
  loop_body self m scale tempo i st <> OutOfFuel.
Proof.
  intros Hm Hscale. unfold loop_body, predict_next_note.
  destruct (Qltb 0 (temperature st)); [| done].
  destruct (m i (input_notes st) (temperature st)) as [[[p s] d]| e' |] eqn:Em;
    cbn [mbind result_mbind result_bind]; [| done | by apply Hm in Em].
  destruct (constrain_to_scale_total name scale p Hscale) as [p' ->].
  destruct (quantize_duration_total (py_maxQ 0 s) 0.125) as [s' ->]; [done |].
  destruct (quantize_duration_total (py_maxQ 0 d) 0.125) as [d' ->]; [done |].
  cbn [mbind result_mbind result_bind]. unfold py_truediv.
  destruct (Qeq_bool (vocab_size self) 0); cbn [mbind result_mbind result_bind]; [done |].
  destruct (Qeq_bool (max_step self) 0); cbn [mbind result_mbind result_bind]; [done |].
  by destruct (Qeq_bool (max_duration self) 0).
Qed.

Lemma generate_with_constraints_returns self m total_notes seed tempo genre temp :
  model_returns m ->
  generate_with_constraints self m total_notes seed tempo genre temp <> OutOfFuel.
Proof.
  intros Hm. unfold generate_with_constraints.
  destruct (get_scale_for_genre_ok genre) as (name & scale & Hscale & ->).
  cbn [mbind result_mbind result_bind].
  destruct (for_each _ _ _) as [st | e |] eqn:E; [done | done |].
  exfalso. revert E. apply for_each_returns. intros i st.
  by apply (loop_body_returns self m name scale).
Qed.

Lemma generate_with_constraints_length self m total_notes seed tempo genre temp notes :
  generate_with_constraints self m total_notes seed tempo genre temp = Ok notes ->
  length notes = Z.to_nat total_notes.
Proof.
  unfold generate_with_constraints.
  destruct (MusicTheory.get_scale_for_genre genre) as [scale | |]; [| done | done].
  simpl. intros H. bind_ok H. injection H as <-.
  apply for_each_loop_body in E as [_ E]; [| apply loop_init_invariant].
  rewrite E. unfold py_range. simpl. by rewrite length_seq.
Qed.

Lemma generate_with_constraints_playable self m total_notes seed tempo genre temp notes :
  generate_with_constraints self m total_notes seed tempo genre temp = Ok notes ->
  Forall playable_note notes.
Proof.
  unfold generate_with_constraints.
  destruct (get_scale_for_genre_ok genre) as (name & scale & Hscale & ->).
  simpl. intros H. bind_ok H. injection H as <-.
  eapply for_each_loop_body_notes in E as [Hwf _]; try done; try (simpl; constructor).
  eapply Forall_impl; [exact Hwf |].
  intros n (p & start & step & dur & ks & kd & -> & _). by repeat split.
Qed.

Lemma nonpositive_temperature_raises self m total_notes seed tempo genre temp :
  1 <= total_notes -> (temp <= 0)%Q ->
  generate_with_constraints self m total_notes seed tempo genre temp
    = Raise AssertionError.
Proof.
  intros Hn Ht. unfold generate_with_constraints.
  destruct (get_scale_for_genre_ok genre) as (name & scale & Hscale & ->).
  cbn [mbind result_mbind result_bind]. unfold py_range.
  replace (Z.to_nat total_notes) with (S (Z.to_nat total_notes - 1)) by lia.
  cbn [seq for_each].
  rewrite (loop_body_raises self m scale tempo 0 (loop_init seed temp) AssertionError);
    [done |].
  unfold predict_next_note. cbn [temperature loop_init].
  by replace (Qltb 0 temp) with false by (symmetry; by apply Qltb_ge).
Qed.

Lemma generate_smart_seed_raises (genre : string) (seq_length : Z) (v s d : Q) :
  (v == 0 \/ s == 0 \/ d == 0)%Q -> 15 < seq_length ->
  SeedGenerator.generate_smart_seed genre seq_length v s d = Raise ZeroDivisionError.
Proof.
  intros Hzero Hlen. unfold SeedGenerator.generate_smart_seed, py_range.
  set (start := dict_get _ _ _).
  replace (Z.to_nat seq_length) with (15 + S (Z.to_nat seq_length - 16))%nat by lia.
  rewrite seq_app, for_each_app.
  rewrite (for_each_collect _ (seed_entry start v s d)).
  - cbn [mbind result_mbind result_bind]. simpl seq. cbn [for_each].
    assert (E : SeedGenerator.seed_row start v s d 15 = Raise ZeroDivisionError).
    { unfold SeedGenerator.seed_row, py_truediv. simpl.
      destruct (Qeq_bool v 0) eqn:Ev; [done |]. simpl.
      destruct (Qeq_bool s 0) eqn:Es; [done |]. simpl.
      destruct (Qeq_bool d 0) eqn:Ed; [done |].
      apply Qeq_bool_neq in Ev, Es, Ed. tauto. }
    by rewrite E.
  - intros i Hi. apply list_elem_of_In, in_seq in Hi. apply seed_row_padding. lia.
Qed.

(** The notes [generate_melody] answers with, before the audio is made. *)
Lemma generate_melody_notes (self : MelodyServiceV2) (env : MidiEnv) (g : Rng)
    (tempo : Z) (genre : string) (bars : Z) (temp : Q) (seed : list NormalizedNote)
    (notes : list NoteDict) (c : nat) :
  SeedGenerator.generate_smart_seed genre SEQ_LENGTH
    (vocab_size self) (max_step self) (max_duration self) = Ok seed ->
  match model self with
  | Some m =>
      try_except
        (notes ← generate_with_constraints self m (6 * bars) seed tempo genre temp;
         Ok (notes, O))
        (fun e =>
           let st := demo_loop g 0 (6 * bars) tempo genre in
           Ok (dm_notes st, dm_draws st))
  | None =>
      let st := demo_loop g 0 (6 * bars) tempo genre in
      Ok (dm_notes st, dm_draws st)
  end = Ok (notes, c) ->
  generate_melody self env g tempo genre bars temp =
    url ← create_audio env g c notes tempo genre;
    Ok {| audio_url := url; resp_notes := notes; resp_tempo := tempo;
          resp_genre := genre; resp_bars := bars |}.
Proof.
  intros Hseed Hnotes. unfold generate_melody.
  rewrite num_notes_of_bars, Hseed. cbn [mbind result_mbind result_bind] in *.
  by rewrite Hnotes.
Qed.

Lemma generate_melody_answers
    (self : MelodyServiceV2) (env : MidiEnv) (g : Rng)
    (tempo : Z) (genre : string) (bars : Z) (temp : Q) :
  normalisable self ->
  (forall m, model self = Some m -> model_returns m) ->
  write_returns env ->
  exists r,
    generate_melody self env g tempo genre bars temp = Ok r /\
    length (resp_notes r) = Z.to_nat (6 * bars) /\
    resp_tempo r = tempo /\ resp_genre r = genre /\ resp_bars r = bars /\
    (audio_url r = EmptyString \/
     exists s, s <> EmptyString /\
       audio_url r = ("data:audio/midi;base64," ++ s)%string).
Proof.
  intros Hnorm Hmodel Hwrite.
  destruct (generate_smart_seed_total self genre SEQ_LENGTH Hnorm) as [seed Hseed].
  assert (Hnotes : exists notes c,
    match model self with
    | Some m =>
        try_except
          (notes ← generate_with_constraints self m (6 * bars) seed tempo genre temp;
           Ok (notes, O))
          (fun e =>
             let st := demo_loop g 0 (6 * bars) tempo genre in
             Ok (dm_notes st, dm_draws st))
    | None =>
        let st := demo_loop g 0 (6 * bars) tempo genre in
        Ok (dm_notes st, dm_draws st)
    end = Ok (notes, c) /\ length notes = Z.to_nat (6 * bars)).
  { pose proof (generate_demo_melody_shape g 0 (6 * bars) tempo genre) as [_ Hdemo].
    unfold generate_demo_melody in Hdemo.
    destruct (model self) as [m |] eqn:Em; [| by eexists _, _].
    destruct (generate_with_constraints self m (6 * bars) seed tempo genre temp)
      as [notes | e |] eqn:E; cbn [mbind result_mbind result_bind try_except].
    - exists notes, O. split; [done |].
      by apply generate_with_constraints_length in E.
    - by eexists _, _.
    - exfalso. revert E. apply generate_with_constraints_returns. by apply Hmodel. }
  destruct Hnotes as (notes & c & Hnotes & Hlen).
  rewrite (generate_melody_notes self env g tempo genre bars temp seed notes c Hseed Hnotes).
  destruct (midi_export_outcome env g c notes tempo genre Hwrite) as (s & _ & -> & _).
  cbn [mbind result_mbind result_bind]. eexists. split; [reflexivity |].
  cbn [resp_notes resp_tempo resp_genre resp_bars audio_url].
  repeat split; try done.
  destruct (data_url_shape s) as [-> | [Hs ->]]; [by left | right; by exists s].
Qed.

(** With non-zero normalisation constants [generate_melody] always
    answers, with or without a model and whatever the model does short of
    not returning: the answer holds exactly [int(bars * 4 * 1.5) = 6 * bars]
    notes (none for [bars <= 0]), echoes tempo, genre and bars, and its
    [audio_url] is either empty or the data URL of a non-empty base64
    text. *)
Theorem generate_melody_always_answers
    (self : MelodyServiceV2) (env : MidiEnv) (g : Rng)
    (tempo : Z) (genre : string) (bars : Z) (temp : Q) :
  normalisable self ->
  (forall m, model self = Some m -> model_returns m) ->
  write_returns env ->
  exists r,
    generate_melody self env g tempo genre bars temp = Ok r /\
    length (resp_notes r) = Z.to_nat (6 * bars) /\
    resp_tempo r = tempo /\ resp_genre r = genre /\ resp_bars r = bars /\
    (audio_url r = EmptyString \/
     exists s, s <> EmptyString /\
       audio_url r = ("data:audio/midi;base64," ++ s)%string).
Proof. apply generate_melody_answers. Qed.

Lemma generate_melody_always_answers_witness :
  exists r,
    generate_melody (default_service (Some failing_model)) env0 rng0 90 "jazz" 4 1.1
      = Ok r /\
    length (resp_notes r) = Z.to_nat (6 * 4) /\
    resp_tempo r = 90 /\ resp_genre r = "jazz"%string /\ resp_bars r = 4 /\
    (audio_url r = EmptyString \/
     exists s, s <> EmptyString /\
       audio_url r = ("data:audio/midi;base64," ++ s)%string).
Proof.
  apply (generate_melody_always_answers (default_service (Some failing_model)) env0 rng0
           90 "jazz" 4 1.1).
  - apply default_service_normalisable.
  - intros m [= <-] k notes temp. unfold failing_model. by destruct (k <? 2)%nat.
  - by intros pm.
Defined.

(** With a model that answers every call, non-zero constants and a
    positive temperature, the notes of the answer are those of
    [_generate_with_constraints] on the smart seed, and they always carry
    the keys the MIDI generator reads: once the imports and the
    construction of the score succeed the score is built, and the
    [audio_url] is the data URL of its serialisation (empty only if the
    serialisation raises or returns the empty text). *)
Theorem generate_melody_model_path
    (self : MelodyServiceV2) (m : Model) (env : MidiEnv) (g : Rng)
    (tempo : Z) (genre : string) (bars : Z) (temp : Q) :
  model self = Some m -> always_predicts m -> normalisable self -> (0 < temp)%Q ->
  import_error env = None -> score_error env tempo = None -> write_returns env ->
  exists r seed pm,
    generate_melody self env g tempo genre bars temp = Ok r /\
    SeedGenerator.generate_smart_seed genre SEQ_LENGTH
      (vocab_size self) (max_step self) (max_duration self) = Ok seed /\
    generate_with_constraints self m (6 * bars) seed tempo genre temp
      = Ok (resp_notes r) /\
    EnhancedMidiGenerator.compose env g 0 (resp_notes r) tempo genre = Ok pm /\
    Ok (audio_url r) =
      try_except (s ← write_base64 env pm; Ok (data_url s)) (fun _ => Ok EmptyString).
Proof.
  intros Hmodel Hm Hnorm Htemp Himport Hscore Hwrite.
  destruct (generate_smart_seed_total self genre SEQ_LENGTH Hnorm) as [seed Hseed].
  destruct (generate_with_constraints_total self m (6 * bars) seed tempo genre temp
              Hm Hnorm Htemp) as [notes Hgen].
  rewrite (generate_melody_notes self env g tempo genre bars temp seed notes O Hseed)
    by (by rewrite Hmodel, Hgen).
  destruct (midi_export_outcome env g 0 notes tempo genre Hwrite)
    as (s & _ & -> & Hok & _).
  cbn [mbind result_mbind result_bind].
  destruct (compose_outcome env g 0 notes tempo genre)
    as [(e & E & [He | [He | He]]) | (mel & bass & drums & _ & _ & _ & _ & _ & E)].
  - congruence.
  - congruence.
  - exfalso.
    destruct (melody_loop_result g (seconds_per_beat_at tempo) notes
                {| EnhancedMidiGenerator.melody_notes := [];
                   EnhancedMidiGenerator.total_duration := 0;
                   EnhancedMidiGenerator.draws := 0 |}) as (mel & Emel & _);
      [pose proof (seconds_per_beat_pos tempo); lra
      | by eapply generate_with_constraints_playable | done |].
    congruence.
  - eexists _, seed, _. split; [reflexivity |]. split; [done |].
    cbn [resp_notes audio_url]. split; [done |]. split; [exact E |].
    specialize (Hok _ E).
    destruct (write_base64 env _) as [s' | e |];
      cbn [mbind result_mbind result_bind try_except] in *; [| | done];
      by injection Hok as ->.
Qed.

Lemma generate_melody_model_path_witness :
  exists r seed pm,
    generate_melody (default_service (Some stub_model)) env0 rng0 90 "rock" 4 1.1
      = Ok r /\
    SeedGenerator.generate_smart_seed "rock" SEQ_LENGTH
      (vocab_size (default_service (Some stub_model)))
      (max_step (default_service (Some stub_model)))
      (max_duration (default_service (Some stub_model))) = Ok seed /\
    generate_with_constraints (default_service (Some stub_model)) stub_model (6 * 4)
      seed 90 "rock" 1.1 = Ok (resp_notes r) /\
    EnhancedMidiGenerator.compose env0 rng0 0 (resp_notes r) 90 "rock" = Ok pm /\
    Ok (audio_url r) =
      try_except (s ← write_base64 env0 pm; Ok (data_url s)) (fun _ => Ok EmptyString).
Proof.
  apply (generate_melody_model_path (default_service (Some stub_model)) stub_model
           env0 rng0 90 "rock" 4 1.1).
  - reflexivity.
  - apply stub_model_always_predicts.
  - apply default_service_normalisable.
  - done.
  - reflexivity.
  - reflexivity.
  - by intros pm.
Defined.

(** The seed is built before the [try] block of [generate_melody]: when
    one of the normalisation constants is zero the call raises
    [ZeroDivisionError], with or without a model; the demo generator is
    not reached. *)
Theorem generate_melody_zero_constant
    (self : MelodyServiceV2) (env : MidiEnv) (g : Rng)
    (tempo : Z) (genre : string) (bars : Z) (temp : Q) :
  (vocab_size self == 0 \/ max_step self == 0 \/ max_duration self == 0)%Q ->
  generate_melody self env g tempo genre bars temp = Raise ZeroDivisionError.
Proof.
  intros Hzero. unfold generate_melody.
  by rewrite (generate_smart_seed_raises genre SEQ_LENGTH _ _ _ Hzero).
Qed.

Lemma generate_melody_zero_constant_witness :
  generate_melody zero_step_service env0 rng0 120 "pop" 8 1.1 = Raise ZeroDivisionError.
Proof.
  apply (generate_melody_zero_constant zero_step_service env0 rng0 120 "pop" 8 1.1).
  right. by left.
Defined.

(** With a model loaded, a temperature that is not positive makes the
    first prediction fail its assertion before the model is called; the
    handler of [generate_melody] then answers with the notes of the demo
    generator, and the [audio_url] is empty. *)
Theorem nonpositive_temperature_falls_back_to_demo
    (self : MelodyServiceV2) (m : Model) (env : MidiEnv) (g : Rng)
    (tempo : Z) (genre : string) (bars : Z) (temp : Q) :
  model self = Some m -> normalisable self -> 1 <= bars -> (temp <= 0)%Q ->
  exists r,
    generate_melody self env g tempo genre bars temp = Ok r /\
    resp_notes r = generate_demo_melody g 0 (6 * bars) tempo genre /\
    audio_url r = EmptyString.
Proof.
  intros Hmodel Hnorm Hbars Htemp.
  destruct (generate_smart_seed_total self genre SEQ_LENGTH Hnorm) as [seed Hseed].
  apply (generate_melody_demo_path self env g tempo genre bars temp seed Hseed);
    [| done].
  right. exists m, AssertionError. split; [done |].
  apply nonpositive_temperature_raises; [lia | done].
Qed.

Lemma nonpositive_temperature_falls_back_to_demo_witness :
  exists r,
    generate_melody (default_service (Some stub_model)) env0 rng0 120 "pop" 8 0 = Ok r /\
    resp_notes r = generate_demo_melody rng0 0 (6 * 8) 120 "pop" /\
    audio_url r = EmptyString.
Proof.
  apply (nonpositive_temperature_falls_back_to_demo (default_service (Some stub_model))
           stub_model env0 rng0 120 "pop" 8 0).
  - reflexivity.
  - apply default_service_normalisable.
  - lia.
  - done.
Defined.

(* ===================================================================== *)
(** * Further properties: the training loss                             *)
(* ===================================================================== *)

Lemma sum_nonneg (l : list Q) :
  Forall (fun x => 0 <= x)%Q l -> (0 <= fold_right Qplus 0 l)%Q.
Proof.
  induction 1 as [| x l Hx _ IH]; simpl; [done | lra].
Qed.

Lemma sum_zero (l : list Q) :
  Forall (fun x => 0 <= x)%Q l ->
  (fold_right Qplus 0 l == 0)%Q <-> Forall (fun x => x == 0)%Q l.
Proof.
  induction 1 as [| x l Hx Hl IH]; simpl.
  - split; [constructor | done].
  - pose proof (sum_nonneg l Hl) as Hs. split.
    + intros H. constructor; [lra |]. apply IH. lra.
    + intros H. inversion H as [| ? ? H1 H2]; subst. apply IH in H2. lra.
Qed.

Lemma reduce_mean_nonneg (l : list Q) :
  Forall (fun x => 0 <= x)%Q l -> (0 <= reduce_mean l)%Q.
Proof.
  intros H. unfold reduce_mean.
  destruct l as [| x l]; [done |].
  apply Qle_shift_div_l.
  - replace 0%Q with (inject_Z 0) by done. rewrite <- Zlt_Qlt. simpl. lia.
  - rewrite Qmult_0_l. by apply sum_nonneg.
Qed.

Lemma reduce_mean_zero (l : list Q) :
  l <> [] -> Forall (fun x => 0 <= x)%Q l ->
  (reduce_mean l == 0)%Q <-> Forall (fun x => x == 0)%Q l.
Proof.
  intros Hne H. rewrite <- (sum_zero l H). unfold reduce_mean.
  assert (Hn : (0 < inject_Z (Z.of_nat (length l)))%Q).
  { replace 0%Q with (inject_Z 0) by done. rewrite <- Zlt_Qlt.
    destruct l; [done | simpl; lia]. }
  set (n := inject_Z _) in *. clearbody n. set (s := fold_right Qplus 0%Q l). clearbody s.
  split; intros E.
  - assert (E' : (s == s / n * n)%Q) by (field; lra). rewrite E' , E. ring.
  - rewrite E. field. lra.
Qed.

Lemma tf_maximum_pressure (p : Q) :
  (0 <= tf_maximum (- p) 0 * 10)%Q /\
  ((tf_maximum (- p) 0 * 10 == 0)%Q <-> (0 <= p)%Q).
Proof.
  unfold tf_maximum. destruct (Qltb (- p) 0) eqn:E.
  - apply Qltb_lt in E. split; [lra |]. split; intros; lra.
  - apply Qltb_ge in E. split; [lra |]. split; intros; lra.
Qed.

Lemma squares_nonneg (l : list Q) : Forall (fun x => 0 <= x)%Q (map (fun d => d * d)%Q l).
Proof.
  apply Forall_forall. intros x Hx. apply list_elem_of_fmap in Hx as (d & -> & _).
  apply Qsqr_nonneg || nra.
Qed.

(** On two non-empty tensors of the same shape the loss is the mean
    squared error, which is never negative, plus a pressure term that is
    never negative either: the loss is at least the mean squared error, and
    equal to it exactly when no prediction is negative. *)
Theorem positive_pressure_penalises_negative_predictions (y_true y_pred : list Q) :
  y_pred <> [] -> length y_true = length y_pred ->
  let mse := mean_squared_error y_true y_pred in
  let loss := mse_with_positive_pressure y_true y_pred in
  (0 <= mse)%Q /\ (mse <= loss)%Q /\
  ((loss == mse)%Q <-> Forall (fun p => 0 <= p)%Q y_pred).
Proof.
  intros Hne _ mse loss. subst mse loss. unfold mse_with_positive_pressure.
  set (mse := mean_squared_error y_true y_pred).
  set (pressure := reduce_mean _).
  assert (Hmse : (0 <= mse)%Q).
  { unfold mse, mean_squared_error. apply reduce_mean_nonneg, squares_nonneg. }
  assert (Hterms : Forall (fun x => 0 <= x)%Q
                     (map (fun p => tf_maximum (- p) 0 * 10)%Q y_pred)).
  { apply Forall_forall. intros x Hx. apply list_elem_of_fmap in Hx as (p & -> & _).
    by destruct (tf_maximum_pressure p). }
  assert (Hp : (0 <= pressure)%Q) by by apply reduce_mean_nonneg.
  assert (Hzero : (pressure == 0)%Q <-> Forall (fun p => 0 <= p)%Q y_pred).
  { unfold pressure. rewrite reduce_mean_zero; [| by destruct y_pred | done].
    rewrite Forall_fmap. apply Forall_iff. intros p.
    by destruct (tf_maximum_pressure p). }
  clearbody mse pressure.
  split; [done |]. split; [lra |]. rewrite <- Hzero. split; intros; lra.
Qed.

Lemma positive_pressure_penalises_negative_predictions_witness :
  let mse := mean_squared_error [0.5; 0.25]%Q [0.5; -0.25]%Q in
  let loss := mse_with_positive_pressure [0.5; 0.25]%Q [0.5; -0.25]%Q in
  (0 <= mse)%Q /\ (mse <= loss)%Q /\
  ((loss == mse)%Q <-> Forall (fun p => 0 <= p)%Q [0.5; -0.25]%Q).
Proof.
  apply (positive_pressure_penalises_negative_predictions [0.5; 0.25]%Q [0.5; -0.25]%Q);
    done.
Defined.

(* ===================================================================== *)
(** * Further properties: the melody endpoint                           *)
(* ===================================================================== *)

(** For a request within the declared bounds (tempo 60..200, bars 4..32)
    the tempo scale is [120 / tempo], between 0.6 and 2: the guard
    [max(tempo, 1)] never acts.  If the service's normalisation constants
    are non-zero the endpoint returns a response of [6 * bars] notes,
    between 24 and 192, echoing the request; the default temperature 1.1
    is positive.  If one of the constants is zero the endpoint fails with
    status 500, quoting [ZeroDivisionError]. *)
Theorem endpoint_answers_validated_request
    (melody_service : MelodyServiceV2) (env : MidiEnv) (g : Rng)
    (request : Main.MelodyRequest) :
  Main.validated request ->
  (forall m, model melody_service = Some m -> model_returns m) ->
  write_returns env ->
  (normalisable melody_service ->
   exists r,
     Main.generate_melody melody_service env g request = Main.Returns r /\
     length (resp_notes r) = Z.to_nat (6 * Main.bars request) /\
     (24 <= length (resp_notes r) <= 192)%nat /\
     resp_tempo r = Main.tempo request /\ resp_genre r = Main.genre request /\
     resp_bars r = Main.bars request) /\
  (tempo_scale (Main.tempo request) == 120 / inject_Z (Main.tempo request))%Q /\
  (0.6 <= tempo_scale (Main.tempo request) <= 2)%Q /\
  (~ normalisable melody_service ->
   Main.generate_melody melody_service env g request =
     Main.Fails {| Main.status_code := 500; Main.detail := ZeroDivisionError |}).
Proof.
  intros [Htempo Hbars] Hmodel Hwrite. unfold Main.generate_melody.
  split; [| split; [| split]].
  - intros Hnorm.
    destruct (generate_melody_answers melody_service env g (Main.tempo request)
                (Main.genre request) (Main.bars request) 1.1 Hnorm Hmodel Hwrite)
      as (r & -> & Hlen & Ht & Hg & Hb & _).
    exists r. repeat split; try done; lia.
  - unfold tempo_scale. by replace (Z.max (Main.tempo request) 1) with (Main.tempo request) by lia.
  - unfold tempo_scale. replace (Z.max (Main.tempo request) 1) with (Main.tempo request) by lia.
    assert (H60 : (60 <= inject_Z (Main.tempo request))%Q).
    { replace 60%Q with (inject_Z 60) by done. rewrite <- Zle_Qle. lia. }
    assert (H200 : (inject_Z (Main.tempo request) <= 200)%Q).
    { replace 200%Q with (inject_Z 200) by done. rewrite <- Zle_Qle. lia. }
    set (t := inject_Z _) in *. clearbody t. split.
    + apply Qle_shift_div_l; lra.
    + apply Qle_shift_div_r; lra.
  - intros Hnorm.
    unfold generate_melody.
    rewrite (generate_smart_seed_raises (Main.genre request) SEQ_LENGTH
               (vocab_size melody_service) (max_step melody_service)
               (max_duration melody_service)); [done | | done].
    unfold normalisable in Hnorm.
    destruct (Qeq_dec (vocab_size melody_service) 0) as [H | Hv]; [by left |].
    destruct (Qeq_dec (max_step melody_service) 0) as [H | Hs]; [right; by left |].
    destruct (Qeq_dec (max_duration melody_service) 0) as [H | Hd]; [right; by right |].
    tauto.
Qed.

Lemma endpoint_answers_validated_request_witness :
  (normalisable (default_service None) ->
   exists r,
     Main.generate_melody (default_service None) env0 rng0
       {| Main.tempo := 90; Main.genre := "jazz"; Main.bars := 4 |} = Main.Returns r /\
     length (resp_notes r) = Z.to_nat (6 * 4) /\
     (24 <= length (resp_notes r) <= 192)%nat /\
     resp_tempo r = 90 /\ resp_genre r = "jazz"%string /\ resp_bars r = 4) /\
  (tempo_scale 90 == 120 / inject_Z 90)%Q /\
  (0.6 <= tempo_scale 90 <= 2)%Q /\
  (~ normalisable (default_service None) ->
   Main.generate_melody (default_service None) env0 rng0
     {| Main.tempo := 90; Main.genre := "jazz"; Main.bars := 4 |} =
     Main.Fails {| Main.status_code := 500; Main.detail := ZeroDivisionError |}).
Proof.
  apply (endpoint_answers_validated_request (default_service None) env0 rng0
           {| Main.tempo := 90; Main.genre := "jazz"; Main.bars := 4 |}).
  - split; simpl; lia.
  - by intros m.
  - by intros pm.
Defined.
